(** * kro-crm-app: capture / segmentation / audio pipeline

    A shallow embedding of the two source files of the repository that carry
    the continuous capture pipeline:

    - [electron/LLMHelper.ts], method [analyzeAudioFromBase64]
      (format conversion with fallbacks, transcription, prompt escaping,
      local inference, cleanup) and [cleanJsonResponse];
    - [src/components/Queue/QueueCommands.tsx]
      (voice-activity tick loop, recorder rotation, manual flush, teardown,
      progressive reveal, the chat box).

    The component file holds three revisions of the component, newest
    first; the newest one is embedded (the recording logic is the same in
    all three, the reveal exists in this form only in the newest).

    JavaScript strings are sequences of UTF-16 code units and are modelled as
    [list N]; JavaScript numbers are IEEE-754 binary64 values and are modelled
    with the primitive floats of the standard library.  Everything outside
    the two files is a parameter or an input: the external programs and the
    JSON library of the backend are fields of a [Runtime]; the microphone,
    the animation frames, the clicks, the delivery of recorder events and
    the browser's refusal to start a recorder are the [Input]s of the
    session. *)

From Stdlib Require Import ZArith NArith List Bool Lia Floats.
From Stdlib Require Import Strings.String Strings.Ascii Numbers.DecimalString.
From stdpp Require Import base option list gmap.

Set Warnings "-inexact-float,-register-all".
Set Default Proof Using "Type".

Local Open Scope N_scope.

(* ===================================================================== *)
(** * JavaScript strings *)
(* ===================================================================== *)

Module JS.

(** A string is a list of UTF-16 code units. *)
Abbreviation jsstring := (list N) (only parsing).

(** An ASCII literal as a JavaScript string. *)
Fixpoint lit (s : String.string) : jsstring :=
  match s with
  | EmptyString => []
  | String c s' => N_of_ascii c :: lit s'
  end.

Definition BACKSLASH : N := 92.
Definition QUOTE : N := 34.
Definition LF : N := 10.
Definition CR : N := 13.
Definition TAB : N := 9.
Definition SPACE : N := 32.
Definition LBRACKET : N := 91.

(** [s.startsWith(pat)] *)
Fixpoint startsWith (s pat : jsstring) : bool :=
  match pat, s with
  | [], _ => true
  | p :: pat', c :: s' => (c =? p) && startsWith s' pat'
  | _ :: _, [] => false
  end.

(** [s.includes(pat)] *)
Fixpoint includes (s pat : jsstring) : bool :=
  startsWith s pat ||
  match s with
  | [] => false
  | _ :: s' => includes s' pat
  end.

(** [s.split(sep)] for a one-unit separator: never the empty array. *)
Fixpoint split (sep : N) (s : jsstring) : list jsstring :=
  match s with
  | [] => [[]]
  | c :: s' =>
      if c =? sep then [] :: split sep s'
      else match split sep s' with
           | h :: t => (c :: h) :: t
           | [] => [[c]]
           end
  end.

(** White space and line terminators, as [String.prototype.trim] strips
    them. *)
Definition is_trimmable (c : N) : bool :=
  (c =? 9) || (c =? 10) || (c =? 11) || (c =? 12) || (c =? 13) ||
  (c =? 32) || (c =? 160) || (c =? 5760) ||
  ((8192 <=? c) && (c <=? 8202)) ||
  (c =? 8232) || (c =? 8233) || (c =? 8239) || (c =? 8287) ||
  (c =? 12288) || (c =? 65279).

Fixpoint trimStart (s : jsstring) : jsstring :=
  match s with
  | [] => []
  | c :: s' => if is_trimmable c then trimStart s' else s
  end.

Definition trimEnd (s : jsstring) : jsstring := rev (trimStart (rev s)).

(** [s.trim()] *)
Definition trim (s : jsstring) : jsstring := trimEnd (trimStart s).

(** [s.replace(/c/g, rep)] for a pattern that matches exactly the code
    unit [c], and a replacement text without [$]. *)
Definition replaceAll (c : N) (rep : jsstring) (s : jsstring) : jsstring :=
  flat_map (fun x => if x =? c then rep else [x]) s.

(** [s.replace(pat, rep)] with a string pattern: only the first occurrence
    is replaced (replacement text without [$]). *)
Fixpoint replaceFirst (pat rep : jsstring) (s : jsstring) : jsstring :=
  if startsWith s pat then rep ++ drop (length pat) s
  else match s with
       | [] => []
       | c :: s' => c :: replaceFirst pat rep s'
       end.

(** [s.indexOf(String.fromCharCode(c), from)], [None] for [-1]. *)
Fixpoint indexOf (c : N) (s : jsstring) (from : nat) : option nat :=
  match s with
  | [] => None
  | x :: s' =>
      match from with
      | O => if x =? c then Some O else S <$> indexOf c s' O
      | S from' => S <$> indexOf c s' from'
      end
  end.

(** [s.substring(0, n)] *)
Definition substring0 (s : jsstring) (n : nat) : jsstring := take n s.

(** Decimal rendering of a non-negative integer, as template literals
    render [Date.now()]. *)
Definition decimal (n : N) : jsstring :=
  lit (NilZero.string_of_uint (N.to_uint n)).

(** [s.endsWith(pat)] *)
Definition endsWith (s pat : jsstring) : bool := startsWith (rev s) (rev pat).

(** [s.replace(/pat$/, '')] for a literal pattern: the pattern can only
    match at the very end of the string. *)
Definition removeSuffix (pat s : jsstring) : jsstring :=
  if endsWith s pat then take (length s - length pat) s else s.

End JS.
Import JS.

(* ===================================================================== *)
(** * electron/LLMHelper.ts : [analyzeAudioFromBase64], [cleanJsonResponse] *)
(* ===================================================================== *)

Module LLMHelper.

(** ** The world the method runs in *)

(** What one run of an external command did.  The commands of this
    pipeline (converter, transcription engine, HTTP client) only create or
    overwrite files; none of them removes one.  Their standard error is
    never read. *)
Record ProcessOutcome := {
  exit_ok : bool;                          (* [false]: [execAsync] rejects *)
  stdout : jsstring;
  writes : list (jsstring * jsstring);     (* path, contents; in order *)
  elapsed : N                              (* milliseconds *)
}.

(** Values [JSON.parse] can return. *)
Inductive json :=
| JNull
| JBool (b : bool)
| JNumber (x : float)
| JString (s : jsstring)
| JArray (l : list json)
| JObject (members : list (jsstring * json)).

(** The object handed to [JSON.stringify] before the inference request. *)
Record OllamaPayload := {
  model : jsstring;
  prompt : jsstring;
  stream : bool;
  temperature : float;
  num_predict : N;
  num_ctx : N;
  num_thread : N;
  seed : N
}.

(** Node's runtime and the installed external programs. *)
Record Runtime := {
  cwd : jsstring;                                   (* [process.cwd()] *)
  Buffer_from_base64 : jsstring -> jsstring;        (* decoded bytes *)
  JSON_stringify : OllamaPayload -> jsstring;
  JSON_parse : jsstring -> option json;             (* [None]: SyntaxError *)
  exec : jsstring -> gmap (list N) (list N) -> ProcessOutcome
}.

(** Files by path, the clock behind [Date.now()], the commands run so far,
    and the paths the process is not allowed to remove. *)
Record World := {
  fs : gmap (list N) (list N);
  clock : N;
  executed : list jsstring;
  locked : gset (list N)
}.

Inductive Error :=
| ExecError (cmd : jsstring)          (* rejected [execAsync] *)
| ConversionFailed                    (* Error("WAV conversion failed") *)
| AudioNotFound (p : jsstring)        (* Error("Audio file not found ...") *)
| ENOENT (p : jsstring)
| EPERM (p : jsstring)
| SyntaxError                         (* [JSON.parse] *)
| TypeError.                          (* property read on [null] *)

Inductive Result (A : Type) :=
| Ok (a : A)
| Throw (e : Error).
Arguments Ok {A} a.
Arguments Throw {A} e.

(** ** State-and-exception monad for [async] code that awaits every step *)

Definition M (A : Type) : Type := World -> Result A * World.

Definition ret {A} (a : A) : M A := fun w => (Ok a, w).
Definition throw {A} (e : Error) : M A := fun w => (Throw e, w).
Definition bind {A B} (m : M A) (k : A -> M B) : M B :=
  fun w => match m w with
           | (Ok a, w') => k a w'
           | (Throw e, w') => (Throw e, w')
           end.
Definition try_catch {A} (m : M A) (handler : Error -> M A) : M A :=
  fun w => match m w with
           | (Ok a, w') => (Ok a, w')
           | (Throw e, w') => handler e w'
           end.

Notation "'await' x <- m ; k" := (bind m (fun x => k))
  (at level 10, x name, m at level 100, k at level 200).
Notation "'await' ' pat <- m ; k" := (bind m (fun x => let 'pat := x in k))
  (at level 10, pat pattern, m at level 100, k at level 200).
Notation "'await_' m ; k" := (bind m (fun _ => k))
  (at level 10, m at level 100, k at level 200).

(** ** File system and process primitives *)

Definition Date_now : M N := fun w => (Ok (clock w), w).

Definition set_fs (f : gmap (list N) (list N)) (w : World) : World :=
  {| fs := f; clock := clock w; executed := executed w; locked := locked w |}.

Definition writeFile (p data : jsstring) : M unit :=
  fun w => (Ok tt, set_fs (<[p := data]> (fs w)) w).

Definition readFile (p : jsstring) : M jsstring :=
  fun w => match fs w !! p with
           | Some c => (Ok c, w)
           | None => (Throw (ENOENT p), w)
           end.

(** [fs.promises.stat(p)], of which only [size] is read. *)
Definition stat_size (p : jsstring) : M nat :=
  fun w => match fs w !! p with
           | Some c => (Ok (length c), w)
           | None => (Throw (ENOENT p), w)
           end.

Definition existsSync (p : jsstring) : M bool :=
  fun w => (Ok (bool_decide (is_Some (fs w !! p))), w).

Definition unlink (p : jsstring) : M unit :=
  fun w => match fs w !! p with
           | None => (Throw (ENOENT p), w)
           | Some _ =>
               if decide (p ∈ locked w) then (Throw (EPERM p), w)
               else (Ok tt, set_fs (delete p (fs w)) w)
           end.

(** [fs.promises.unlink(p).catch(() => {})]: the removal is started in
    program order and its failure is swallowed.  The method does not await
    it: the removal completes at some later time, which may be after the
    method has returned.  The model completes it at once, so the world a
    computation leaves is the world once the removals it started have
    completed; whether a file is already gone at the moment the method
    returns or throws is not something the model tells. *)
Definition unlink_quiet (p : jsstring) : M unit :=
  try_catch (unlink p) (fun _ => ret tt).

Definition apply_writes (ws : list (jsstring * jsstring))
    (f : gmap (list N) (list N)) : gmap (list N) (list N) :=
  fold_left (fun acc pc => <[pc.1 := pc.2]> acc) ws f.

Definition execAsync (rt : Runtime) (cmd : jsstring) : M jsstring :=
  fun w =>
    let o := exec rt cmd (fs w) in
    let w' := {| fs := apply_writes (writes o) (fs w);
                 clock := clock w + elapsed o;
                 executed := executed w ++ [cmd];
                 locked := locked w |} in
    if exit_ok o then (Ok (stdout o), w') else (Throw (ExecError cmd), w').

(** [path.join(a, b)] for a normalised path [a] and a plain name [b]: one
    separator between the two, none added after a path that ends with
    one, as the root does. *)
Definition path_join (a b : jsstring) : jsstring :=
  if endsWith a (lit "/") then a ++ b else a ++ lit "/" ++ b.

(** ** The method, stage by stage *)

Definition systemPrompt : jsstring :=
  lit "You are Wingman AI, a helpful, proactive assistant for any kind of problem or situation (not just coding). For any user input, analyze the situation, provide a clear problem statement, relevant context, and suggest several possible responses or actions the user could take next. Always explain your reasoning. Present your suggestions as a list of options or next steps.".

(** [mimeType.includes('webm') ? 'webm' : 'wav'] *)
Definition ext_of (mimeType : jsstring) : jsstring :=
  if includes mimeType (lit "webm") then lit "webm" else lit "wav".

Definition quoted (s : jsstring) : jsstring := [QUOTE] ++ s ++ [QUOTE].

Definition convertCmd (audioPath boostedWavPath : jsstring) : jsstring :=
  lit "ffmpeg -i " ++ quoted audioPath ++ lit " -af " ++
  quoted (lit "volume=3.0,highpass=f=200,lowpass=f=3000") ++
  lit " -ar 16000 -ac 1 -c:a pcm_s16le " ++ quoted boostedWavPath ++
  lit " -y".

Definition boostCmd (audioPath boostedWavPath : jsstring) : jsstring :=
  lit "ffmpeg -i " ++ quoted audioPath ++ lit " -af " ++
  quoted (lit "volume=3.0") ++ lit " " ++ quoted boostedWavPath ++
  lit " -y".

Definition simpleCmd (audioPath simpleWavPath : jsstring) : jsstring :=
  lit "ffmpeg -i " ++ quoted audioPath ++ lit " -ar 16000 -ac 1 " ++
  quoted simpleWavPath ++ lit " -y".

Definition whisperCommand (processPath : jsstring) : jsstring :=
  lit "./whisper.cpp/build/bin/whisper-cli -m ./whisper.cpp/models/ggml-tiny.en.bin -f " ++
  quoted processPath ++ lit " -t 8 --no-timestamps -l en".

Definition ollamaCommand (payloadPath : jsstring) : jsstring :=
  lit "curl -s http://localhost:11434/api/generate -d @" ++
  quoted payloadPath.

(** [audioPath.replace(`.${ext}`, suffix)] *)
Definition with_suffix (audioPath ext suffix : jsstring) : jsstring :=
  replaceFirst (lit "." ++ ext) suffix audioPath.

Definition boostedWavPath_of (audioPath ext : jsstring) : jsstring :=
  with_suffix audioPath ext (lit "_boosted.wav").
Definition simpleWavPath_of (audioPath ext : jsstring) : jsstring :=
  with_suffix audioPath ext (lit ".wav").
Definition transcriptionFile_of (audioPath ext : jsstring) : jsstring :=
  with_suffix audioPath ext (lit ".txt").

Definition tempDir (rt : Runtime) : jsstring := path_join (cwd rt) (lit "temp").

(** Lines 132-154: save the segment under [temp/audio_<now>.<ext>].
    The directory is created first (line 137).  Directories are not
    modelled: the temporary directory is taken to be creatable and
    writable, so that [mkdir] and [writeFile] succeed.  A run in which one
    of them rejects ends there with that error, before any command is
    run; such runs are outside the model.  The size is read for the log
    and for a warning only. *)
Definition saveAudio (rt : Runtime) (data mimeType : jsstring)
    : M (jsstring * jsstring) :=
  await _startTime <- Date_now;
  let ext := ext_of mimeType in
  await now <- Date_now;
  let audioPath :=
    path_join (tempDir rt) (lit "audio_" ++ decimal now ++ lit "." ++ ext) in
  await_ writeFile audioPath (Buffer_from_base64 rt data);
  await _size <- stat_size audioPath;
  ret (audioPath, ext).

(** Lines 162-191: the body of the outer [try], returning the new value of
    [processPath]. *)
Definition convertPrimary (rt : Runtime) (audioPath ext : jsstring)
    : M jsstring :=
  let boostedWavPath := boostedWavPath_of audioPath ext in
  if negb (bool_decide (ext = lit "wav")) then
    await_ execAsync rt (convertCmd audioPath boostedWavPath);
    await present <- existsSync boostedWavPath;
    if present then
      await _size <- stat_size boostedWavPath;
      ret boostedWavPath
    else throw ConversionFailed
  else
    await_ execAsync rt (boostCmd audioPath boostedWavPath);
    await present <- existsSync boostedWavPath;
    if present then ret boostedWavPath else ret audioPath.

(** Lines 195-204: the body of the inner [try].  [processPath] still holds
    [audioPath] when the handler is entered, because the outer body assigns
    it only on paths that do not throw afterwards. *)
Definition convertSimple (rt : Runtime) (audioPath ext : jsstring)
    : M jsstring :=
  let simpleWavPath := simpleWavPath_of audioPath ext in
  await_ execAsync rt (simpleCmd audioPath simpleWavPath);
  await present <- existsSync simpleWavPath;
  if present then ret simpleWavPath else ret audioPath.

(** Lines 157-214: conversion with its two fallbacks and the final check. *)
Definition convert (rt : Runtime) (audioPath ext : jsstring) : M jsstring :=
  await processPath <-
    try_catch (convertPrimary rt audioPath ext)
      (fun _e =>
         try_catch (convertSimple rt audioPath ext)
           (fun _e2 => ret audioPath));
  await present <- existsSync processPath;
  if negb present then throw (AudioNotFound processPath)
  else ret processPath.

(** Line 237: the lines of the engine's output that are kept. *)
Definition keep_line (line : jsstring) : bool :=
  negb (bool_decide (line = [])) &&
  negb (startsWith line [LBRACKET]) &&
  negb (includes line (lit "whisper_")) &&
  negb (includes line (lit "main:")).

(** Lines 229-242: the loop over [stdout.split('\n')]. *)
Definition parseStdout (out : jsstring) : jsstring :=
  if bool_decide (out = []) then []
  else
    trim (fold_left
            (fun transcription line =>
               if keep_line line then transcription ++ line ++ [SPACE]
               else transcription)
            (split LF out) []).

(** Lines 245-254: the sibling text file, when it can be read. *)
Definition readSidecar (audioPath ext transcription : jsstring)
    : M jsstring :=
  let transcriptionFile := transcriptionFile_of audioPath ext in
  try_catch
    (await fileContent <- readFile transcriptionFile;
     let transcription' :=
       if negb (bool_decide (fileContent = [])) then trim fileContent
       else transcription in
     await_ unlink_quiet transcriptionFile;
     ret transcription')
    (fun _e => ret transcription).

(** Lines 218-254. *)
Definition transcribe (rt : Runtime) (audioPath ext processPath : jsstring)
    : M jsstring :=
  await out <- execAsync rt (whisperCommand processPath);
  readSidecar audioPath ext (parseStdout out).

(** Lines 263-268. *)
Definition escapeTranscription (transcription : jsstring) : jsstring :=
  replaceAll TAB [BACKSLASH; 116]
    (replaceAll CR [BACKSLASH; 114]
      (replaceAll LF [BACKSLASH; 110]
        (replaceAll QUOTE [BACKSLASH; QUOTE]
          (replaceAll BACKSLASH [BACKSLASH; BACKSLASH] transcription)))).

(** Line 270. *)
Definition ollamaPrompt (transcription : jsstring) : jsstring :=
  systemPrompt ++ [LF; LF] ++ lit "Audio transcription: " ++
  quoted (escapeTranscription transcription) ++ [LF; LF] ++
  lit " Provide a suggestion to the users question.".

(** Lines 273-284. *)
Definition ollamaPayload (transcription : jsstring) : OllamaPayload :=
  {| model := lit "qwen2.5:0.5b";
     prompt := ollamaPrompt transcription;
     stream := false;
     temperature := 0.3%float;
     num_predict := 100;
     num_ctx := 512;
     num_thread := 8;
     seed := 42 |}.

(** [v.response]: [None] is [undefined]; reading a property of [null]
    throws. *)
Fixpoint get_member (key : jsstring) (members : list (jsstring * json))
    : option json :=
  match members with
  | [] => None
  | (k, v) :: rest =>
      match get_member key rest with
      | Some v' => Some v'                  (* a later duplicate wins *)
      | None => if bool_decide (k = key) then Some v else None
      end
  end.

Definition response_of (v : json) : M (option json) :=
  match v with
  | JNull => throw TypeError
  | JObject members => ret (get_member (lit "response") members)
  | _ => ret None
  end.

Record AudioResult := {
  text : option json;
  timestamp : N
}.

(** Lines 259-307. *)
Definition infer (rt : Runtime) (audioPath transcription : jsstring)
    : M AudioResult :=
  await now <- Date_now;
  let payloadPath :=
    path_join (tempDir rt)
      (lit "ollama_payload_" ++ decimal now ++ lit ".json") in
  await_ writeFile payloadPath (JSON_stringify rt (ollamaPayload transcription));
  await ollamaOutput <- execAsync rt (ollamaCommand payloadPath);
  match JSON_parse rt ollamaOutput with
  | None => throw SyntaxError
  | Some ollamaResponse =>
      await_ unlink_quiet payloadPath;
      await_ unlink_quiet audioPath;
      await txt <- response_of ollamaResponse;
      await stamp <- Date_now;
      ret {| text := txt; timestamp := stamp |}
  end.

(** Lines 130-313.  The outer [catch] logs and rethrows. *)
Definition analyzeAudioFromBase64 (rt : Runtime) (data mimeType : jsstring)
    : M AudioResult :=
  try_catch
    (await '(audioPath, ext) <- saveAudio rt data mimeType;
     await processPath <- convert rt audioPath ext;
     await transcription <- transcribe rt audioPath ext processPath;
     infer rt audioPath transcription)
    (fun error => throw error).

(** ** [cleanJsonResponse] (lines 28-34) *)

Definition FENCE : jsstring := lit "```".

(** [text.replace(/^```(?:json)?\n/, '')]: the fence is looked for at the
    very start of the text only, the optional word first. *)
Definition removeOpeningFence (text : jsstring) : jsstring :=
  if startsWith text (FENCE ++ lit "json" ++ [LF]) then
    drop (length (FENCE ++ lit "json" ++ [LF])) text
  else if startsWith text (FENCE ++ [LF]) then
    drop (length (FENCE ++ [LF])) text
  else text.

Definition cleanJsonResponse (text : jsstring) : jsstring :=
  let text := removeSuffix ([LF] ++ FENCE) (removeOpeningFence text) in
  trim text.

End LLMHelper.

(* ===================================================================== *)
(** * src/components/Queue/QueueCommands.tsx : capture session *)
(* ===================================================================== *)

Module QueueCommands.

(** ** Tunables (lines 69-72) *)

Definition SILENCE_DURATION_MS : float := 1500%float.
Definition CALIBRATION_MS : float := 800%float.
Definition MIN_THRESHOLD_RMS : float := 0.002%float.
Definition NOISE_MULTIPLIER : float := 2.0%float.

(** [Math.max] on two numbers: [NaN] if either is, and [+0] above [-0]. *)
Definition Math_max (a b : float) : float :=
  if PrimFloat.is_nan a || PrimFloat.is_nan b then PrimFloat.nan
  else if (a <? b)%float then b
  else if (b <? a)%float then a
  else if (1 / a <? 0)%float then b
  else a.

(** ** The browser's recorders *)

Inductive RecordingState := inactive | recording | paused.

#[global] Instance RecordingState_eq_dec : EqDecision RecordingState.
Proof. solve_decision. Defined.

(** A [MediaRecorder]: its [state] and the bytes gathered since the last
    [dataavailable]. *)
Record MediaRecorder := {
  state : RecordingState;
  gathered : list N
}.

(** Events a recorder has queued for the page; the page runs one handler
    at a time, in queue order. *)
Inductive Task :=
| FireStart (rec : nat)
| FireDataAvailable (rec : nat) (data : list N)
| FireStop (rec : nat).

Inductive MediaStream := Microphone.

(** ** The component's refs, the recorders it created, and what it did *)

Record Session := {
  mediaRecorderRef : option nat;        (* index into [recorders] *)
  chunks : list (list N);
  silenceStartRef : option float;
  isSpeakingRef : bool;
  noiseFloorRef : option float;
  stopInFlightRef : bool;
  sessionActiveRef : bool;
  streamRef : option MediaStream;
  meterRafRef : option float;           (* [startTs] of the scheduled loop *)
  recorders : list MediaRecorder;
  tasks : list Task;
  stopCalls : list nat;                 (* every [rec.stop()] issued *)
  dispatched : list (list N)            (* every blob sent for analysis *)
}.

Definition set_mediaRecorder (v : option nat) (s : Session) : Session :=
  {| mediaRecorderRef := v; chunks := chunks s;
     silenceStartRef := silenceStartRef s; isSpeakingRef := isSpeakingRef s;
     noiseFloorRef := noiseFloorRef s; stopInFlightRef := stopInFlightRef s;
     sessionActiveRef := sessionActiveRef s; streamRef := streamRef s;
     meterRafRef := meterRafRef s; recorders := recorders s;
     tasks := tasks s; stopCalls := stopCalls s;
     dispatched := dispatched s |}.

Definition set_chunks (v : list (list N)) (s : Session) : Session :=
  {| mediaRecorderRef := mediaRecorderRef s; chunks := v;
     silenceStartRef := silenceStartRef s; isSpeakingRef := isSpeakingRef s;
     noiseFloorRef := noiseFloorRef s; stopInFlightRef := stopInFlightRef s;
     sessionActiveRef := sessionActiveRef s; streamRef := streamRef s;
     meterRafRef := meterRafRef s; recorders := recorders s;
     tasks := tasks s; stopCalls := stopCalls s;
     dispatched := dispatched s |}.

Definition set_silenceStart (v : option float) (s : Session) : Session :=
  {| mediaRecorderRef := mediaRecorderRef s; chunks := chunks s;
     silenceStartRef := v; isSpeakingRef := isSpeakingRef s;
     noiseFloorRef := noiseFloorRef s; stopInFlightRef := stopInFlightRef s;
     sessionActiveRef := sessionActiveRef s; streamRef := streamRef s;
     meterRafRef := meterRafRef s; recorders := recorders s;
     tasks := tasks s; stopCalls := stopCalls s;
     dispatched := dispatched s |}.

Definition set_isSpeaking (v : bool) (s : Session) : Session :=
  {| mediaRecorderRef := mediaRecorderRef s; chunks := chunks s;
     silenceStartRef := silenceStartRef s; isSpeakingRef := v;
     noiseFloorRef := noiseFloorRef s; stopInFlightRef := stopInFlightRef s;
     sessionActiveRef := sessionActiveRef s; streamRef := streamRef s;
     meterRafRef := meterRafRef s; recorders := recorders s;
     tasks := tasks s; stopCalls := stopCalls s;
     dispatched := dispatched s |}.

Definition set_noiseFloor (v : option float) (s : Session) : Session :=
  {| mediaRecorderRef := mediaRecorderRef s; chunks := chunks s;
     silenceStartRef := silenceStartRef s; isSpeakingRef := isSpeakingRef s;
     noiseFloorRef := v; stopInFlightRef := stopInFlightRef s;
     sessionActiveRef := sessionActiveRef s; streamRef := streamRef s;
     meterRafRef := meterRafRef s; recorders := recorders s;
     tasks := tasks s; stopCalls := stopCalls s;
     dispatched := dispatched s |}.

Definition set_stopInFlight (v : bool) (s : Session) : Session :=
  {| mediaRecorderRef := mediaRecorderRef s; chunks := chunks s;
     silenceStartRef := silenceStartRef s; isSpeakingRef := isSpeakingRef s;
     noiseFloorRef := noiseFloorRef s; stopInFlightRef := v;
     sessionActiveRef := sessionActiveRef s; streamRef := streamRef s;
     meterRafRef := meterRafRef s; recorders := recorders s;
     tasks := tasks s; stopCalls := stopCalls s;
     dispatched := dispatched s |}.

Definition set_sessionActive (v : bool) (s : Session) : Session :=
  {| mediaRecorderRef := mediaRecorderRef s; chunks := chunks s;
     silenceStartRef := silenceStartRef s; isSpeakingRef := isSpeakingRef s;
     noiseFloorRef := noiseFloorRef s; stopInFlightRef := stopInFlightRef s;
     sessionActiveRef := v; streamRef := streamRef s;
     meterRafRef := meterRafRef s; recorders := recorders s;
     tasks := tasks s; stopCalls := stopCalls s;
     dispatched := dispatched s |}.

Definition set_stream (v : option MediaStream) (s : Session) : Session :=
  {| mediaRecorderRef := mediaRecorderRef s; chunks := chunks s;
     silenceStartRef := silenceStartRef s; isSpeakingRef := isSpeakingRef s;
     noiseFloorRef := noiseFloorRef s; stopInFlightRef := stopInFlightRef s;
     sessionActiveRef := sessionActiveRef s; streamRef := v;
     meterRafRef := meterRafRef s; recorders := recorders s;
     tasks := tasks s; stopCalls := stopCalls s;
     dispatched := dispatched s |}.

Definition set_meterRaf (v : option float) (s : Session) : Session :=
  {| mediaRecorderRef := mediaRecorderRef s; chunks := chunks s;
     silenceStartRef := silenceStartRef s; isSpeakingRef := isSpeakingRef s;
     noiseFloorRef := noiseFloorRef s; stopInFlightRef := stopInFlightRef s;
     sessionActiveRef := sessionActiveRef s; streamRef := streamRef s;
     meterRafRef := v; recorders := recorders s;
     tasks := tasks s; stopCalls := stopCalls s;
     dispatched := dispatched s |}.

Definition set_recorders (v : list MediaRecorder) (s : Session) : Session :=
  {| mediaRecorderRef := mediaRecorderRef s; chunks := chunks s;
     silenceStartRef := silenceStartRef s; isSpeakingRef := isSpeakingRef s;
     noiseFloorRef := noiseFloorRef s; stopInFlightRef := stopInFlightRef s;
     sessionActiveRef := sessionActiveRef s; streamRef := streamRef s;
     meterRafRef := meterRafRef s; recorders := v;
     tasks := tasks s; stopCalls := stopCalls s;
     dispatched := dispatched s |}.

Definition set_tasks (v : list Task) (s : Session) : Session :=
  {| mediaRecorderRef := mediaRecorderRef s; chunks := chunks s;
     silenceStartRef := silenceStartRef s; isSpeakingRef := isSpeakingRef s;
     noiseFloorRef := noiseFloorRef s; stopInFlightRef := stopInFlightRef s;
     sessionActiveRef := sessionActiveRef s; streamRef := streamRef s;
     meterRafRef := meterRafRef s; recorders := recorders s;
     tasks := v; stopCalls := stopCalls s;
     dispatched := dispatched s |}.

Definition set_stopCalls (v : list nat) (s : Session) : Session :=
  {| mediaRecorderRef := mediaRecorderRef s; chunks := chunks s;
     silenceStartRef := silenceStartRef s; isSpeakingRef := isSpeakingRef s;
     noiseFloorRef := noiseFloorRef s; stopInFlightRef := stopInFlightRef s;
     sessionActiveRef := sessionActiveRef s; streamRef := streamRef s;
     meterRafRef := meterRafRef s; recorders := recorders s;
     tasks := tasks s; stopCalls := v;
     dispatched := dispatched s |}.

Definition set_dispatched (v : list (list N)) (s : Session) : Session :=
  {| mediaRecorderRef := mediaRecorderRef s; chunks := chunks s;
     silenceStartRef := silenceStartRef s; isSpeakingRef := isSpeakingRef s;
     noiseFloorRef := noiseFloorRef s; stopInFlightRef := stopInFlightRef s;
     sessionActiveRef := sessionActiveRef s; streamRef := streamRef s;
     meterRafRef := meterRafRef s; recorders := recorders s;
     tasks := tasks s; stopCalls := stopCalls s;
     dispatched := v |}.

(** The refs of a freshly mounted component (lines 36-66). *)
Definition mounted : Session :=
  {| mediaRecorderRef := None; chunks := [];
     silenceStartRef := None; isSpeakingRef := false;
     noiseFloorRef := None; stopInFlightRef := false;
     sessionActiveRef := false; streamRef := None;
     meterRafRef := None; recorders := [];
     tasks := []; stopCalls := [];
     dispatched := [] |}.

(** ** MediaRecorder methods *)

(** [rec.state] *)
Definition state_of (rec : nat) (s : Session) : option RecordingState :=
  state <$> recorders s !! rec.

(** [rec.state === "recording"] for the recorder a ref holds. *)
Definition is_recording (ref : option nat) (s : Session) : bool :=
  match ref with
  | Some rec => bool_decide (state_of rec s = Some recording)
  | None => false
  end.

(** Lines 274-313: [new MediaRecorder(stream, ...)] gives a new, inactive
    recorder.  The three callbacks the function installs on it are
    [ondataavailable], [onstart] and [onstop] below; [deliver] runs them. *)
Definition createMediaRecorder (s : Session) : nat * Session :=
  (length (recorders s),
   set_recorders
     (recorders s ++ [{| state := inactive; gathered := [] |}]) s).

(** [rec.start(100)]: the recorder records at once and its [start] event is
    queued.  [None] stands for an exception: the one raised when the
    recorder is not inactive, and the one raised when the browser does not
    accept to record the stream ([accepts] is [false]), as it does for a
    stream that has no live track left. *)
Definition MediaRecorder_start (accepts : bool) (rec : nat) (s : Session)
    : option Session :=
  if accepts then
    match recorders s !! rec with
    | Some r =>
        match state r with
        | inactive =>
            Some
              (set_tasks (tasks s ++ [FireStart rec])
                 (set_recorders
                    (<[rec := {| state := recording; gathered := [] |}]>
                       (recorders s)) s))
        | _ => None
        end
    | None => None
    end
  else None.

(** [rec.stop()]: the recorder becomes inactive at once; the data gathered
    so far and then the [stop] event are queued.  [None] stands for the
    exception raised when the recorder is not active. *)
Definition MediaRecorder_stop (rec : nat) (s : Session) : option Session :=
  match recorders s !! rec with
  | Some r =>
      match state r with
      | inactive => None
      | _ =>
          Some
            (set_stopCalls (stopCalls s ++ [rec])
               (set_tasks
                  (tasks s ++ [FireDataAvailable rec (gathered r); FireStop rec])
                  (set_recorders
                     (<[rec := {| state := inactive; gathered := [] |}]>
                        (recorders s)) s)))
      end
  | None => None
  end.

(** ** Voice-activity tick (lines 229-268) *)

(** [now - startTs < CALIBRATION_MS] *)
Definition in_calibration (startTs now : float) : bool :=
  (now - startTs <? CALIBRATION_MS)%float.

(** Lines 234-239. *)
Definition calibrate (startTs rms now : float) (s : Session) : Session :=
  if in_calibration startTs now then
    set_noiseFloor
      (Some match noiseFloorRef s with
            | None => rms
            | Some floor => (floor * 0.9 + rms * 0.1)%float
            end) s
  else s.

(** Lines 241-242. *)
Definition threshold_of (s : Session) : float :=
  let noise := default 0.001%float (noiseFloorRef s) in
  Math_max MIN_THRESHOLD_RMS (noise * NOISE_MULTIPLIER)%float.

(** Lines 255-262: the guarded stop request.  [None]: [rec.stop()] threw,
    which nothing in [tick] catches. *)
Definition requestStop (s : Session) : option Session :=
  if negb (stopInFlightRef s) then
    match mediaRecorderRef s with
    | Some rec =>
        if bool_decide (state_of rec s = Some recording) then
          MediaRecorder_stop rec (set_stopInFlight true s)
        else Some s
    | None => Some s
    end
  else Some s.

(** One animation frame: [rms] is the analyser's value, [now] is
    [performance.now()].  The callback runs only while the loop is
    scheduled.  The volume bars it also sets are display state and are
    left out. *)
Definition tick (rms now : float) (s : Session) : Session :=
  match meterRafRef s with
  | None => s
  | Some startTs =>
      let s := calibrate startTs rms now s in
      let threshold := threshold_of s in
      if (threshold <? rms)%float then
        set_silenceStart None (set_isSpeaking true s)
      else if isSpeakingRef s then
        match silenceStartRef s with
        | None => set_silenceStart (Some now) s
        | Some since =>
            if (SILENCE_DURATION_MS <=? now - since)%float then
              match requestStop s with
              | Some s' => set_isSpeaking false (set_silenceStart None s')
              | None =>
                  (* uncaught exception: the frame is not rescheduled *)
                  set_meterRaf None (set_stopInFlight true s)
              end
            else s
        end
      else s
  end.

(** ** The callbacks of a recorder (lines 277-310) *)

Definition ondataavailable (data : list N) (s : Session) : Session :=
  if (0 <? length data)%nat then set_chunks (chunks s ++ [data]) s else s.

Definition onstart (s : Session) : Session :=
  set_silenceStart None (set_isSpeaking false (set_stopInFlight false s)).

(** Lines 190-219.  The blob built from the chunks is handed to the file
    reader, whose completion calls the analysis pipeline with it; the
    buffer is emptied before the function returns. *)
Definition sendAudioForAnalysis (s : Session) : Session :=
  if (length (chunks s) =? 0)%nat then s
  else
    set_chunks []
      (set_dispatched (dispatched s ++ [concat (chunks s)]) s).

(** Lines 289-293: the [try] block. *)
Definition onstop_try (s : Session) : Session :=
  if (0 <? length (chunks s))%nat then sendAudioForAnalysis s else s.

(** Lines 294-309: the [finally] block.  It runs in the same turn of the
    event loop as the [try] block, so no other handler comes between.
    [accepts]: whether the browser accepts to start the replacement.  When
    it does not, the exception is caught and logged (lines 302-304): the
    recorder just created is left inactive, and neither the current
    recorder nor the guard is touched.  (When the constructor itself
    throws, no recorder is created; the refs are left the same.) *)
Definition onstop_finally (accepts : bool) (s : Session) : Session :=
  if sessionActiveRef s && bool_decide (is_Some (streamRef s)) then
    let s := set_chunks [] s in
    let '(newRecorder, s) := createMediaRecorder s in
    match MediaRecorder_start accepts newRecorder s with
    | Some s' => set_mediaRecorder (Some newRecorder) s'
    | None => s                                         (* catch: logged *)
    end
  else set_mediaRecorder None s.

Definition onstop (accepts : bool) (s : Session) : Session :=
  onstop_finally accepts (onstop_try s).

(** ** Session control (lines 315-415) *)

(** Lines 321-347, once the microphone stream is granted, in a browser
    that accepts to record the stream it has just granted; [now] is
    [performance.now()].  An exception from [start] is caught at the end of
    the function, after which the session is not active. *)
Definition startRecording (now : float) (s : Session) : Session :=
  let s := set_stream (Some Microphone) s in
  let s := set_stopInFlight false s in
  let s := set_chunks [] s in
  let '(recorder, s) := createMediaRecorder s in
  match MediaRecorder_start true recorder s with
  | Some s =>
      let s := set_mediaRecorder (Some recorder) s in
      let s := set_noiseFloor None s in
      let s := set_meterRaf (Some now) s in
      set_sessionActive true s
  | None => s
  end.

(** Lines 355-388. *)
Definition stopRecording (s : Session) : Session :=
  let s := set_sessionActive false s in
  let s := set_meterRaf None s in
  let s :=
    match mediaRecorderRef s with
    | Some rec =>
        if negb (bool_decide (state_of rec s = Some inactive)) then
          match MediaRecorder_stop rec s with
          | Some s' => s'
          | None => s                                   (* catch {} *)
          end
        else s
    | None => s
    end in
  let s := set_stream None s in
  let s := set_mediaRecorder None s in
  let s := set_stopInFlight false s in
  let s := set_isSpeaking false s in
  set_silenceStart None s.

(** Lines 403-415. *)
Definition handleManualFlush (s : Session) : Session :=
  match mediaRecorderRef s with
  | None => s
  | Some rec =>
      if negb (bool_decide (state_of rec s = Some recording)) then s
      else if stopInFlightRef s then s
      else
        let s := set_stopInFlight true s in
        match MediaRecorder_stop rec s with
        | Some s' => s'
        | None => set_stopInFlight false s              (* catch *)
        end
  end.

(** ** The event loop of one session *)

(** What can happen once a session has been started.  Starting a session
    is not among the inputs: [startRecording] is applied to the state the
    component is in, whatever the previous session has left there. *)

Inductive Input :=
| Tick (rms now : float)          (* an animation frame *)
| ManualFlush                     (* click on Send *)
| StopClick                       (* record button again *)
| Capture (bytes : list N)        (* the microphone delivers audio *)
| Timeslice (rec : nat)           (* the 100 ms timer of a recorder *)
| Deliver                         (* the next queued recorder event runs *)
| DeliverRefused.                 (* the same, in a browser that refuses to
                                     start a recorder during the callback *)

(** Every recording recorder gathers what the shared stream delivers. *)
Definition capture (bytes : list N) (s : Session) : Session :=
  set_recorders
    ((fun r => match state r with
               | recording =>
                   {| state := recording; gathered := gathered r ++ bytes |}
               | _ => r
               end) <$> recorders s) s.

Definition timeslice (rec : nat) (s : Session) : Session :=
  match recorders s !! rec with
  | Some r =>
      match state r with
      | recording =>
          set_tasks (tasks s ++ [FireDataAvailable rec (gathered r)])
            (set_recorders
               (<[rec := {| state := recording; gathered := [] |}]>
                  (recorders s)) s)
      | _ => s
      end
  | None => s
  end.

Definition deliver (accepts : bool) (s : Session) : Session :=
  match tasks s with
  | [] => s
  | t :: rest =>
      let s := set_tasks rest s in
      match t with
      | FireStart _ => onstart s
      | FireDataAvailable _ data => ondataavailable data s
      | FireStop _ => onstop accepts s
      end
  end.

Definition step (i : Input) (s : Session) : Session :=
  match i with
  | Tick rms now => tick rms now s
  | ManualFlush => handleManualFlush s
  | StopClick => stopRecording s
  | Capture bytes => capture bytes s
  | Timeslice rec => timeslice rec s
  | Deliver => deliver true s
  | DeliverRefused => deliver false s
  end.

Definition run (inputs : list Input) (s : Session) : Session :=
  fold_left (fun s i => step i s) inputs s.

(** ** Progressive reveal (lines 104-188) *)

Record LiveTranscriptionState := {
  fullText : jsstring;
  displayedText : jsstring;
  currentIndex : nat;
  messageId : N
}.

(** Lines 151-156. *)
Definition charsToAdd_of (remainingChars : nat) : nat :=
  if (100 <? remainingChars)%nat then 3%nat
  else if (50 <? remainingChars)%nat then 2%nat
  else 1%nat.

(** Lines 159-170. *)
Definition adjustedIndex_of (fullText : jsstring) (currentIndex : nat) : nat :=
  let remainingChars := (length fullText - currentIndex)%nat in
  let charsToAdd := charsToAdd_of remainingChars in
  let nextIndex := Nat.min (currentIndex + charsToAdd) (length fullText) in
  let nextChar := fullText !! nextIndex in
  let currentChar := fullText !! (currentIndex + charsToAdd - 1)%nat in
  match nextChar with
  | Some c =>
      if negb (c =? SPACE) && negb (bool_decide (currentChar = Some SPACE))
      then
        match indexOf SPACE fullText nextIndex with
        | Some spaceIndex =>
            if (spaceIndex - nextIndex <? 10)%nat then spaceIndex
            else nextIndex
        | None => nextIndex
        end
      else nextIndex
  | None => nextIndex
  end.

(** Lines 128-177: the state updater of one animation step.  The second
    component is the answer appended to the transcript on completion. *)
Definition animateText_update (id : N) (prev : option LiveTranscriptionState)
    : option LiveTranscriptionState * option jsstring :=
  match prev with
  | None => (None, None)
  | Some live =>
      if negb (messageId live =? id) then (prev, None)
      else if (length (fullText live) <=? currentIndex live)%nat then
        (None, Some (fullText live))
      else
        let adjustedIndex :=
          adjustedIndex_of (fullText live) (currentIndex live) in
        (Some {| fullText := fullText live;
                 displayedText := substring0 (fullText live) adjustedIndex;
                 currentIndex := adjustedIndex;
                 messageId := messageId live |}, None)
  end.

(** Lines 117-124. *)
Definition liveState_of (text : jsstring) (id : N) : LiveTranscriptionState :=
  {| fullText := text; displayedText := []; currentIndex := 0;
     messageId := id |}.

(** The texts shown by the first [n] animation steps of a reveal that is
    not superseded. *)
Fixpoint frames (n : nat) (id : N) (live : option LiveTranscriptionState)
    : list jsstring :=
  match n with
  | O => []
  | S n' =>
      match animateText_update id live with
      | (Some live', _) => displayedText live' :: frames n' id (Some live')
      | (None, _) => []
      end
  end.

(** All the texts a reveal of [text] shows: it needs at most one step per
    code unit, and one more to complete. *)
Definition simulateLiveTranscription (text : jsstring) (id : N)
    : list jsstring :=
  frames (S (length text)) id (Some (liveState_of text id)).

(** ** The transcript (lines 13-17, 127-177, 417-435) *)

Inductive EntryType := question | answer | live | interviewer | system.

(** An entry of the transcript.  Its time stamp, the wall-clock time
    formatted for display, is left out. *)
Record TranscriptEntry := {
  type : EntryType;
  text : jsstring
}.

(** The first [n] runs of [animateText] in a reveal with identifier [id]:
    the live state they leave, and the transcript with the entry appended
    on completion.  The callback reschedules itself after every run. *)
Fixpoint animateText (n : nat) (id : N) (live : option LiveTranscriptionState)
    (transcript : list TranscriptEntry)
    : option LiveTranscriptionState * list TranscriptEntry :=
  match n with
  | O => (live, transcript)
  | S n' =>
      let '(live', completed) := animateText_update id live in
      animateText n' id live'
        match completed with
        | Some fullText => transcript ++ [{| type := answer; text := fullText |}]
        | None => transcript
        end
  end.

(** The chat box: the text typed, the transcript, and the texts whose
    reveal a timer will start. *)
Record Chat := {
  messageInput : jsstring;
  transcript : list TranscriptEntry;
  timeouts : list jsstring
}.

(** Lines 417-435. *)
Definition handleSendMessage (c : Chat) : Chat :=
  if negb (bool_decide (trim (messageInput c) = [])) then
    {| messageInput := [];
       transcript :=
         transcript c ++ [{| type := question; text := messageInput c |}];
       timeouts :=
         timeouts c ++
         [lit "I understand your message. Let me help you with that."] |}
  else c.

End QueueCommands.

(* ===================================================================== *)
(** * Reference definitions used to state the properties *)
(* ===================================================================== *)

Module Spec.

(** The escaped form of one code unit, each unit looked at once. *)
Definition escape_unit (c : N) : jsstring :=
  if c =? BACKSLASH then [BACKSLASH; BACKSLASH]
  else if c =? QUOTE then [BACKSLASH; QUOTE]
  else if c =? LF then [BACKSLASH; 110]
  else if c =? CR then [BACKSLASH; 114]
  else if c =? TAB then [BACKSLASH; 116]
  else [c].

Definition is_space (c : N) : bool := c =? SPACE.

(** A cut at [cut] lands inside a word: the units on both sides of it exist
    and neither of them is a separator. *)
Definition mid_word (is_sep : N -> bool) (text : jsstring) (cut : nat) : bool :=
  match cut with
  | O => false
  | S before =>
      match text !! before, text !! cut with
      | Some a, Some b => negb (is_sep a) && negb (is_sep b)
      | _, _ => false
      end
  end.

(** A separator occurs among the [n] units that follow the cut. *)
Definition sep_within (is_sep : N -> bool) (text : jsstring) (cut n : nat)
    : bool :=
  existsb is_sep (take n (drop cut text)).

(** What the reveal promises of a text it shows: it is a prefix of the
    response, and it ends inside a word only when no separator follows
    within ten units. *)
Definition keeps_words (is_sep : N -> bool) (text frame : jsstring) : Prop :=
  frame `prefix_of` text /\
  (mid_word is_sep text (length frame) = true ->
   sep_within is_sep text (length frame) 10 = false).

(** The cut positions of the first [n] animation steps from [cur]. *)
Fixpoint cuts (n : nat) (text : jsstring) (cur : nat) : list nat :=
  match n with
  | O => []
  | S n' =>
      if (length text <=? cur)%nat then []
      else
        let next := QueueCommands.adjustedIndex_of text cur in
        next :: cuts n' text next
  end.

(** ** Names for the voice-activity properties *)

(** The tick with this reading is above the threshold in force when it
    runs, that is, after the tick's own calibration update. *)
Definition above_threshold (rms now : float) (s : QueueCommands.Session)
    : bool :=
  match QueueCommands.meterRafRef s with
  | Some startTs =>
      (QueueCommands.threshold_of (QueueCommands.calibrate startTs rms now s)
       <? rms)%float
  | None => false
  end.

Definition run_ticks (ticks : list (float * float))
    (s : QueueCommands.Session) : QueueCommands.Session :=
  fold_left (fun s t => QueueCommands.tick t.1 t.2 s) ticks s.

(** Every tick of the run is at or below the threshold when it runs. *)
Fixpoint quiet_run (s : QueueCommands.Session) (ticks : list (float * float))
    : Prop :=
  match ticks with
  | [] => True
  | t :: rest =>
      above_threshold t.1 t.2 s = false /\
      quiet_run (QueueCommands.tick t.1 t.2 s) rest
  end.

(** The noise floor after one more sample. *)
Definition smoothed (floor : option float) (rms : float) : float :=
  match floor with
  | None => rms
  | Some old => (old * 0.9 + rms * 0.1)%float
  end.

(** An input that cannot calibrate: anything but a tick inside the
    calibration window that started at [startTs]. *)
Definition outside_window (startTs : float) (i : QueueCommands.Input) : Prop :=
  match i with
  | QueueCommands.Tick _ now => QueueCommands.in_calibration startTs now = false
  | _ => True
  end.

(** ** Names for the recording-session properties *)

(** A recorder that has been stopped: inactive, nothing gathered. *)
Definition idle (r : QueueCommands.MediaRecorder) : Prop :=
  r = {| QueueCommands.state := QueueCommands.inactive;
         QueueCommands.gathered := [] |}.

(** The [stop] events still queued. *)
Fixpoint stops_pending (tasks : list QueueCommands.Task) : nat :=
  match tasks with
  | [] => 0%nat
  | QueueCommands.FireStop _ :: rest => S (stops_pending rest)
  | _ :: rest => stops_pending rest
  end.

(** The blobs of the [dataavailable] events still queued, in order. *)
Definition queued_data (tasks : list QueueCommands.Task) : list (list N) :=
  omap (fun t => match t with
                 | QueueCommands.FireDataAvailable _ data => Some data
                 | _ => None
                 end) tasks.

(** All the audio the session holds or has sent, oldest first: what was
    dispatched, the chunk buffer, the blobs on their way to it, and what the
    recorders have gathered but not yet delivered. *)
Definition audio_held (s : QueueCommands.Session) : list N :=
  concat (QueueCommands.dispatched s) ++
  concat (QueueCommands.chunks s) ++
  concat (queued_data (QueueCommands.tasks s)) ++
  concat (QueueCommands.gathered <$> QueueCommands.recorders s).

Definition someone_recording (s : QueueCommands.Session) : bool :=
  existsb (fun r => bool_decide (QueueCommands.state r = QueueCommands.recording))
    (QueueCommands.recorders s).

(** The audio an input adds to the session: what the microphone delivers
    while a recorder records. *)
Definition heard (i : QueueCommands.Input) (s : QueueCommands.Session)
    : list N :=
  match i with
  | QueueCommands.Capture bytes => if someone_recording s then bytes else []
  | _ => []
  end.

(** The audio heard along a sequence of inputs. *)
Fixpoint heard_run (inputs : list QueueCommands.Input)
    (s : QueueCommands.Session) : list N :=
  match inputs with
  | [] => []
  | i :: rest => heard i s ++ heard_run rest (QueueCommands.step i s)
  end.

(** Recorders follow one another: at most one [stop] event is queued; and
    either every recorder is idle, or the current recorder is the only one
    that is not, it records, and no [stop] event is queued.  An active
    session holds its stream. *)
Definition serialized (s : QueueCommands.Session) : Prop :=
  (stops_pending (QueueCommands.tasks s) <= 1)%nat /\
  (QueueCommands.sessionActiveRef s = true ->
   QueueCommands.streamRef s = Some QueueCommands.Microphone) /\
  (Forall idle (QueueCommands.recorders s) \/
   exists rec r,
     QueueCommands.mediaRecorderRef s = Some rec /\
     QueueCommands.recorders s !! rec = Some r /\
     QueueCommands.state r = QueueCommands.recording /\
     Forall idle (take rec (QueueCommands.recorders s)) /\
     Forall idle (drop (S rec) (QueueCommands.recorders s)) /\
     stops_pending (QueueCommands.tasks s) = 0%nat).

(** A component between sessions: no recorder event is queued and every
    recorder it created has been stopped.  A freshly mounted component is in
    this state, and so is one whose previous session has ended and whose
    queued events have all run. *)
Definition settled (s : QueueCommands.Session) : Prop :=
  QueueCommands.tasks s = [] /\ Forall idle (QueueCommands.recorders s).

(** Two states that differ at most in the voice-activity flags and in the
    log of stop calls. *)
Definition same_devices (s s' : QueueCommands.Session) : Prop :=
  QueueCommands.mediaRecorderRef s' = QueueCommands.mediaRecorderRef s /\
  QueueCommands.chunks s' = QueueCommands.chunks s /\
  QueueCommands.sessionActiveRef s' = QueueCommands.sessionActiveRef s /\
  QueueCommands.streamRef s' = QueueCommands.streamRef s /\
  QueueCommands.recorders s' = QueueCommands.recorders s /\
  QueueCommands.tasks s' = QueueCommands.tasks s /\
  QueueCommands.dispatched s' = QueueCommands.dispatched s.

(** A tick and a flush either leave the recorders alone or stop the current
    one. *)
Definition stops_or_keeps (s s' : QueueCommands.Session) : Prop :=
  same_devices s s' \/
  exists rec s1 s2,
    QueueCommands.mediaRecorderRef s = Some rec /\
    same_devices s s1 /\
    QueueCommands.MediaRecorder_stop rec s1 = Some s2 /\
    same_devices s2 s'.

(** ** Names for the pipeline properties *)

(** A computation only adds to the list of commands run. *)
Definition logs {A} (m : LLMHelper.M A) : Prop :=
  forall w, exists rest,
    LLMHelper.executed (m w).2 = LLMHelper.executed w ++ rest.


(** Where [saveAudio] stores the segment when started in world [w]. *)
Definition audioPath_at (rt : LLMHelper.Runtime) (mimeType : jsstring)
    (w : LLMHelper.World) : jsstring :=
  LLMHelper.path_join (LLMHelper.tempDir rt)
    (lit "audio_" ++ decimal (LLMHelper.clock w) ++ lit "." ++
     LLMHelper.ext_of mimeType).

(** Where [infer] stores the request when started in world [w]. *)
Definition payloadPath_at (rt : LLMHelper.Runtime) (w : LLMHelper.World)
    : jsstring :=
  LLMHelper.path_join (LLMHelper.tempDir rt)
    (lit "ollama_payload_" ++ decimal (LLMHelper.clock w) ++ lit ".json").

(** The world a computation leaves behind. *)
Definition world_after {A} (m : LLMHelper.M A) (w : LLMHelper.World)
    : LLMHelper.World :=
  (m w).2.

(** A conversion attempt failed: the command was rejected, or it left no
    output file. *)
Definition attempt_failed (rt : LLMHelper.Runtime) (cmd out : jsstring)
    (w : LLMHelper.World) : Prop :=
  LLMHelper.exit_ok (LLMHelper.exec rt cmd (LLMHelper.fs w)) = false \/
  LLMHelper.fs (world_after (LLMHelper.execAsync rt cmd) w) !! out = None.

(** The rest of the method once [processPath] is settled: transcription of
    that file, then inference. *)
Definition continue_with (rt : LLMHelper.Runtime)
    (audioPath ext processPath : jsstring) : LLMHelper.M LLMHelper.AudioResult :=
  LLMHelper.bind (LLMHelper.transcribe rt audioPath ext processPath)
    (fun transcription => LLMHelper.infer rt audioPath transcription).

(** The method up to the point where the engine is started: the saved
    file, its extension, and the file chosen for the engine. *)
Definition prepare (rt : LLMHelper.Runtime) (data mimeType : jsstring)
    : LLMHelper.M (jsstring * jsstring * jsstring) :=
  LLMHelper.bind (LLMHelper.saveAudio rt data mimeType)
    (fun saved =>
       LLMHelper.bind (LLMHelper.convert rt saved.1 saved.2)
         (fun processPath => LLMHelper.ret (saved.1, saved.2, processPath))).

(** [v.response] where it does not throw. *)
Definition response_member (v : LLMHelper.json) : option LLMHelper.json :=
  match v with
  | LLMHelper.JObject members => LLMHelper.get_member (lit "response") members
  | _ => None
  end.

(** A line of engine output that is a log line rather than transcript. *)
Definition log_line (line : jsstring) : bool :=
  startsWith line [LBRACKET] ||
  includes line (lit "whisper_") ||
  includes line (lit "main:").

(** The transcript read off the engine's output: the lines that are neither
    empty nor log lines, each followed by a space, trimmed at both ends. *)
Definition transcript_of_stdout (out : jsstring) : jsstring :=
  trim (concat (map (fun line => line ++ [SPACE])
                  (filter (fun line => negb (bool_decide (line = [])) &&
                                        negb (log_line line))
                          (split LF out)))).

(** [p] with its last extension replaced by [.txt]: the text file that
    shares the base name of [p]. *)
Fixpoint strip_extension (p : jsstring) : jsstring :=
  match p with
  | [] => []
  | c :: p' =>
      if (c =? 46) && negb (existsb (fun x => (x =? 46) || (x =? 47)) p')
      then []
      else c :: strip_extension p'
  end.

Definition sibling_txt (p : jsstring) : jsstring :=
  strip_extension p ++ lit ".txt".

(** The reading of the sidecar rule in which the text file is the sibling
    of the file handed to the engine. *)
Definition prefers_sibling_of_transcribed (rt : LLMHelper.Runtime)
    (audioPath ext processPath : jsstring) (w : LLMHelper.World) : Prop :=
  forall c : jsstring,
    LLMHelper.fs
      (world_after
         (LLMHelper.execAsync rt (LLMHelper.whisperCommand processPath)) w)
      !! sibling_txt processPath = Some c ->
    c <> [] ->
    (LLMHelper.transcribe rt audioPath ext processPath w).1 =
    LLMHelper.Ok (trim c).

(** ** Names for the properties of a whole session *)

(** The silence timer is set only while speech is in progress. *)
Definition timer_only_while_speaking (s : QueueCommands.Session) : Prop :=
  is_Some (QueueCommands.silenceStartRef s) ->
  QueueCommands.isSpeakingRef s = true.

(** The current recorder has been stopped: it is inactive, and what it had
    gathered and its [stop] event are at the end of the queue. *)
Definition recorder_stopped (s s' : QueueCommands.Session) : Prop :=
  exists rec r,
    QueueCommands.mediaRecorderRef s = Some rec /\
    QueueCommands.recorders s !! rec = Some r /\
    QueueCommands.state r <> QueueCommands.inactive /\
    QueueCommands.recorders s' =
      (<[rec := {| QueueCommands.state := QueueCommands.inactive;
                   QueueCommands.gathered := [] |}]>
         (QueueCommands.recorders s)) /\
    QueueCommands.tasks s' =
      QueueCommands.tasks s ++
      [QueueCommands.FireDataAvailable rec (QueueCommands.gathered r);
       QueueCommands.FireStop rec].

Definition recorders_untouched (s s' : QueueCommands.Session) : Prop :=
  QueueCommands.recorders s' = QueueCommands.recorders s /\
  QueueCommands.tasks s' = QueueCommands.tasks s.

(** An event whose callback leads to the guard being cleared: [start]
    clears it, and [stop] starts the replacement recorder. *)
Definition clears_guard (t : QueueCommands.Task) : bool :=
  match t with
  | QueueCommands.FireStart _ | QueueCommands.FireStop _ => true
  | QueueCommands.FireDataAvailable _ _ => false
  end.

(** The loop and the current recorder exist only in an active session, and
    while a stop is in flight the session is active and an event that
    leads to the guard being cleared is queued. *)
Definition guard_covered (s : QueueCommands.Session) : Prop :=
  (is_Some (QueueCommands.meterRafRef s) ->
   QueueCommands.sessionActiveRef s = true) /\
  (is_Some (QueueCommands.mediaRecorderRef s) ->
   QueueCommands.sessionActiveRef s = true) /\
  (QueueCommands.stopInFlightRef s = true ->
   QueueCommands.sessionActiveRef s = true /\
   existsb clears_guard (QueueCommands.tasks s) = true).

(** A session in which the guard is set while no event is queued and no
    recorder is active. *)
Definition guard_stuck (s : QueueCommands.Session) : Prop :=
  QueueCommands.stopInFlightRef s = true /\
  QueueCommands.tasks s = [] /\
  Forall idle (QueueCommands.recorders s).

(** How many more deliveries empty the queue, at most. *)
Definition deliveries_left (s : QueueCommands.Session) : nat :=
  (length (QueueCommands.tasks s) + stops_pending (QueueCommands.tasks s))%nat.

(** A queued [stop] event is the last event of the queue. *)
Definition stop_is_last (s : QueueCommands.Session) : Prop :=
  stops_pending (QueueCommands.tasks s) = 0%nat \/
  exists before rec,
    QueueCommands.tasks s = before ++ [QueueCommands.FireStop rec] /\
    stops_pending before = 0%nat.

(** Audio waits in the chunk buffer or in the queue only while a recorder
    records or a [stop] event is queued. *)
Definition audio_awaits_stop (s : QueueCommands.Session) : Prop :=
  QueueCommands.chunks s <> [] \/ queued_data (QueueCommands.tasks s) <> [] ->
  someone_recording s = true \/
  (0 < stops_pending (QueueCommands.tasks s))%nat.

(** The first conversion command: the filtered conversion for a segment
    that is not WAV, the volume boost for one that is. *)
Definition primary_command (audioPath ext : jsstring) : jsstring :=
  if bool_decide (ext = lit "wav")
  then LLMHelper.boostCmd audioPath (LLMHelper.boostedWavPath_of audioPath ext)
  else LLMHelper.convertCmd audioPath (LLMHelper.boostedWavPath_of audioPath ext).

(** A computation removes no file at path [p]. *)
Definition keeps {A} (p : jsstring) (m : LLMHelper.M A) : Prop :=
  forall w, is_Some (LLMHelper.fs w !! p) ->
            is_Some (LLMHelper.fs (m w).2 !! p).

(** The name of a request file written at time [now]. *)
Definition payloadPath_written (rt : LLMHelper.Runtime) (now : N) : jsstring :=
  LLMHelper.path_join (LLMHelper.tempDir rt)
    (lit "ollama_payload_" ++ decimal now ++ lit ".json").

(** ** Reading an escaped transcript back *)

(** The unit a backslash followed by [x] stands for. *)
Definition unescape_unit (x : N) : N :=
  if x =? 110 then LF
  else if x =? 114 then CR
  else if x =? 116 then TAB
  else x.

(** The reader of the escaped form: a backslash and the unit after it
    stand for one unit, any other unit for itself. *)
Fixpoint unescape (s : jsstring) : jsstring :=
  match s with
  | [] => []
  | c :: rest =>
      if c =? BACKSLASH then
        match rest with
        | x :: rest' => unescape_unit x :: unescape rest'
        | [] => [c]
        end
      else c :: unescape rest
  end.

End Spec.


(* ===================================================================== *)
(** * Concrete machines and inputs for the scenarios *)
(* ===================================================================== *)

Module Scenario.
Import LLMHelper.

Definition outcome (ok : bool) (out : jsstring)
    (files : list (jsstring * jsstring)) : ProcessOutcome :=
  {| exit_ok := ok; stdout := out; writes := files; elapsed := 5 |}.

(** Programs that behave as scripted, whatever the files: the filtered and
    the plain converter call, the transcription engine, the HTTP client. *)
Definition scripted (ffmpeg_filtered ffmpeg_plain whisper curl : ProcessOutcome)
    (cmd : jsstring) (_ : gmap (list N) (list N)) : ProcessOutcome :=
  if startsWith cmd (lit "ffmpeg") then
    if includes cmd (lit " -af ") then ffmpeg_filtered else ffmpeg_plain
  else if startsWith cmd (lit "./whisper.cpp") then whisper
  else curl.

(** A machine started in [/app]; its stand-in for the JSON library writes
    the prompt alone and reads any server output as an object whose
    [response] member is that output. *)
Definition machine
    (programs : jsstring -> gmap (list N) (list N) -> ProcessOutcome)
    : Runtime :=
  {| cwd := lit "/app";
     Buffer_from_base64 := fun data => data;
     JSON_stringify := prompt;
     JSON_parse := fun s => Some (JObject [(lit "response", JString s)]);
     exec := programs |}.

(** The segment of the scenarios, as the renderer sends it. *)
Definition segment : jsstring := lit "UklGRg==".
Definition webm : jsstring := lit "audio/webm".

Definition saved_audio : jsstring := lit "/app/temp/audio_0.webm".
Definition converted_audio : jsstring := lit "/app/temp/audio_0_boosted.wav".

(** The transcript of the escaping scenario: He said, then hi between
    double quotes, then a line feed. *)
Definition he_said_hi : jsstring :=
  lit "He said " ++ [QUOTE] ++ lit "hi" ++ [QUOTE; LF].

(** The sample response of the reveal scenario. *)
Definition hello_world_testing : jsstring := lit "hello world testing".

(** A response whose two words are separated by a line feed. *)
Definition hi_newline_you : jsstring := lit "hi" ++ [LF] ++ lit "you".

Definition fresh : World :=
  {| fs := ∅; clock := 0; executed := []; locked := ∅ |}.

Definition rejected : ProcessOutcome := outcome false [] [].

(** No converter installed; the engine hears [hello]. *)
Definition without_ffmpeg : Runtime :=
  machine (scripted rejected rejected
             (outcome true (lit "hello") [])
             (outcome true (lit "answer") [])).

(** A working converter; an engine that prints log lines and one line of
    speech, and leaves a text file next to the saved audio; a server that
    answers. *)
Definition engine_with_sidecar : ProcessOutcome :=
  outcome true
    (lit "whisper_init_from_file: loading model" ++ [LF] ++
     lit "[00:00.000 --> 00:02.000]  spoken aloud" ++ [LF] ++
     lit " spoken aloud" ++ [LF])
    [(lit "/app/temp/audio_0.txt", lit " written beside the saved file " ++ [LF])].

Definition healthy : Runtime :=
  machine (scripted
             (outcome true [] [(lit "/app/temp/audio_0_boosted.wav", lit "RIFF")])
             rejected
             engine_with_sidecar
             (outcome true (lit "answer") [])).

(** The same machine with an engine that only leaves a text file next to
    the converted audio. *)
Definition engine_with_converted_sidecar : ProcessOutcome :=
  outcome true (lit " spoken aloud" ++ [LF])
    [(lit "/app/temp/audio_0_boosted.txt", lit "written beside the converted file")].

Definition converted_sidecar_only : Runtime :=
  machine (scripted
             (outcome true [] [(lit "/app/temp/audio_0_boosted.wav", lit "RIFF")])
             rejected
             engine_with_converted_sidecar
             (outcome true (lit "answer") [])).

(** A working converter and an engine that prints nothing but log lines. *)
Definition silent_engine : Runtime :=
  machine (scripted
             (outcome true [] [(lit "/app/temp/audio_0_boosted.wav", lit "RIFF")])
             rejected
             (outcome true
                (lit "whisper_init_from_file: loading model" ++ [LF] ++
                 lit "main: processing 1 file" ++ [LF] ++
                 lit "[BLANK_AUDIO]" ++ [LF]) [])
             (outcome true (lit "answer") [])).

(** The file an HTTP client command posts: what stands between the quotes
    that follow the at sign. *)
Definition posted_file (cmd : jsstring) : jsstring :=
  removelast
    (drop (S (length (lit "curl -s http://localhost:11434/api/generate -d @")))
       cmd).

(** The machine [silent_engine] with a server that answers with the very
    request it is sent: the HTTP client prints the contents of the file it
    posts. *)
Definition echoing (cmd : jsstring) (files : gmap (list N) (list N))
    : ProcessOutcome :=
  if startsWith cmd (lit "curl") then
    outcome true (default (lit "no such file") (files !! posted_file cmd)) []
  else exec silent_engine cmd files.

Definition echo_server : Runtime := machine echoing.

(** A machine started in a directory whose own name holds the extension,
    with no converter installed; the engine prints one line of speech and
    leaves a text file beside the file it is given. *)
Definition in_webm_directory : Runtime :=
  {| cwd := lit "/srv/my.webm";
     Buffer_from_base64 := fun data => data;
     JSON_stringify := prompt;
     JSON_parse := fun s => Some (JObject [(lit "response", JString s)]);
     exec := scripted rejected rejected
               (outcome true (lit " spoken aloud" ++ [LF])
                  [(lit "/srv/my.webm/temp/audio_0.txt",
                    lit "written beside the saved file")])
               (outcome true (lit "answer") []) |}.

(** A world in which the process may remove nothing under [/app/temp]. *)
Definition read_only_temp : World :=
  {| fs := ∅; clock := 0; executed := [];
     locked := {[ lit "/app/temp/audio_0.webm";
                  lit "/app/temp/audio_0.txt";
                  lit "/app/temp/ollama_payload_10.json" ]} |}.

(** A session started at time 0 whose first frame, 16 ms later, reads an
    ambient level of 0.001. *)
Definition calibrated : QueueCommands.Session :=
  QueueCommands.tick 0.001%float 16%float
    (QueueCommands.startRecording 0%float QueueCommands.mounted).

(** Two quiet frames, 1000 ms and 1700 ms into the session. *)
Definition two_quiet_frames : list (float * float) :=
  [(0.0001%float, 1000%float); (0.0001%float, 1700%float)].

(** A session that has heard four bytes, has had a manual flush, and has
    the recorder's [stop] event next in its queue. *)
Definition before_finalize : list QueueCommands.Input :=
  [QueueCommands.Capture [1; 2; 3]; QueueCommands.Timeslice 0;
   QueueCommands.Deliver; QueueCommands.Deliver;
   QueueCommands.Capture [4]; QueueCommands.ManualFlush;
   QueueCommands.Deliver].

(** A session that heard two bytes and was stopped, and the next session
    started (its microphone stream granted) before the two events queued
    by the stopped recorder have run. *)
Definition restarted : QueueCommands.Session :=
  QueueCommands.startRecording 100%float
    (QueueCommands.run
       [QueueCommands.Deliver; QueueCommands.Capture [1; 2];
        QueueCommands.StopClick]
       (QueueCommands.startRecording 0%float QueueCommands.mounted)).

(** One byte from the microphone, the 100 ms timer of recorder 1, a manual
    flush, and the five events queued by then. *)
Definition one_more_byte : list QueueCommands.Input :=
  [QueueCommands.Capture [7]; QueueCommands.Timeslice 1;
   QueueCommands.ManualFlush;
   QueueCommands.Deliver; QueueCommands.Deliver; QueueCommands.Deliver;
   QueueCommands.Deliver; QueueCommands.Deliver].

(** A working converter, but no transcription engine installed. *)
Definition without_engine : Runtime :=
  machine (scripted
             (outcome true [] [(lit "/app/temp/audio_0_boosted.wav", lit "RIFF")])
             rejected
             rejected
             (outcome true (lit "answer") [])).

(** A machine whose server is down: the HTTP client is rejected. *)
Definition server_down : Runtime :=
  machine (scripted
             (outcome true [] [(lit "/app/temp/audio_0_boosted.wav", lit "RIFF")])
             rejected
             (outcome true (lit "hello") [])
             rejected).

(** A machine whose server answers with the JSON text [null]. *)
Definition null_server : Runtime :=
  {| cwd := lit "/app";
     Buffer_from_base64 := fun data => data;
     JSON_stringify := prompt;
     JSON_parse := fun s => if bool_decide (s = lit "null") then Some JNull
                            else None;
     exec := scripted rejected rejected
               (outcome true (lit "hello") [])
               (outcome true (lit "null") []) |}.

Definition wav : jsstring := lit "audio/wav".

(** A world that holds a file of the user next to the temporary
    directory. *)
Definition with_notes : World :=
  {| fs := {[ lit "/app/notes.txt" := lit "keep me" ]};
     clock := 0; executed := []; locked := ∅ |}.

End Scenario.
(* ===================================================================== *)
(** * Prompt escaping *)
(* ===================================================================== *)

Section Escaping.
Import LLMHelper.

Lemma replaceAll_app c rep (a b : list N) :
  replaceAll c rep (a ++ b) = replaceAll c rep a ++ replaceAll c rep b.
Proof. unfold replaceAll. apply flat_map_app. Qed.

Lemma escapeTranscription_app (a b : list N) :
  escapeTranscription (a ++ b) =
  escapeTranscription a ++ escapeTranscription b.
Proof.
  unfold escapeTranscription. now rewrite !replaceAll_app.
Qed.

Lemma escapeTranscription_unit (c : N) :
  escapeTranscription [c] = Spec.escape_unit c.
Proof.
  unfold Spec.escape_unit.
  destruct (N.eqb_spec c BACKSLASH) as [->|Hb]; [reflexivity|].
  destruct (N.eqb_spec c QUOTE) as [->|Hq]; [reflexivity|].
  destruct (N.eqb_spec c LF) as [->|Hl]; [reflexivity|].
  destruct (N.eqb_spec c CR) as [->|Hc]; [reflexivity|].
  destruct (N.eqb_spec c TAB) as [->|Ht]; [reflexivity|].
  unfold escapeTranscription, replaceAll. cbn [flat_map app].
  apply N.eqb_neq in Hb, Hq, Hl, Hc, Ht.
  rewrite Hb. cbn [flat_map app]. rewrite Hq. cbn [flat_map app].
  rewrite Hl. cbn [flat_map app]. rewrite Hc. cbn [flat_map app].
  now rewrite Ht.
Qed.


End Escaping.

(* ===================================================================== *)
(** * Progressive reveal *)
(* ===================================================================== *)

Section Reveal.
Import QueueCommands.
Local Open Scope nat_scope.

Lemma indexOf_Some c (s : list N) from k :
  indexOf c s from = Some k ->
  from <= k /\ s !! k = Some c /\
  forall j, from <= j < k -> s !! j <> Some c.
Proof.
  revert from k. induction s as [|x s IH]; intros from k H; [discriminate|].
  cbn [indexOf] in H. destruct from as [|from].
  - destruct (N.eqb_spec x c) as [->|Hx].
    + injection H as <-. repeat split; [lia|]. intros j Hj. lia.
    + destruct (indexOf c s 0) as [k'|] eqn:E; [|discriminate].
      injection H as <-. destruct (IH _ _ E) as (_ & Hk & Hbefore).
      repeat split; [lia|exact Hk|].
      intros [|j] Hj; cbn; [congruence|]. apply Hbefore. lia.
  - destruct (indexOf c s from) as [k'|] eqn:E; [|discriminate].
    injection H as <-. destruct (IH _ _ E) as (Hle & Hk & Hbefore).
    repeat split; [lia|exact Hk|].
    intros [|j] Hj; [lia|]. cbn. apply Hbefore. lia.
Qed.

Lemma indexOf_None c (s : list N) from :
  indexOf c s from = None ->
  forall j, from <= j -> s !! j <> Some c.
Proof.
  revert from. induction s as [|x s IH]; intros from H j Hj; [easy|].
  cbn [indexOf] in H. destruct from as [|from].
  - destruct (N.eqb_spec x c) as [->|Hx]; [discriminate|].
    destruct (indexOf c s 0) eqn:E; [discriminate|].
    destruct j as [|j]; cbn; [congruence|]. apply (IH _ E). lia.
  - destruct (indexOf c s from) eqn:E; [discriminate|].
    destruct j as [|j]; [lia|]. cbn. apply (IH _ E). lia.
Qed.

Lemma sep_within_false (text : list N) cut n :
  (forall j, cut <= j < cut + n -> text !! j <> Some SPACE) ->
  Spec.sep_within Spec.is_space text cut n = false.
Proof.
  intros H. unfold Spec.sep_within.
  apply not_true_is_false. intros E.
  apply existsb_exists in E as (x & Hin & Hx).
  apply N.eqb_eq in Hx. subst x.
  apply list_elem_of_In, list_elem_of_lookup in Hin as (i & Hi).
  apply lookup_take_Some in Hi as (Hi & Hlt).
  rewrite lookup_drop in Hi. apply (H (cut + i)); [lia|exact Hi].
Qed.

Lemma charsToAdd_pos r : 1 <= charsToAdd_of r <= 3.
Proof.
  unfold charsToAdd_of. repeat case_match; lia.
Qed.

(** Every step advances the cut, and never past the end. *)
Lemma adjustedIndex_bounds (text : list N) cur :
  cur < length text ->
  cur < adjustedIndex_of text cur <= length text.
Proof.
  intros Hcur. unfold adjustedIndex_of.
  pose proof (charsToAdd_pos (length text - cur)) as Hn.
  set (n := charsToAdd_of _) in *.
  set (nextIndex := Nat.min (cur + n) (length text)).
  assert (cur < nextIndex <= length text) by lia.
  destruct (text !! nextIndex) as [c|]; [|lia].
  destruct (_ && _); [|lia].
  destruct (indexOf SPACE text nextIndex) as [k|] eqn:E; [|lia].
  destruct (k - nextIndex <? 10); [|lia].
  apply indexOf_Some in E as (Hle & Hk & _).
  apply lookup_lt_Some in Hk. lia.
Qed.

(** A step never leaves the cut inside a word when a space follows within
    ten units. *)
Lemma adjustedIndex_keeps_words (text : list N) cur :
  cur < length text ->
  Spec.mid_word Spec.is_space text (adjustedIndex_of text cur) = true ->
  Spec.sep_within Spec.is_space text (adjustedIndex_of text cur) 10 = false.
Proof.
  intros Hcur. unfold adjustedIndex_of.
  pose proof (charsToAdd_pos (length text - cur)) as Hn.
  set (n := charsToAdd_of _) in *.
  remember (Nat.min (cur + n) (length text)) as nextIndex eqn:HnextIndex.
  destruct (text !! nextIndex) as [c|] eqn:Hnext.
  2:{ unfold Spec.mid_word. destruct nextIndex as [|before]; [discriminate|].
      rewrite Hnext. now destruct (text !! before). }
  assert (nextIndex = S (cur + n - 1)) as Hpred.
  { apply lookup_lt_Some in Hnext. lia. }
  destruct (N.eqb_spec c SPACE) as [->|Hc]; cbn [negb andb].
  { unfold Spec.mid_word. destruct nextIndex as [|before]; [discriminate|].
    rewrite Hnext. destruct (text !! before); [|easy].
    unfold Spec.is_space at 2. rewrite N.eqb_refl. now rewrite andb_false_r. }
  case_bool_decide as Hcurrent; cbn [negb].
  { unfold Spec.mid_word. rewrite Hpred, Hcurrent.
    unfold Spec.is_space at 1. rewrite N.eqb_refl.
    now destruct (text !! S (cur + n - 1)). }
  destruct (indexOf SPACE text nextIndex) as [k|] eqn:E.
  - pose proof (indexOf_Some _ _ _ _ E) as (Hle & Hk & Hbefore).
    destruct (Nat.ltb_spec (k - nextIndex) 10) as [Hnear|Hfar].
    + unfold Spec.mid_word. destruct k as [|before]; [discriminate|].
      rewrite Hk. destruct (text !! before); [|easy].
      unfold Spec.is_space at 2. rewrite N.eqb_refl. now rewrite andb_false_r.
    + intros _. apply sep_within_false. intros j Hj. apply Hbefore. lia.
  - intros _. apply sep_within_false. intros j Hj.
    apply (indexOf_None _ _ _ E). lia.
Qed.

(** The frames of a reveal are the prefixes at its cut positions. *)
Lemma frames_cuts n id (live : LiveTranscriptionState) :
  messageId live = id ->
  frames n id (Some live) =
  (fun k => take k (fullText live)) <$>
    Spec.cuts n (fullText live) (currentIndex live).
Proof.
  revert live. induction n as [|n IH]; intros live Hid; [reflexivity|].
  cbn [frames Spec.cuts animateText_update].
  rewrite Hid, N.eqb_refl. cbn [negb].
  destruct (length (fullText live) <=? currentIndex live); [reflexivity|].
  cbn [displayedText fmap list_fmap]. unfold substring0. f_equal.
  now rewrite IH.
Qed.

Lemma simulateLiveTranscription_cuts (text : list N) id :
  simulateLiveTranscription text id =
  (fun k => take k text) <$> Spec.cuts (S (length text)) text 0.
Proof.
  unfold simulateLiveTranscription. now rewrite frames_cuts.
Qed.

Lemma cuts_keep_words n (text : list N) cur k :
  In k (Spec.cuts n text cur) ->
  k <= length text /\
  (Spec.mid_word Spec.is_space text k = true ->
   Spec.sep_within Spec.is_space text k 10 = false).
Proof.
  revert cur. induction n as [|n IH]; intros cur Hin; [easy|].
  cbn [Spec.cuts] in Hin.
  destruct (Nat.leb_spec (length text) cur) as [|Hcur]; [easy|].
  destruct Hin as [<-|Hin]; [|eauto].
  split; [apply adjustedIndex_bounds; lia|].
  now apply adjustedIndex_keeps_words.
Qed.

(** The reveal completes: with one step per code unit at most, its last
    frame is the whole response. *)
Lemma cuts_reach_end n (text : list N) cur :
  cur < length text ->
  length text - cur <= n ->
  last (Spec.cuts n text cur) = Some (length text).
Proof.
  revert cur. induction n as [|n IH]; intros cur Hcur Hn; [lia|].
  cbn [Spec.cuts].
  destruct (Nat.leb_spec (length text) cur) as [|_]; [lia|].
  pose proof (adjustedIndex_bounds text cur Hcur) as Hb.
  set (next := adjustedIndex_of text cur) in *.
  destruct (decide (next = length text)) as [Heq|Hne].
  - destruct n as [|n]; [now rewrite Heq|].
    cbn [Spec.cuts]. destruct (Nat.leb_spec (length text) next); [|lia].
    now rewrite Heq.
  - rewrite last_cons, IH; [reflexivity|lia|lia].
Qed.

Lemma simulateLiveTranscription_completes (text : list N) id :
  text <> [] ->
  last (simulateLiveTranscription text id) = Some text.
Proof.
  intros Hne. rewrite simulateLiveTranscription_cuts.
  rewrite fmap_last.
  rewrite cuts_reach_end; [|destruct text; [easy|cbn; lia]|lia].
  cbn. now rewrite firstn_all.
Qed.

(** With white space read as [String.prototype.trim] does, the reveal does
    split a word although white space follows within ten units: the first
    frame of this response is its first letter alone, one unit before the
    line feed. *)
Lemma reveal_splits_before_line_feed :
  ~ (forall frame : list N,
        In frame (simulateLiveTranscription Scenario.hi_newline_you 1%N) ->
        Spec.keeps_words is_trimmable Scenario.hi_newline_you frame).
Proof.
  intros H. destruct (H (lit "h")) as [_ Hsplit].
  - vm_compute. left. reflexivity.
  - specialize (Hsplit eq_refl). discriminate Hsplit.
Qed.

(** C9 (amended). Every text the reveal shows is a prefix of the response,
    and it ends inside a word (between two units that are not U+0020) only
    when no space follows among the next ten units.  Whenever the planned
    cut lands inside a word and the next space is fewer than ten units past
    it, the cut moves to that space.  The reveal of the sample response
    shows whole words up to the last one, after which no space follows. *)
Theorem reveal_keeps_words_on_spaces :
  (forall (text : list N) (id : N) (frame : list N),
      In frame (simulateLiveTranscription text id) ->
      Spec.keeps_words Spec.is_space text frame) /\
  (forall (text : list N) (cur k : nat),
      let planned :=
        Nat.min (cur + charsToAdd_of (length text - cur)) (length text) in
      Spec.mid_word Spec.is_space text planned = true ->
      indexOf SPACE text planned = Some k ->
      k - planned < 10 ->
      adjustedIndex_of text cur = k) /\
  (forall id : N,
      simulateLiveTranscription Scenario.hello_world_testing id =
      [lit "hello"; lit "hello "; lit "hello world"; lit "hello world ";
       lit "hello world t"; lit "hello world te"; lit "hello world tes";
       lit "hello world test"; lit "hello world testi";
       lit "hello world testin"; lit "hello world testing"]).
Proof.
  split; [|split].
  - intros text id frame Hin.
    rewrite simulateLiveTranscription_cuts in Hin.
    apply list_elem_of_In, list_elem_of_fmap in Hin as (k & -> & Hk).
    apply list_elem_of_In, cuts_keep_words in Hk as [Hle Hwords].
    split; [apply prefix_take|].
    rewrite length_take, Nat.min_l by exact Hle. exact Hwords.
  - intros text cur k planned Hmid Hidx Hnear.
    unfold adjustedIndex_of. fold planned.
    unfold Spec.mid_word in Hmid.
    destruct planned as [|before] eqn:Hplanned; [discriminate|].
    destruct (text !! before) as [a|] eqn:Ha; [|discriminate].
    destruct (text !! S before) as [b|] eqn:Hb; [|discriminate].
    apply andb_true_iff in Hmid as [Hna Hnb].
    assert (cur + charsToAdd_of (length text - cur) - 1 = before) as ->.
    { apply lookup_lt_Some in Hb. subst planned. lia. }
    rewrite Ha. unfold Spec.is_space in Hna, Hnb. rewrite Hnb.
    case_bool_decide as Hspace.
    { injection Hspace as ->. now rewrite N.eqb_refl in Hna. }
    cbn [negb andb]. rewrite Hidx.
    apply Nat.ltb_lt in Hnear. now rewrite Hnear.
  - intros id. rewrite simulateLiveTranscription_cuts. reflexivity.
Qed.

Lemma reveal_keeps_words_on_spaces_witness :
  Spec.keeps_words Spec.is_space Scenario.hello_world_testing (lit "hello world t") /\
  adjustedIndex_of Scenario.hello_world_testing 6 = 11.
Proof.
  split.
  - apply (proj1 reveal_keeps_words_on_spaces Scenario.hello_world_testing 0%N).
    vm_compute. do 4 right. left. reflexivity.
  - apply (proj1 (proj2 reveal_keeps_words_on_spaces) Scenario.hello_world_testing 6 11).
    + reflexivity.
    + reflexivity.
    + vm_compute. lia.
Defined.

End Reveal.
(* ===================================================================== *)
(** * The audio pipeline *)
(* ===================================================================== *)

Section Pipeline.
Import LLMHelper.

Variable rt : Runtime.

(** ** Running the primitives *)

Lemma saveAudio_run (data mimeType : list N) (w : World) :
  saveAudio rt data mimeType w =
  (Ok (Spec.audioPath_at rt mimeType w, ext_of mimeType),
   set_fs (<[Spec.audioPath_at rt mimeType w := Buffer_from_base64 rt data]>
             (fs w)) w).
Proof.
  unfold saveAudio, bind, Date_now, writeFile, stat_size, ret; cbn.
  fold (Spec.audioPath_at rt mimeType w).
  now rewrite lookup_insert_eq.
Qed.

Lemma apply_writes_keeps (written : list (list N * list N))
    (f : gmap (list N) (list N)) (p : list N) :
  is_Some (f !! p) -> is_Some (apply_writes written f !! p).
Proof.
  revert f. induction written as [|[q c] written IH]; intros f Hp; [exact Hp|].
  cbn. apply IH. destruct (decide (q = p)) as [->|Hne].
  - rewrite lookup_insert_eq. eauto.
  - now rewrite lookup_insert_ne.
Qed.

Lemma execAsync_run (cmd : list N) (w : World) :
  execAsync rt cmd w =
  (if exit_ok (exec rt cmd (fs w)) then Ok (stdout (exec rt cmd (fs w)))
   else Throw (ExecError cmd),
   Spec.world_after (execAsync rt cmd) w).
Proof.
  unfold Spec.world_after, execAsync. now destruct (exit_ok _).
Qed.

Lemma execAsync_executed (cmd : list N) (w : World) :
  executed (Spec.world_after (execAsync rt cmd) w) = executed w ++ [cmd].
Proof.
  unfold Spec.world_after, execAsync. now destruct (exit_ok _).
Qed.

Lemma execAsync_keeps (cmd : list N) (w : World) (p : list N) :
  is_Some (fs w !! p) ->
  is_Some (fs (Spec.world_after (execAsync rt cmd) w) !! p).
Proof.
  intros Hp. unfold Spec.world_after, execAsync.
  destruct (exit_ok _); cbn; now apply apply_writes_keeps.
Qed.

(** ** The commands run so far only grow *)

Lemma logs_ret {A} (a : A) : Spec.logs (ret a).
Proof. intros w. exists []. cbn. now rewrite app_nil_r. Qed.

Lemma logs_throw {A} e : Spec.logs (@throw A e).
Proof. intros w. exists []. cbn. now rewrite app_nil_r. Qed.

Lemma logs_bind {A B} (m : M A) (k : A -> M B) :
  Spec.logs m -> (forall a, Spec.logs (k a)) -> Spec.logs (bind m k).
Proof.
  intros Hm Hk w. unfold bind. destruct (Hm w) as [r1 E1].
  destruct (m w) as [[a|e] w1]; cbn in *.
  - destruct (Hk a w1) as [r2 E2]. exists (r1 ++ r2).
    now rewrite E2, E1, app_assoc.
  - now exists r1.
Qed.

Lemma logs_try_catch {A} (m : M A) (h : Error -> M A) :
  Spec.logs m -> (forall e, Spec.logs (h e)) -> Spec.logs (try_catch m h).
Proof.
  intros Hm Hh w. unfold try_catch. destruct (Hm w) as [r1 E1].
  destruct (m w) as [[a|e] w1]; cbn in *.
  - now exists r1.
  - destruct (Hh e w1) as [r2 E2]. exists (r1 ++ r2).
    now rewrite E2, E1, app_assoc.
Qed.

Lemma logs_execAsync cmd : Spec.logs (execAsync rt cmd).
Proof. intros w. exists [cmd]. apply execAsync_executed. Qed.

Lemma logs_state_only {A} (m : M A) :
  (forall w, executed (m w).2 = executed w) -> Spec.logs m.
Proof. intros H w. exists []. now rewrite H, app_nil_r. Qed.

Lemma logs_Date_now : Spec.logs Date_now.
Proof. now apply logs_state_only. Qed.

Lemma logs_writeFile p c : Spec.logs (writeFile p c).
Proof. now apply logs_state_only. Qed.

Lemma logs_readFile p : Spec.logs (readFile p).
Proof.
  apply logs_state_only. intros w. unfold readFile. now destruct (fs w !! p).
Qed.

Lemma logs_existsSync p : Spec.logs (existsSync p).
Proof. now apply logs_state_only. Qed.

Lemma logs_unlink_quiet p : Spec.logs (unlink_quiet p).
Proof.
  apply logs_state_only. intros w. unfold unlink_quiet, try_catch, unlink.
  destruct (fs w !! p); [|reflexivity]. now destruct (decide _).
Qed.

Lemma logs_response_of v : Spec.logs (response_of v).
Proof. destruct v; first [apply logs_ret | apply logs_throw]. Qed.

Create HintDb logs.
#[local] Hint Resolve logs_ret logs_throw logs_execAsync logs_Date_now logs_writeFile
  logs_readFile logs_existsSync logs_unlink_quiet logs_response_of : logs.

Ltac logs_step :=
  first [ solve [auto with logs]
        | progress cbv zeta
        | apply logs_bind; [|intros ?] | apply logs_try_catch; [|intros ?] ].

Lemma logs_readSidecar audioPath ext t : Spec.logs (readSidecar audioPath ext t).
Proof. unfold readSidecar. repeat logs_step. Qed.

Lemma logs_transcribe audioPath ext processPath :
  Spec.logs (transcribe rt audioPath ext processPath).
Proof. unfold transcribe. logs_step; [auto with logs|]. apply logs_readSidecar. Qed.

Lemma logs_infer audioPath t : Spec.logs (infer rt audioPath t).
Proof.
  unfold infer. repeat logs_step.
  destruct (JSON_parse rt _); repeat logs_step.
Qed.

(** ** Conversion and its fallbacks *)

Lemma try_catch_rethrow {A} (m : M A) (w : World) :
  try_catch m (fun error => throw error) w = m w.
Proof. unfold try_catch, throw. now destruct (m w) as [[a|e] w']. Qed.

Lemma analyzeAudioFromBase64_run (data mimeType : list N) (w : World) :
  analyzeAudioFromBase64 rt data mimeType w =
  (await processPath <-
     convert rt (Spec.audioPath_at rt mimeType w) (ext_of mimeType);
   Spec.continue_with rt (Spec.audioPath_at rt mimeType w) (ext_of mimeType)
     processPath)
    (Spec.world_after (saveAudio rt data mimeType) w).
Proof.
  unfold analyzeAudioFromBase64, Spec.world_after.
  rewrite try_catch_rethrow. unfold bind at 1.
  now rewrite saveAudio_run.
Qed.

Lemma saved_audio_present (data mimeType : list N) (w : World) :
  is_Some (fs (Spec.world_after (saveAudio rt data mimeType) w)
             !! Spec.audioPath_at rt mimeType w).
Proof.
  unfold Spec.world_after. rewrite saveAudio_run. cbn.
  rewrite lookup_insert_eq. eauto.
Qed.

Lemma saved_audio_executed (data mimeType : list N) (w : World) :
  executed (Spec.world_after (saveAudio rt data mimeType) w) = executed w.
Proof. unfold Spec.world_after. now rewrite saveAudio_run. Qed.

Lemma ext_of_webm (mimeType : list N) :
  includes mimeType (lit "webm") = true -> ext_of mimeType = lit "webm".
Proof. unfold ext_of. now intros ->. Qed.

(** A failed primary attempt on a non-WAV segment throws, after the command
    has run. *)
Lemma convertPrimary_fails (audioPath : list N) (w : World) :
  Spec.attempt_failed rt
    (convertCmd audioPath (boostedWavPath_of audioPath (lit "webm")))
    (boostedWavPath_of audioPath (lit "webm")) w ->
  exists e,
    convertPrimary rt audioPath (lit "webm") w =
    (Throw e,
     Spec.world_after
       (execAsync rt
          (convertCmd audioPath (boostedWavPath_of audioPath (lit "webm")))) w).
Proof.
  intros Hfail. unfold convertPrimary.
  change (negb (bool_decide (lit "webm" = lit "wav"))) with true. cbv iota.
  unfold bind at 1. rewrite execAsync_run.
  destruct (exit_ok _) eqn:Hok; [|eauto].
  destruct Hfail as [Hrej|Hgone]; [congruence|].
  unfold bind at 1. unfold existsSync at 1. rewrite Hgone.
  rewrite bool_decide_eq_false_2 by (intros [? ?]; discriminate).
  unfold throw. eauto.
Qed.

(** The simple attempt never throws past its handler; when it fails, the
    original file stays the one to process. *)
Lemma convertSimple_caught (audioPath ext : list N) (w : World) :
  exists p,
    try_catch (convertSimple rt audioPath ext) (fun _ => ret audioPath) w =
    (Ok p,
     Spec.world_after
       (execAsync rt (simpleCmd audioPath (simpleWavPath_of audioPath ext))) w)
    /\ (is_Some (fs w !! audioPath) ->
        is_Some
          (fs (Spec.world_after
                 (execAsync rt
                    (simpleCmd audioPath (simpleWavPath_of audioPath ext))) w)
             !! p))
    /\ (Spec.attempt_failed rt
          (simpleCmd audioPath (simpleWavPath_of audioPath ext))
          (simpleWavPath_of audioPath ext) w -> p = audioPath).
Proof.
  unfold try_catch, convertSimple. cbv zeta.
  unfold bind at 1. rewrite execAsync_run.
  destruct (exit_ok _) eqn:Hok.
  - unfold bind at 1. unfold existsSync at 1.
    case_bool_decide as Hpresent; unfold ret.
    + eexists. split; [reflexivity|]. split; [intros _; exact Hpresent|].
      intros [Hrej|Hgone]; [congruence|].
      rewrite Hgone in Hpresent. now destruct Hpresent.
    + eexists. split; [reflexivity|].
      split; [apply execAsync_keeps|reflexivity].
  - unfold ret. eexists. split; [reflexivity|].
    split; [apply execAsync_keeps|reflexivity].
Qed.

Lemma continue_with_executed (audioPath ext processPath : list N) (w : World) :
  exists rest,
    executed (Spec.world_after
                (Spec.continue_with rt audioPath ext processPath) w) =
    executed w ++ whisperCommand processPath :: rest.
Proof.
  unfold Spec.world_after, Spec.continue_with, transcribe.
  unfold bind at 1 2. rewrite execAsync_run.
  destruct (exit_ok _).
  - destruct (logs_bind (readSidecar audioPath ext
                (parseStdout (stdout (exec rt (whisperCommand processPath) (fs w)))))
              (fun t => infer rt audioPath t)
              (logs_readSidecar _ _ _) (logs_infer _)
              (Spec.world_after (execAsync rt (whisperCommand processPath)) w))
      as [rest Hrest].
    exists rest. unfold bind in Hrest. rewrite Hrest, execAsync_executed.
    now rewrite <- app_assoc.
  - exists []. cbn [snd]. apply execAsync_executed.
Qed.

(** C5. For a segment that is not WAV (its type mentions webm), when the
    filtered conversion fails (the command is rejected or leaves no output
    file) the plain conversion command is the next command run.  The two
    commands are spelled out: the first one filters (volume, high-pass,
    low-pass), resamples to 16 kHz, mixes down to one channel and encodes
    16-bit PCM; the fallback only resamples to 16 kHz and mixes down to one
    channel, with no filter.  Their output files are named after the saved
    segment, the first occurrence of its extension being replaced.  When
    that attempt fails as well, the method goes on exactly as the
    transcription and inference stages do on the segment as saved: the
    engine is the third command and is given the original file. *)
Theorem conversion_falls_back_to_original (data mimeType : list N) (w : World) :
  let audioPath := Spec.audioPath_at rt mimeType w in
  let ext := ext_of mimeType in
  let primary := convertCmd audioPath (boostedWavPath_of audioPath ext) in
  let simple := simpleCmd audioPath (simpleWavPath_of audioPath ext) in
  let w0 := Spec.world_after (saveAudio rt data mimeType) w in
  let w1 := Spec.world_after (execAsync rt primary) w0 in
  let w2 := Spec.world_after (execAsync rt simple) w1 in
  let final := Spec.world_after (analyzeAudioFromBase64 rt data mimeType) w in
  includes mimeType (lit "webm") = true ->
  Spec.attempt_failed rt primary (boostedWavPath_of audioPath ext) w0 ->
  primary =
    lit "ffmpeg -i " ++ [QUOTE] ++ audioPath ++ [QUOTE] ++
    lit " -af " ++ [QUOTE] ++
    lit "volume=3.0,highpass=f=200,lowpass=f=3000" ++ [QUOTE] ++
    lit " -ar 16000 -ac 1 -c:a pcm_s16le " ++
    [QUOTE] ++ boostedWavPath_of audioPath ext ++ [QUOTE] ++ lit " -y" /\
  simple =
    lit "ffmpeg -i " ++ [QUOTE] ++ audioPath ++ [QUOTE] ++
    lit " -ar 16000 -ac 1 " ++
    [QUOTE] ++ simpleWavPath_of audioPath ext ++ [QUOTE] ++ lit " -y" /\
  boostedWavPath_of audioPath ext =
    replaceFirst (lit ".webm") (lit "_boosted.wav") audioPath /\
  simpleWavPath_of audioPath ext =
    replaceFirst (lit ".webm") (lit ".wav") audioPath /\
  (exists rest, executed final = executed w ++ primary :: simple :: rest) /\
  (Spec.attempt_failed rt simple (simpleWavPath_of audioPath ext) w1 ->
   analyzeAudioFromBase64 rt data mimeType w =
     Spec.continue_with rt audioPath ext audioPath w2 /\
   exists rest,
     executed final =
     executed w ++ primary :: simple ::
       (lit "./whisper.cpp/build/bin/whisper-cli -m ./whisper.cpp/models/ggml-tiny.en.bin -f " ++
        [QUOTE] ++ audioPath ++ [QUOTE] ++
        lit " -t 8 --no-timestamps -l en") :: rest).
Proof.
  intros audioPath ext primary simple w0 w1 w2 final Hwebm Hprimary.
  split; [unfold primary, convertCmd, quoted; now rewrite <- !app_assoc|].
  split; [unfold simple, simpleCmd, quoted; now rewrite <- !app_assoc|].
  split; [unfold ext; now rewrite (ext_of_webm _ Hwebm)|].
  split; [unfold ext; now rewrite (ext_of_webm _ Hwebm)|].
  assert (Hrun : exists p,
             analyzeAudioFromBase64 rt data mimeType w =
               Spec.continue_with rt audioPath ext p w2 /\
             (Spec.attempt_failed rt simple (simpleWavPath_of audioPath ext) w1
              -> p = audioPath)).
  { rewrite analyzeAudioFromBase64_run. fold audioPath ext w0.
    subst primary simple w1 w2. revert Hprimary.
    generalize (saved_audio_present data mimeType w). fold audioPath w0.
    subst ext. rewrite (ext_of_webm _ Hwebm).
    intros Hsaved Hprimary.
    destruct (convertPrimary_fails audioPath w0 Hprimary) as [e He].
    destruct (convertSimple_caught audioPath (lit "webm")
                (Spec.world_after
                   (execAsync rt
                      (convertCmd audioPath
                         (boostedWavPath_of audioPath (lit "webm")))) w0))
      as (p & Hp & Hpresent & Horiginal).
    exists p. split; [|exact Horiginal].
    unfold bind at 1. unfold convert. unfold bind at 1.
    unfold try_catch at 1. rewrite He, Hp.
    unfold bind at 1. unfold existsSync at 1.
    rewrite bool_decide_eq_true_2; [reflexivity|].
    apply Hpresent. now apply execAsync_keeps. }
  destruct Hrun as (p & Hrun & Horiginal).
  assert (Hlog : executed w2 = executed w ++ [primary; simple]).
  { subst w2 w1 w0. rewrite !execAsync_executed, saved_audio_executed.
    now rewrite <- app_assoc. }
  split.
  - destruct (continue_with_executed audioPath ext p w2) as [rest Hrest].
    exists (whisperCommand p :: rest). subst final.
    unfold Spec.world_after in *. rewrite Hrun, Hrest, Hlog.
    now rewrite <- app_assoc.
  - intros Hsimple. rewrite (Horiginal Hsimple) in Hrun.
    split; [exact Hrun|].
    destruct (continue_with_executed audioPath ext audioPath w2) as [rest Hrest].
    exists rest. subst final.
    unfold Spec.world_after in *. rewrite Hrun, Hrest, Hlog.
    unfold whisperCommand, quoted. now rewrite <- !app_assoc.
Qed.

(** ** Transcription *)

Lemma keep_line_spec (line : list N) :
  keep_line line =
  negb (bool_decide (line = [])) && negb (Spec.log_line line).
Proof.
  unfold keep_line, Spec.log_line.
  rewrite !negb_orb. now rewrite !andb_assoc.
Qed.

Lemma transcription_loop (lines : list (list N)) (acc : list N) :
  fold_left
    (fun transcription line =>
       if keep_line line then transcription ++ line ++ [SPACE]
       else transcription) lines acc =
  acc ++ concat (map (fun line => line ++ [SPACE])
                   (filter (fun line => negb (bool_decide (line = [])) &&
                                         negb (Spec.log_line line)) lines)).
Proof.
  revert acc. induction lines as [|line lines IH]; intros acc; cbn [fold_left].
  - cbn. now rewrite app_nil_r.
  - rewrite IH, filter_cons, keep_line_spec.
    destruct (negb _ && negb _) eqn:Hkeep.
    + rewrite decide_True by exact I.
      cbn [map concat]. now rewrite <- !app_assoc.
    + rewrite decide_False by (intros []).
      reflexivity.
Qed.

Lemma parseStdout_spec (out : list N) :
  parseStdout out = Spec.transcript_of_stdout out.
Proof.
  unfold parseStdout, Spec.transcript_of_stdout.
  case_bool_decide as Hempty; [now subst out|].
  now rewrite transcription_loop.
Qed.

Lemma transcription_loop_silent (lines : list (list N)) :
  Forall (fun line => line = [] \/ Spec.log_line line = true) lines ->
  filter (fun line => negb (bool_decide (line = [])) &&
                      negb (Spec.log_line line)) lines = [].
Proof.
  induction 1 as [|line lines Hline _ IH]; [reflexivity|].
  rewrite filter_cons, IH, decide_False; [reflexivity|].
  destruct Hline as [-> | ->]; [now cbn|].
  now rewrite andb_false_r.
Qed.

Lemma unlink_quiet_ok (p : list N) (w : World) :
  (unlink_quiet p w).1 = Ok tt.
Proof.
  unfold unlink_quiet, try_catch, unlink.
  destruct (fs w !! p); [|reflexivity]. now destruct (decide _).
Qed.

Lemma readSidecar_run (audioPath ext t : list N) (w : World) :
  (readSidecar audioPath ext t w).1 =
  Ok match fs w !! transcriptionFile_of audioPath ext with
     | Some c => if bool_decide (c = []) then t else trim c
     | None => t
     end.
Proof.
  unfold readSidecar, try_catch. cbv zeta. unfold bind at 1, readFile at 1.
  destruct (fs w !! transcriptionFile_of audioPath ext) as [c|]; [|reflexivity].
  unfold bind.
  pose proof (unlink_quiet_ok (transcriptionFile_of audioPath ext) w) as Hu.
  destruct (unlink_quiet _ w) as [[[]|e] w']; [|discriminate Hu].
  cbn. now destruct (bool_decide (c = [])).
Qed.

Lemma readSidecar_absent (audioPath ext t : list N) (w : World) :
  fs w !! transcriptionFile_of audioPath ext = None ->
  readSidecar audioPath ext t w = (Ok t, w).
Proof.
  intros Habsent. unfold readSidecar, try_catch. cbv zeta.
  unfold bind at 1, readFile at 1. now rewrite Habsent.
Qed.

(** X28. When the engine exits successfully, the transcript read off its
    output is made of the output lines that are not empty, do not begin
    with an opening bracket and contain neither of the two log markers,
    each followed by a space, the whole trimmed.  One text file takes
    precedence over it: the file whose name is the path of the segment as
    it was saved, before any conversion, with the first occurrence of a
    dot and the extension replaced by [.txt].  When that file has contents
    they are used, trimmed, whatever the output was; when it is missing or
    empty the transcript comes from the output. *)
Theorem transcript_prefers_saved_sibling
    (audioPath ext processPath : list N) (w : World) :
  let engine := exec rt (whisperCommand processPath) (fs w) in
  let w1 := Spec.world_after (execAsync rt (whisperCommand processPath)) w in
  let sidecar := fs w1 !! transcriptionFile_of audioPath ext in
  exit_ok engine = true ->
  parseStdout (stdout engine) = Spec.transcript_of_stdout (stdout engine) /\
  (forall c : list N,
      sidecar = Some c -> c <> [] ->
      (transcribe rt audioPath ext processPath w).1 = Ok (trim c)) /\
  (sidecar = None \/ sidecar = Some [] ->
   (transcribe rt audioPath ext processPath w).1 =
   Ok (Spec.transcript_of_stdout (stdout engine))).
Proof.
  intros engine w1 sidecar Hok.
  assert (Hrun : (transcribe rt audioPath ext processPath w).1 =
                 Ok match sidecar with
                    | Some c => if bool_decide (c = [])
                                then parseStdout (stdout engine) else trim c
                    | None => parseStdout (stdout engine)
                    end).
  { unfold transcribe. unfold bind at 1. rewrite execAsync_run.
    fold engine. rewrite Hok. apply readSidecar_run. }
  split; [apply parseStdout_spec|]. split.
  - intros c Hc Hne. rewrite Hrun, Hc. now rewrite bool_decide_eq_false_2.
  - intros [Hnone|Hempty]; rewrite Hrun.
    + now rewrite Hnone, parseStdout_spec.
    + now rewrite Hempty, parseStdout_spec.
Qed.

(** ** Inference on an empty transcript *)

Lemma analyzeAudioFromBase64_prepared (data mimeType : list N) (w : World) :
  analyzeAudioFromBase64 rt data mimeType w =
  match Spec.prepare rt data mimeType w with
  | (Ok (audioPath, ext, processPath), w1) =>
      Spec.continue_with rt audioPath ext processPath w1
  | (Throw e, w1) => (Throw e, w1)
  end.
Proof.
  unfold analyzeAudioFromBase64, Spec.prepare.
  rewrite try_catch_rethrow. unfold bind.
  destruct (saveAudio rt data mimeType w) as [[[audioPath ext]|e] w0];
    [|reflexivity].
  cbn [fst snd].
  now destruct (convert rt audioPath ext w0) as [[processPath|e] w1].
Qed.

(** C10. When the engine exits successfully, every line it prints is empty
    or a log line, and no text file of the saved segment exists, the
    transcription stage does not throw: it yields the empty transcript.
    The method then sends the request: it writes the request, whose prompt
    embeds the empty transcript between its two quotes, to the request
    file, and runs the HTTP client, as the only further command, on that
    file: the command is curl posting the file to the local server, and the
    file system it runs in holds the request at that path.  The outcome of
    the method is the outcome of that call: the client's error when it is
    rejected, a syntax error when its output is not JSON, a type error when
    it parses to null, and otherwise the response member of the parsed
    value. *)
Theorem silent_engine_still_infers (data mimeType : list N) (w : World)
    (audioPath ext processPath : list N) (w1 : World) :
  let engine := exec rt (whisperCommand processPath) (fs w1) in
  let w2 := Spec.world_after (execAsync rt (whisperCommand processPath)) w1 in
  let payloadPath := Spec.payloadPath_at rt w2 in
  let request := JSON_stringify rt (ollamaPayload []) in
  let curl :=
    lit "curl -s http://localhost:11434/api/generate -d @" ++
    [QUOTE] ++ payloadPath ++ [QUOTE] in
  let server := exec rt curl (<[payloadPath := request]> (fs w2)) in
  let final := Spec.world_after (analyzeAudioFromBase64 rt data mimeType) w in
  Spec.prepare rt data mimeType w = (Ok (audioPath, ext, processPath), w1) ->
  exit_ok engine = true ->
  Forall (fun line => line = [] \/ Spec.log_line line = true)
    (split LF (stdout engine)) ->
  fs w2 !! transcriptionFile_of audioPath ext = None ->
  transcribe rt audioPath ext processPath w1 = (Ok [], w2) /\
  analyzeAudioFromBase64 rt data mimeType w = infer rt audioPath [] w2 /\
  ollamaCommand payloadPath = curl /\
  prompt (ollamaPayload []) =
    systemPrompt ++ [LF; LF] ++ lit "Audio transcription: " ++
    [QUOTE; QUOTE] ++ [LF; LF] ++
    lit " Provide a suggestion to the users question." /\
  executed final = executed w2 ++ [curl] /\
  (analyzeAudioFromBase64 rt data mimeType w).1 =
    (if exit_ok server then
       match JSON_parse rt (stdout server) with
       | None => Throw SyntaxError
       | Some JNull => Throw TypeError
       | Some v => Ok {| text := Spec.response_member v;
                         timestamp := clock final |}
       end
     else Throw (ExecError curl)) /\
  (forall v : json,
      exit_ok server = true ->
      JSON_parse rt (stdout server) = Some v ->
      v <> JNull ->
      (analyzeAudioFromBase64 rt data mimeType w).1 =
      Ok {| text := Spec.response_member v; timestamp := clock final |}).
Proof.
  intros engine w2 payloadPath request curl server final
    Hprepared Hok Hsilent Habsent.
  assert (Hcurl : ollamaCommand payloadPath = curl) by reflexivity.
  assert (Htranscribe :
            transcribe rt audioPath ext processPath w1 = (Ok [], w2)).
  { unfold transcribe. unfold bind at 1. rewrite execAsync_run.
    fold engine w2. rewrite Hok, parseStdout_spec.
    unfold Spec.transcript_of_stdout.
    rewrite (transcription_loop_silent _ Hsilent).
    now apply readSidecar_absent. }
  assert (Hrun : analyzeAudioFromBase64 rt data mimeType w =
                 infer rt audioPath [] w2).
  { rewrite analyzeAudioFromBase64_prepared, Hprepared.
    unfold Spec.continue_with. unfold bind at 1. now rewrite Htranscribe. }
  set (w3 := set_fs (<[payloadPath := request]> (fs w2)) w2).
  set (w4 := Spec.world_after (execAsync rt curl) w3).
  set (w5 := (unlink_quiet payloadPath w4).2).
  set (w6 := (unlink_quiet audioPath w5).2).
  assert (Hquiet : forall p w', executed (unlink_quiet p w').2 = executed w' /\
                                clock (unlink_quiet p w').2 = clock w').
  { intros p w'. unfold unlink_quiet, try_catch, unlink.
    destruct (fs w' !! p); [|now split]. now destruct (decide _). }
  assert (Hinfer : infer rt audioPath [] w2 =
            if exit_ok server then
              match JSON_parse rt (stdout server) with
              | None => (Throw SyntaxError, w4)
              | Some JNull => (Throw TypeError, w6)
              | Some v => (Ok {| text := Spec.response_member v;
                                 timestamp := clock w6 |}, w6)
              end
            else (Throw (ExecError curl), w4)).
  { unfold infer. unfold bind at 1, Date_now at 1.
    fold (Spec.payloadPath_at rt w2). fold payloadPath. fold request.
    unfold bind at 1. unfold writeFile at 1. fold w3.
    unfold bind at 1. rewrite Hcurl, execAsync_run. fold w4.
    change (exec rt curl (fs w3)) with server.
    destruct (exit_ok server); [|reflexivity].
    destruct (JSON_parse rt (stdout server)) as [v|]; [|reflexivity].
    unfold bind at 1.
    rewrite (surjective_pairing (unlink_quiet payloadPath w4)).
    rewrite unlink_quiet_ok. fold w5.
    unfold bind at 1.
    rewrite (surjective_pairing (unlink_quiet audioPath w5)).
    rewrite unlink_quiet_ok. fold w6.
    now destruct v. }
  assert (Hlog4 : executed w4 = executed w2 ++ [curl])
    by (unfold w4; now rewrite execAsync_executed).
  assert (Hlog6 : executed w6 = executed w2 ++ [curl]).
  { unfold w6, w5. now rewrite !(proj1 (Hquiet _ _)). }
  assert (Hresult : (analyzeAudioFromBase64 rt data mimeType w).1 =
            (if exit_ok server then
               match JSON_parse rt (stdout server) with
               | None => Throw SyntaxError
               | Some JNull => Throw TypeError
               | Some v => Ok {| text := Spec.response_member v;
                                 timestamp := clock final |}
               end
             else Throw (ExecError curl))).
  { unfold final, Spec.world_after. rewrite Hrun, Hinfer.
    destruct (exit_ok server); [|reflexivity].
    destruct (JSON_parse rt (stdout server)) as [v|]; [|reflexivity].
    now destruct v. }
  split; [exact Htranscribe|]. split; [exact Hrun|].
  split; [exact Hcurl|]. split; [reflexivity|]. split; [|split].
  - unfold final, Spec.world_after. rewrite Hrun, Hinfer.
    destruct (exit_ok server); [|exact Hlog4].
    destruct (JSON_parse rt (stdout server)) as [v|]; [|exact Hlog4].
    now destruct v.
  - exact Hresult.
  - intros v Hserver Hparse Hnotnull.
    rewrite Hresult, Hserver, Hparse. now destruct v.
Qed.

End Pipeline.

Section PipelineScenarios.
Import LLMHelper.

Lemma conversion_falls_back_to_original_witness :
  executed
    (Spec.world_after
       (analyzeAudioFromBase64 Scenario.without_ffmpeg Scenario.segment
          Scenario.webm) Scenario.fresh) =
  [lit "ffmpeg -i " ++ [QUOTE] ++ lit "/app/temp/audio_0.webm" ++ [QUOTE] ++
   lit " -af " ++ [QUOTE] ++
   lit "volume=3.0,highpass=f=200,lowpass=f=3000" ++ [QUOTE] ++
   lit " -ar 16000 -ac 1 -c:a pcm_s16le " ++
   [QUOTE] ++ lit "/app/temp/audio_0_boosted.wav" ++ [QUOTE] ++ lit " -y";
   lit "ffmpeg -i " ++ [QUOTE] ++ lit "/app/temp/audio_0.webm" ++ [QUOTE] ++
   lit " -ar 16000 -ac 1 " ++
   [QUOTE] ++ lit "/app/temp/audio_0.wav" ++ [QUOTE] ++ lit " -y";
   lit "./whisper.cpp/build/bin/whisper-cli -m ./whisper.cpp/models/ggml-tiny.en.bin -f " ++
   [QUOTE] ++ lit "/app/temp/audio_0.webm" ++ [QUOTE] ++
   lit " -t 8 --no-timestamps -l en";
   lit "curl -s http://localhost:11434/api/generate -d @" ++
   [QUOTE] ++ lit "/app/temp/ollama_payload_15.json" ++ [QUOTE]].
Proof.
  destruct (conversion_falls_back_to_original Scenario.without_ffmpeg
              Scenario.segment Scenario.webm Scenario.fresh)
    as (_ & _ & _ & _ & _ & Hboth).
  - reflexivity.
  - left. reflexivity.
  - destruct Hboth as [Hsame _]; [left; reflexivity|].
    unfold Spec.world_after. rewrite Hsame. vm_compute. reflexivity.
Defined.


Lemma transcript_prefers_saved_sibling_witness :
  (transcribe Scenario.healthy Scenario.saved_audio (lit "webm")
     Scenario.converted_audio
     (Spec.world_after
        (Spec.prepare Scenario.healthy Scenario.segment Scenario.webm)
        Scenario.fresh)).1 =
  Ok (trim (lit " written beside the saved file " ++ [LF])).
Proof.
  apply (proj1 (proj2 (transcript_prefers_saved_sibling Scenario.healthy
                         Scenario.saved_audio (lit "webm")
                         Scenario.converted_audio
                         (Spec.world_after
                            (Spec.prepare Scenario.healthy Scenario.segment
                               Scenario.webm) Scenario.fresh)
                         eq_refl))).
  - vm_compute. reflexivity.
  - discriminate.
Defined.

Lemma silent_engine_still_infers_witness :
  (analyzeAudioFromBase64 Scenario.echo_server Scenario.segment
     Scenario.webm Scenario.fresh).1 =
  Ok {| text :=
          Some (JString
                  (systemPrompt ++ [LF; LF] ++ lit "Audio transcription: " ++
                   [QUOTE; QUOTE] ++ [LF; LF] ++
                   lit " Provide a suggestion to the users question."));
        timestamp := 15 |}.
Proof.
  destruct (silent_engine_still_infers Scenario.echo_server
              Scenario.segment Scenario.webm Scenario.fresh
              Scenario.saved_audio (lit "webm") Scenario.converted_audio
              (Spec.world_after
                 (Spec.prepare Scenario.echo_server Scenario.segment
                    Scenario.webm) Scenario.fresh))
    as (_ & _ & _ & _ & _ & Hresult & _).
  - vm_compute. reflexivity.
  - reflexivity.
  - vm_compute.
    repeat (constructor; [first [left; reflexivity | right; reflexivity]|]).
    constructor.
  - vm_compute. reflexivity.
  - rewrite Hresult. vm_compute. reflexivity.
Defined.

(** C7. The text file the method reads is not the sibling of the file that
    was transcribed.  It is named after the segment as first saved
    ([audio_0.webm] here), by replacing the first occurrence of a dot and
    the extension in the whole path.  So, first, when the conversion
    succeeds the engine is given [audio_0_boosted.wav]; the text file that
    shares that file's base name, [audio_0_boosted.txt], is there with
    contents after the engine has run, and yet the transcript is the one
    parsed from the engine's output.  And second, on a machine started in
    [/srv/my.webm] with no converter, the engine is given the saved file;
    the text file beside it, [audio_0.txt], is there with contents, and
    yet the transcript is again the one parsed from the output, because the
    name derived by the method lies in another directory. *)
Theorem sibling_of_transcribed_file_is_ignored :
  ((Spec.prepare Scenario.converted_sidecar_only Scenario.segment Scenario.webm
      Scenario.fresh).1 =
     Ok (Scenario.saved_audio, lit "webm", Scenario.converted_audio) /\
   Spec.sibling_txt Scenario.converted_audio =
     lit "/app/temp/audio_0_boosted.txt" /\
   fs (Spec.world_after
         (transcribe Scenario.converted_sidecar_only Scenario.saved_audio
            (lit "webm") Scenario.converted_audio)
         (Spec.world_after
            (Spec.prepare Scenario.converted_sidecar_only Scenario.segment
               Scenario.webm) Scenario.fresh))
     !! lit "/app/temp/audio_0_boosted.txt" =
     Some (lit "written beside the converted file") /\
   (transcribe Scenario.converted_sidecar_only Scenario.saved_audio
      (lit "webm") Scenario.converted_audio
      (Spec.world_after
         (Spec.prepare Scenario.converted_sidecar_only Scenario.segment
            Scenario.webm) Scenario.fresh)).1 =
     Ok (lit "spoken aloud") /\
   ~ Spec.prefers_sibling_of_transcribed Scenario.converted_sidecar_only
       Scenario.saved_audio (lit "webm") Scenario.converted_audio
       (Spec.world_after
          (Spec.prepare Scenario.converted_sidecar_only Scenario.segment
             Scenario.webm) Scenario.fresh)) /\
  ((Spec.prepare Scenario.in_webm_directory Scenario.segment Scenario.webm
      Scenario.fresh).1 =
     Ok (lit "/srv/my.webm/temp/audio_0.webm", lit "webm",
         lit "/srv/my.webm/temp/audio_0.webm") /\
   Spec.sibling_txt (lit "/srv/my.webm/temp/audio_0.webm") =
     lit "/srv/my.webm/temp/audio_0.txt" /\
   transcriptionFile_of (lit "/srv/my.webm/temp/audio_0.webm") (lit "webm") =
     lit "/srv/my.txt/temp/audio_0.webm" /\
   fs (Spec.world_after
         (transcribe Scenario.in_webm_directory
            (lit "/srv/my.webm/temp/audio_0.webm") (lit "webm")
            (lit "/srv/my.webm/temp/audio_0.webm"))
         (Spec.world_after
            (Spec.prepare Scenario.in_webm_directory Scenario.segment
               Scenario.webm) Scenario.fresh))
     !! lit "/srv/my.webm/temp/audio_0.txt" =
     Some (lit "written beside the saved file") /\
   (transcribe Scenario.in_webm_directory
      (lit "/srv/my.webm/temp/audio_0.webm") (lit "webm")
      (lit "/srv/my.webm/temp/audio_0.webm")
      (Spec.world_after
         (Spec.prepare Scenario.in_webm_directory Scenario.segment
            Scenario.webm) Scenario.fresh)).1 =
     Ok (lit "spoken aloud")).
Proof.
  split.
  - repeat split; try (vm_compute; reflexivity).
    intros Hprefers.
    specialize (Hprefers (lit "written beside the converted file")).
    vm_compute in Hprefers.
    specialize (Hprefers eq_refl ltac:(discriminate)).
    discriminate Hprefers.
  - repeat split; vm_compute; reflexivity.
Qed.

(** C8. A segment of type webm on a machine where everything works: the
    method returns the server's answer, and of the files it created the
    saved audio, the text file and the request are gone, but the converted
    audio is still in the temporary directory: nothing in the method removes
    it.  Run where none of the three files can be removed, the method
    returns the same answer. *)
Theorem converted_audio_is_left_behind :
  (analyzeAudioFromBase64 Scenario.healthy Scenario.segment Scenario.webm
     Scenario.fresh).1 =
    Ok {| text := Some (JString (lit "answer")); timestamp := 15 |} /\
  map_to_list
    (fs (Spec.world_after
           (analyzeAudioFromBase64 Scenario.healthy Scenario.segment
              Scenario.webm) Scenario.fresh)) =
    [(Scenario.converted_audio, lit "RIFF")] /\
  (analyzeAudioFromBase64 Scenario.healthy Scenario.segment Scenario.webm
     Scenario.read_only_temp).1 =
    Ok {| text := Some (JString (lit "answer")); timestamp := 15 |}.
Proof.
  repeat split; vm_compute; reflexivity.
Qed.

End PipelineScenarios.
(* ===================================================================== *)
(** * Calibration and voice activity *)
(* ===================================================================== *)

Section VoiceActivity.
Import QueueCommands.

(** ** What the recorder methods leave alone *)

Lemma MediaRecorder_stop_refs (rec : nat) (s s' : Session) :
  MediaRecorder_stop rec s = Some s' ->
  mediaRecorderRef s' = mediaRecorderRef s /\
  chunks s' = chunks s /\
  silenceStartRef s' = silenceStartRef s /\
  isSpeakingRef s' = isSpeakingRef s /\
  noiseFloorRef s' = noiseFloorRef s /\
  stopInFlightRef s' = stopInFlightRef s /\
  sessionActiveRef s' = sessionActiveRef s /\
  streamRef s' = streamRef s /\
  meterRafRef s' = meterRafRef s /\
  dispatched s' = dispatched s.
Proof.
  unfold MediaRecorder_stop. intros H.
  destruct (recorders s !! rec) as [r|]; [|discriminate].
  destruct (state r); [discriminate| |]; injection H as <-; now cbn.
Qed.

Lemma MediaRecorder_stop_recording (rec : nat) (s : Session) :
  state_of rec s = Some recording ->
  exists r,
    recorders s !! rec = Some r /\ state r = recording /\
    MediaRecorder_stop rec s =
    Some (set_stopCalls (stopCalls s ++ [rec])
            (set_tasks
               (tasks s ++ [FireDataAvailable rec (gathered r); FireStop rec])
               (set_recorders
                  (<[rec := {| state := inactive; gathered := [] |}]>
                     (recorders s)) s))).
Proof.
  unfold state_of, MediaRecorder_stop. intros H.
  destruct (recorders s !! rec) as [r|]; [|discriminate].
  cbn in H. injection H as H. exists r. now rewrite H.
Qed.

(** A recorder just created starts without an exception. *)
Lemma MediaRecorder_start_created (s : Session) (before : list MediaRecorder) :
  recorders s = before ++ [{| state := inactive; gathered := [] |}] ->
  MediaRecorder_start true (length before) s =
  Some (set_tasks (tasks s ++ [FireStart (length before)])
          (set_recorders
             (before ++ [{| state := recording; gathered := [] |}]) s)).
Proof.
  intros Hcreated. unfold MediaRecorder_start. cbv iota. rewrite Hcreated.
  rewrite lookup_app_r, Nat.sub_diag by lia. cbn.
  rewrite insert_app_r_alt, Nat.sub_diag by lia. reflexivity.
Qed.

(** The stop request of the tick never throws: it calls [stop] only on a
    recorder it has just seen recording. *)
Lemma requestStop_total (s : Session) :
  exists s', requestStop s = Some s'.
Proof.
  unfold requestStop. destruct (stopInFlightRef s); cbn [negb]; [eauto|].
  destruct (mediaRecorderRef s) as [rec|]; [|eauto].
  case_bool_decide as Hrec; [|eauto].
  destruct (MediaRecorder_stop_recording rec (set_stopInFlight true s))
    as (r & _ & _ & ->); [exact Hrec|eauto].
Qed.

Lemma requestStop_refs (s s' : Session) :
  requestStop s = Some s' ->
  mediaRecorderRef s' = mediaRecorderRef s /\
  chunks s' = chunks s /\
  silenceStartRef s' = silenceStartRef s /\
  isSpeakingRef s' = isSpeakingRef s /\
  noiseFloorRef s' = noiseFloorRef s /\
  sessionActiveRef s' = sessionActiveRef s /\
  streamRef s' = streamRef s /\
  meterRafRef s' = meterRafRef s /\
  dispatched s' = dispatched s.
Proof.
  unfold requestStop. intros H.
  destruct (stopInFlightRef s); cbn [negb] in H;
    [injection H as <-; now repeat split|].
  destruct (mediaRecorderRef s) as [rec|] eqn:Hrec;
    [|injection H as <-; now repeat split].
  case_bool_decide; [|injection H as <-; now repeat split].
  apply MediaRecorder_stop_refs in H. cbn in H. rewrite Hrec in H. tauto.
Qed.

(** ** One tick *)

(** The tick in the shape of its three outcomes. *)
Lemma tick_cases (rms now startTs : float) (s : Session) :
  meterRafRef s = Some startTs ->
  let s0 := calibrate startTs rms now s in
  if Spec.above_threshold rms now s then
    tick rms now s = set_silenceStart None (set_isSpeaking true s0)
  else if isSpeakingRef s then
    match silenceStartRef s with
    | None => tick rms now s = set_silenceStart (Some now) s0
    | Some since =>
        if (SILENCE_DURATION_MS <=? now - since)%float then
          exists s', requestStop s0 = Some s' /\
            tick rms now s = set_isSpeaking false (set_silenceStart None s')
        else tick rms now s = s0
    end
  else tick rms now s = s0.
Proof.
  intros Hloop s0. unfold Spec.above_threshold, tick. rewrite Hloop.
  fold s0.
  assert (Hspeak : isSpeakingRef s0 = isSpeakingRef s)
    by (unfold s0, calibrate; now destruct (in_calibration _ _)).
  assert (Hsince : silenceStartRef s0 = silenceStartRef s)
    by (unfold s0, calibrate; now destruct (in_calibration _ _)).
  rewrite Hspeak, Hsince.
  destruct (_ <? rms)%float; [reflexivity|].
  destruct (isSpeakingRef s); [|reflexivity].
  destruct (silenceStartRef s) as [since|]; [|reflexivity].
  destruct (_ <=? _)%float; [|reflexivity].
  destruct (requestStop_total s0) as [s' Hs']. exists s'. now rewrite Hs'.
Qed.

Lemma tick_idle (rms now : float) (s : Session) :
  meterRafRef s = None -> tick rms now s = s.
Proof. unfold tick. now intros ->. Qed.

Lemma calibrate_noiseFloor (startTs rms now : float) (s : Session) :
  noiseFloorRef (calibrate startTs rms now s) =
  if in_calibration startTs now
  then Some (Spec.smoothed (noiseFloorRef s) rms)
  else noiseFloorRef s.
Proof. unfold calibrate. now destruct (in_calibration _ _). Qed.

Lemma calibrate_meterRaf (startTs rms now : float) (s : Session) :
  meterRafRef (calibrate startTs rms now s) = meterRafRef s.
Proof. unfold calibrate. now destruct (in_calibration _ _). Qed.

Lemma tick_noiseFloor (rms now startTs : float) (s : Session) :
  meterRafRef s = Some startTs ->
  noiseFloorRef (tick rms now s) =
  if in_calibration startTs now
  then Some (Spec.smoothed (noiseFloorRef s) rms)
  else noiseFloorRef s.
Proof.
  intros Hloop. rewrite <- calibrate_noiseFloor.
  pose proof (tick_cases rms now startTs s Hloop) as H. cbv zeta in H.
  destruct (Spec.above_threshold rms now s); [now rewrite H|].
  destruct (isSpeakingRef s); [|now rewrite H].
  destruct (silenceStartRef s); [|now rewrite H].
  destruct (_ <=? _)%float; [|now rewrite H].
  destruct H as (s' & Hs' & ->). cbn.
  now apply requestStop_refs in Hs'.
Qed.

Lemma tick_meterRaf (rms now : float) (s : Session) :
  meterRafRef (tick rms now s) = meterRafRef s.
Proof.
  destruct (meterRafRef s) as [startTs|] eqn:Hloop;
    [|now rewrite tick_idle].
  rewrite <- Hloop, <- (calibrate_meterRaf startTs rms now s).
  pose proof (tick_cases rms now startTs s Hloop) as H. cbv zeta in H.
  destruct (Spec.above_threshold rms now s); [now rewrite H|].
  destruct (isSpeakingRef s); [|now rewrite H].
  destruct (silenceStartRef s); [|now rewrite H].
  destruct (_ <=? _)%float; [|now rewrite H].
  destruct H as (s' & Hs' & ->). cbn.
  now apply requestStop_refs in Hs'.
Qed.

(** What a tick does to the speaking flag and the silence timer. *)
Lemma tick_vad (rms now startTs : float) (s : Session) :
  meterRafRef s = Some startTs ->
  (isSpeakingRef (tick rms now s), silenceStartRef (tick rms now s)) =
  if Spec.above_threshold rms now s then (true, None)
  else if isSpeakingRef s then
    match silenceStartRef s with
    | None => (true, Some now)
    | Some since =>
        if (SILENCE_DURATION_MS <=? now - since)%float then (false, None)
        else (true, Some since)
    end
  else (false, silenceStartRef s).
Proof.
  intros Hloop.
  pose proof (tick_cases rms now startTs s Hloop) as H. cbv zeta in H.
  assert (Hspeak : isSpeakingRef (calibrate startTs rms now s) = isSpeakingRef s)
    by (unfold calibrate; now destruct (in_calibration _ _)).
  assert (Hsince : silenceStartRef (calibrate startTs rms now s) =
                   silenceStartRef s)
    by (unfold calibrate; now destruct (in_calibration _ _)).
  destruct (Spec.above_threshold rms now s); [now rewrite H|].
  destruct (isSpeakingRef s) eqn:Hs.
  - destruct (silenceStartRef s) as [since|] eqn:Ht.
    + destruct (_ <=? _)%float.
      * destruct H as (s' & _ & ->). reflexivity.
      * rewrite H. now rewrite Hspeak, Hsince.
    + rewrite H. cbn. now rewrite Hspeak.
  - rewrite H. now rewrite Hspeak, Hsince.
Qed.

Lemma above_threshold_loop (rms now : float) (s : Session) :
  Spec.above_threshold rms now s = true ->
  exists startTs, meterRafRef s = Some startTs.
Proof.
  unfold Spec.above_threshold.
  destruct (meterRafRef s) as [startTs|]; [eauto|discriminate].
Qed.

Lemma run_ticks_meterRaf (ticks : list (float * float)) (s : Session) :
  meterRafRef (Spec.run_ticks ticks s) = meterRafRef s.
Proof.
  revert s. induction ticks as [|t ticks IH]; intros s; [reflexivity|].
  cbn. unfold Spec.run_ticks in IH. now rewrite IH, tick_meterRaf.
Qed.

(** Without a tick above the threshold, Silent stays Silent. *)
Lemma quiet_stays_silent (quiet : list (float * float)) (s : Session) :
  Spec.quiet_run s quiet ->
  isSpeakingRef s = false ->
  isSpeakingRef (Spec.run_ticks quiet s) = false.
Proof.
  revert s. induction quiet as [|t quiet IH]; intros s Hquiet Hsilent;
    [exact Hsilent|].
  destruct Hquiet as [Hbelow Hquiet]. cbn. apply IH; [exact Hquiet|].
  destruct (meterRafRef s) as [startTs|] eqn:Hloop;
    [|now rewrite tick_idle].
  pose proof (tick_vad t.1 t.2 startTs s Hloop) as H.
  rewrite Hbelow, Hsilent in H. now injection H.
Qed.

(** While the state stays Speaking through a quiet run, an armed silence
    timer keeps the time of the first quiet tick. *)
Lemma quiet_keeps_timer (quiet : list (float * float)) (s : Session)
    (since : float) :
  Spec.quiet_run s quiet ->
  silenceStartRef s = Some since ->
  isSpeakingRef (Spec.run_ticks quiet s) = true ->
  silenceStartRef (Spec.run_ticks quiet s) = Some since.
Proof.
  revert s. induction quiet as [|t quiet IH]; intros s Hquiet Harmed Hspeaks;
    [exact Harmed|].
  destruct Hquiet as [Hbelow Hquiet]. cbn in *.
  apply IH; [exact Hquiet| |exact Hspeaks].
  destruct (meterRafRef s) as [startTs|] eqn:Hloop;
    [|now rewrite tick_idle].
  pose proof (tick_vad t.1 t.2 startTs s Hloop) as H.
  rewrite Hbelow, Harmed in H.
  destruct (isSpeakingRef s).
  - destruct (_ <=? _)%float; [|now injection H].
    injection H as Hsilent _.
    pose proof (quiet_stays_silent quiet _ Hquiet Hsilent) as Hno.
    unfold Spec.run_ticks in Hno. congruence.
  - injection H as Hsilent _.
    pose proof (quiet_stays_silent quiet _ Hquiet Hsilent) as Hno.
    unfold Spec.run_ticks in Hno. congruence.
Qed.

Lemma tick_stopCalls (rms now : float) (s : Session) :
  stopCalls (tick rms now s) =
  match mediaRecorderRef s with
  | Some rec =>
      if isSpeakingRef s && negb (isSpeakingRef (tick rms now s)) &&
         negb (stopInFlightRef s) &&
         bool_decide (state_of rec s = Some recording)
      then stopCalls s ++ [rec]
      else stopCalls s
  | None => stopCalls s
  end.
Proof.
  destruct (meterRafRef s) as [startTs|] eqn:Hloop.
  2:{ rewrite tick_idle by exact Hloop.
      destruct (mediaRecorderRef s); [|reflexivity].
      now destruct (isSpeakingRef s). }
  pose proof (tick_vad rms now startTs s Hloop) as Hvad.
  pose proof (tick_cases rms now startTs s Hloop) as H. cbv zeta in H.
  assert (Hcal : forall A (f : Session -> A),
             (forall v s0, f (set_noiseFloor v s0) = f s0) ->
             f (calibrate startTs rms now s) = f s).
  { intros A f Hf. unfold calibrate. destruct (in_calibration _ _); eauto. }
  destruct (Spec.above_threshold rms now s).
  { injection Hvad as -> _. rewrite H. cbn.
    rewrite (Hcal _ stopCalls) by reflexivity.
    destruct (mediaRecorderRef s); [|reflexivity].
    now rewrite andb_false_r. }
  destruct (isSpeakingRef s) eqn:Hs.
  2:{ rewrite H, (Hcal _ stopCalls) by reflexivity.
      now destruct (mediaRecorderRef s). }
  destruct (silenceStartRef s) as [since|].
  2:{ injection Hvad as -> _. rewrite H. cbn.
      rewrite (Hcal _ stopCalls) by reflexivity.
      now destruct (mediaRecorderRef s). }
  destruct (_ <=? _)%float.
  2:{ injection Hvad as -> _. rewrite H.
      rewrite (Hcal _ stopCalls) by reflexivity.
      now destruct (mediaRecorderRef s). }
  injection Hvad as -> _. destruct H as (s' & Hs' & ->). cbn.
  unfold requestStop in Hs'.
  rewrite (Hcal _ stopInFlightRef), (Hcal _ mediaRecorderRef) in Hs'
    by reflexivity.
  destruct (stopInFlightRef s); cbn [negb] in Hs'.
  { injection Hs' as <-. rewrite (Hcal _ stopCalls) by reflexivity.
    destruct (mediaRecorderRef s); [|reflexivity]. reflexivity. }
  destruct (mediaRecorderRef s) as [rec|].
  2:{ injection Hs' as <-. now rewrite (Hcal _ stopCalls). }
  assert (Hstate : state_of rec (calibrate startTs rms now s) = state_of rec s).
  { apply (Hcal _ (state_of rec)). reflexivity. }
  rewrite Hstate in Hs'.
  case_bool_decide as Hrec.
  2:{ injection Hs' as <-. now rewrite (Hcal _ stopCalls). }
  destruct (MediaRecorder_stop_recording rec
              (set_stopInFlight true (calibrate startTs rms now s)))
    as (r & _ & _ & Hstop).
  { unfold state_of in *. cbn. unfold state_of in Hstate.
    now rewrite Hstate. }
  rewrite Hstop in Hs'. injection Hs' as <-. cbn.
  now rewrite (Hcal _ stopCalls).
Qed.

(** ** The threshold *)

Lemma SFcompare_refl (f : spec_float) :
  f <> S754_nan -> SFcompare f f = Some Eq.
Proof.
  destruct f as [s|s| |s m e]; intros Hf; try congruence.
  - reflexivity.
  - now destruct s.
  - unfold SFcompare.
    assert (He : (e ?= e)%Z = Eq) by apply Z.compare_refl.
    assert (Hm : Pos.compare_cont Eq m m = Eq) by apply Pos.compare_refl.
    destruct s; rewrite He, Hm; reflexivity.
Qed.

(** Nothing is below a value that is not a number. *)
Lemma ltb_not_nan (a b : float) :
  (a <? b)%float = true -> PrimFloat.is_nan b = false.
Proof.
  intros H. rewrite ltb_spec in H.
  unfold PrimFloat.is_nan. rewrite FloatAxioms.eqb_spec. unfold SFeqb.
  rewrite SFcompare_refl; [reflexivity|].
  intros Hnan. rewrite Hnan in H. unfold SFltb, SFcompare in H.
  now destruct (Prim2SF a).
Qed.

(** The threshold is the larger of 0.002 and twice the noise floor, in the
    order of the numbers: twice the floor when that is above 0.002, and
    0.002 when it is not.  When twice the floor is not a number, neither is
    the threshold, and no reading is above it. *)
Lemma threshold_is_max (s : Session) :
  let twice := (default 0.001 (noiseFloorRef s) * 2.0)%float in
  ((0.002 <? twice)%float = true -> threshold_of s = twice) /\
  ((0.002 <? twice)%float = false -> PrimFloat.is_nan twice = false ->
   threshold_of s = 0.002%float) /\
  (PrimFloat.is_nan twice = true ->
   forall rms : float, (threshold_of s <? rms)%float = false).
Proof.
  intros twice. unfold threshold_of, Math_max.
  change MIN_THRESHOLD_RMS with 0.002%float.
  change NOISE_MULTIPLIER with 2.0%float.
  fold twice.
  change (PrimFloat.is_nan 0.002) with false.
  change (1 / 0.002 <? 0)%float with false. cbn [orb].
  split; [|split].
  - intros Habove. now rewrite (ltb_not_nan _ _ Habove), Habove.
  - intros Hbelow Hnumber. rewrite Hnumber, Hbelow.
    now destruct (twice <? 0.002)%float.
  - intros Hnan rms. rewrite Hnan. rewrite ltb_spec. reflexivity.
Qed.

(** ** What the other handlers do to the speaking flag *)

Ltac through_handlers :=
  unfold handleManualFlush, stopRecording, capture, timeslice, deliver,
    onstart, ondataavailable, onstop, onstop_finally, onstop_try,
    sendAudioForAnalysis, createMediaRecorder, MediaRecorder_start,
    MediaRecorder_stop;
  repeat case_match; simplify_eq; cbn; try reflexivity.

Lemma handleManualFlush_isSpeaking (s : Session) :
  isSpeakingRef (handleManualFlush s) = isSpeakingRef s.
Proof. through_handlers. Qed.

Lemma timeslice_isSpeaking (rec : nat) (s : Session) :
  isSpeakingRef (timeslice rec s) = isSpeakingRef s.
Proof. through_handlers. Qed.

Lemma onstop_isSpeaking (accepts : bool) (s : Session) :
  isSpeakingRef (onstop accepts s) = isSpeakingRef s.
Proof. through_handlers. Qed.

Lemma ondataavailable_isSpeaking (data : list N) (s : Session) :
  isSpeakingRef (ondataavailable data s) = isSpeakingRef s.
Proof. through_handlers. Qed.

(** Delivering an event leaves Speaking exactly when the event is the
    [start] of a recorder. *)
Lemma deliver_isSpeaking (accepts : bool) (s : Session) :
  isSpeakingRef s = true ->
  (isSpeakingRef (deliver accepts s) = false <->
   exists rec rest, tasks s = FireStart rec :: rest).
Proof.
  intros Hspeak. unfold deliver.
  destruct (tasks s) as [|t rest].
  - rewrite Hspeak. split; [discriminate|intros (? & ? & [=])].
  - destruct t as [rec|rec data|rec].
    + split; [eauto|reflexivity].
    + rewrite ondataavailable_isSpeaking. cbn. rewrite Hspeak.
      split; [discriminate|intros (? & ? & [=])].
    + rewrite onstop_isSpeaking. cbn. rewrite Hspeak.
      split; [discriminate|intros (? & ? & [=])].
Qed.

(** C2 (amended). The threshold is the larger of 0.002 and twice the noise
    floor (0.001 where none is calibrated yet): twice the floor when that
    is above 0.002, and 0.002 otherwise.  A tick above it sets Speaking,
    resets the silence timer to none and stops nothing.  From Speaking, a
    tick moves to Silent exactly when it is not above the threshold and the
    silence timer, armed by the first tick of the current unbroken run of
    ticks at or below the threshold, is at least 1500 ms old: after a tick
    above the threshold and any run of quiet ticks that left the state
    Speaking, the next quiet tick makes the transition if and only if the
    run is not empty and at least 1500 ms lie between its first tick and
    this one.  [stop] is called on the recorder by a tick only on that
    transition, and then whenever no stop is in flight and the current
    recorder is recording.  Of the other inputs, two leave Speaking as
    well, with no silence needed: [stopRecording], and the delivery of the
    [start] event of a recorder. *)
Theorem vad_silence_transition :
  (forall s : Session,
      threshold_of s =
      Math_max 0.002 (default 0.001 (noiseFloorRef s) * 2.0)%float) /\
  (forall s : Session,
      let twice := (default 0.001 (noiseFloorRef s) * 2.0)%float in
      ((0.002 <? twice)%float = true -> threshold_of s = twice) /\
      ((0.002 <? twice)%float = false -> PrimFloat.is_nan twice = false ->
       threshold_of s = 0.002%float) /\
      (PrimFloat.is_nan twice = true ->
       forall rms : float, (threshold_of s <? rms)%float = false)) /\
  (forall (rms now : float) (s : Session),
      Spec.above_threshold rms now s = true ->
      isSpeakingRef (tick rms now s) = true /\
      silenceStartRef (tick rms now s) = None /\
      stopCalls (tick rms now s) = stopCalls s) /\
  (forall (rms now startTs : float) (s : Session),
      meterRafRef s = Some startTs ->
      isSpeakingRef s = true ->
      (isSpeakingRef (tick rms now s) = false <->
       Spec.above_threshold rms now s = false /\
       exists since,
         silenceStartRef s = Some since /\
         (1500 <=? now - since)%float = true)) /\
  (forall (rms0 now0 rms now : float) (quiet : list (float * float))
          (s : Session),
      Spec.above_threshold rms0 now0 s = true ->
      Spec.quiet_run (tick rms0 now0 s) quiet ->
      isSpeakingRef (Spec.run_ticks quiet (tick rms0 now0 s)) = true ->
      Spec.above_threshold rms now
        (Spec.run_ticks quiet (tick rms0 now0 s)) = false ->
      (isSpeakingRef
         (tick rms now (Spec.run_ticks quiet (tick rms0 now0 s))) = false <->
       exists first rest,
         quiet = first :: rest /\ (1500 <=? now - first.2)%float = true)) /\
  (forall (rms now : float) (s : Session),
      stopCalls (tick rms now s) =
      match mediaRecorderRef s with
      | Some rec =>
          if isSpeakingRef s && negb (isSpeakingRef (tick rms now s)) &&
             negb (stopInFlightRef s) &&
             bool_decide (state_of rec s = Some recording)
          then stopCalls s ++ [rec]
          else stopCalls s
      | None => stopCalls s
      end) /\
  (forall (i : Input) (s : Session),
      isSpeakingRef s = true ->
      (isSpeakingRef (step i s) = false <->
       match i with
       | Tick rms now =>
           is_Some (meterRafRef s) /\
           Spec.above_threshold rms now s = false /\
           exists since,
             silenceStartRef s = Some since /\
             (1500 <=? now - since)%float = true
       | StopClick => True
       | Deliver | DeliverRefused =>
           exists rec rest, tasks s = FireStart rec :: rest
       | ManualFlush | Capture _ | Timeslice _ => False
       end)).
Proof.
  assert (Hstep : forall (rms now startTs : float) (s : Session),
      meterRafRef s = Some startTs ->
      isSpeakingRef s = true ->
      (isSpeakingRef (tick rms now s) = false <->
       Spec.above_threshold rms now s = false /\
       exists since,
         silenceStartRef s = Some since /\
         (1500 <=? now - since)%float = true)).
  { intros rms now startTs s Hloop Hspeak.
    pose proof (tick_vad rms now startTs s Hloop) as H.
    rewrite Hspeak in H. change SILENCE_DURATION_MS with 1500%float in H.
    destruct (Spec.above_threshold rms now s).
    { injection H as -> _. split; [discriminate|now intros [? _]]. }
    destruct (silenceStartRef s) as [since|].
    - destruct (1500 <=? now - since)%float eqn:Hold; injection H as -> _.
      + split; [eauto|reflexivity].
      + split; [discriminate|].
        intros (_ & since' & [= <-] & Hold'). congruence.
    - injection H as -> _. split; [discriminate|].
      now intros (_ & since' & Hnone & _). }
  split; [reflexivity|]. split; [exact threshold_is_max|].
  split; [|split; [exact Hstep|split; [|split]]].
  - intros rms now s Habove.
    destruct (above_threshold_loop _ _ _ Habove) as [startTs Hloop].
    pose proof (tick_vad rms now startTs s Hloop) as H.
    rewrite Habove in H. injection H as -> ->.
    repeat split. rewrite tick_stopCalls.
    destruct (mediaRecorderRef s); [|reflexivity].
    pose proof (tick_vad rms now startTs s Hloop) as H.
    rewrite Habove in H. injection H as -> _.
    now rewrite andb_false_r.
  - intros rms0 now0 rms now quiet s Habove Hquiet Hspeaks Hbelow.
    destruct (above_threshold_loop _ _ _ Habove) as [startTs Hloop].
    pose proof (tick_vad rms0 now0 startTs s Hloop) as Hentered.
    rewrite Habove in Hentered. injection Hentered as Hs1 Ht1.
    set (s1 := tick rms0 now0 s) in *.
    assert (Hloop1 : meterRafRef s1 = Some startTs)
      by (unfold s1; now rewrite tick_meterRaf).
    set (s2 := Spec.run_ticks quiet s1) in *.
    assert (Hloop2 : meterRafRef s2 = Some startTs)
      by (unfold s2; now rewrite run_ticks_meterRaf).
    rewrite (Hstep rms now startTs s2 Hloop2 Hspeaks).
    destruct quiet as [|first rest].
    + cbn in s2. split.
      * intros (_ & since & Harmed & _). unfold s2 in Harmed. congruence.
      * intros (first & rest & Hnil & _). discriminate.
    + destruct Hquiet as [Hfirst Hrest].
      pose proof (tick_vad first.1 first.2 startTs s1 Hloop1) as Harm.
      rewrite Hfirst, Hs1, Ht1 in Harm. injection Harm as _ Harm.
      assert (Harmed : silenceStartRef s2 = Some first.2).
      { unfold s2. cbn.
        apply (quiet_keeps_timer rest (tick first.1 first.2 s1));
          [exact Hrest|exact Harm|exact Hspeaks]. }
      split.
      * intros (_ & since & Hsince & Hold). exists first, rest.
        split; [reflexivity|]. congruence.
      * intros (first' & rest' & [= <- <-] & Hold).
        split; [exact Hbelow|]. eauto.
  - apply tick_stopCalls.
  - intros i s Hspeak.
    destruct i as [rms now| | |bytes|rec| |]; cbn [step].
    + destruct (meterRafRef s) as [startTs|] eqn:Hloop.
      * rewrite (Hstep rms now startTs s Hloop Hspeak).
        split; [intros [? ?]; eauto|tauto].
      * rewrite tick_idle by exact Hloop. rewrite Hspeak.
        split; [discriminate|intros ([? [=]] & _)].
    + rewrite handleManualFlush_isSpeaking, Hspeak.
      split; [discriminate|intros []].
    + split; [trivial|reflexivity].
    + cbn. rewrite Hspeak. split; [discriminate|intros []].
    + rewrite timeslice_isSpeaking, Hspeak.
      split; [discriminate|intros []].
    + now apply deliver_isSpeaking.
    + now apply deliver_isSpeaking.
Qed.

(** ** The noise floor *)

Lemma untimed_noiseFloor (i : Input) (s : Session) :
  (forall rms now, i <> Tick rms now) ->
  noiseFloorRef (step i s) = noiseFloorRef s.
Proof.
  intros Hi. destruct i as [rms now| | |bytes|rec| |]; cbn [step].
  - now destruct (Hi rms now).
  - through_handlers.
  - through_handlers.
  - through_handlers.
  - through_handlers.
  - through_handlers.
  - through_handlers.
Qed.

Lemma step_meterRaf (i : Input) (s : Session) :
  meterRafRef (step i s) = meterRafRef s \/ meterRafRef (step i s) = None.
Proof.
  destruct i as [rms now| | |bytes|rec| |]; cbn [step].
  - left. apply tick_meterRaf.
  - left. through_handlers.
  - right. through_handlers.
  - left. through_handlers.
  - left. through_handlers.
  - left. through_handlers.
  - left. through_handlers.
Qed.

Lemma step_noiseFloor (i : Input) (s : Session) :
  noiseFloorRef (step i s) =
  match i, meterRafRef s with
  | Tick rms now, Some startTs =>
      if in_calibration startTs now
      then Some (Spec.smoothed (noiseFloorRef s) rms)
      else noiseFloorRef s
  | _, _ => noiseFloorRef s
  end.
Proof.
  destruct i as [rms now| | |bytes|rec| |];
    try (rewrite untimed_noiseFloor by discriminate;
         now destruct (meterRafRef s)).
  cbn [step]. destruct (meterRafRef s) as [startTs|] eqn:Hloop.
  - now apply tick_noiseFloor.
  - now rewrite tick_idle.
Qed.

(** C4. The noise floor is changed by one kind of input only: a tick whose
    time since session start is below 800 ms.  Such a tick stores the
    sample itself when no floor is set yet, and 0.9 times the floor plus 0.1
    times the sample otherwise.  Hence over any sequence of inputs none of
    which is a tick inside the window, the floor at the end is the floor at
    the beginning. *)
Theorem noise_floor_moves_only_in_window :
  (forall (startTs now : float),
      in_calibration startTs now = (now - startTs <? 800)%float) /\
  (forall (rms old : float),
      Spec.smoothed None rms = rms /\
      Spec.smoothed (Some old) rms = (old * 0.9 + rms * 0.1)%float) /\
  (forall (i : Input) (s : Session),
      noiseFloorRef (step i s) =
      match i, meterRafRef s with
      | Tick rms now, Some startTs =>
          if in_calibration startTs now
          then Some (Spec.smoothed (noiseFloorRef s) rms)
          else noiseFloorRef s
      | _, _ => noiseFloorRef s
      end) /\
  (forall (startTs : float) (inputs : list Input) (s : Session),
      meterRafRef s = Some startTs ->
      Forall (Spec.outside_window startTs) inputs ->
      noiseFloorRef (run inputs s) = noiseFloorRef s).
Proof.
  split; [reflexivity|]. split; [now split|]. split; [exact step_noiseFloor|].
  intros startTs inputs s Hloop Hclosed.
  assert (Hgen : forall s,
             meterRafRef s = Some startTs \/ meterRafRef s = None ->
             noiseFloorRef (run inputs s) = noiseFloorRef s).
  { clear s Hloop.
    induction Hclosed as [|i inputs Hi _ IH]; intros s Hloop; [reflexivity|].
    cbn [run fold_left]. fold (run inputs (step i s)). rewrite IH.
    - rewrite step_noiseFloor.
      destruct i as [rms now| | |bytes|rec| |];
        try now destruct (meterRafRef s).
      destruct Hloop as [-> | ->]; [|reflexivity].
      change (in_calibration startTs now = false) in Hi. now rewrite Hi.
    - destruct (step_meterRaf i s) as [-> | ->]; [exact Hloop|now right]. }
  apply Hgen. now left.
Qed.

Lemma noise_floor_moves_only_in_window_witness :
  noiseFloorRef
    (run [Tick 0.5%float 900%float; ManualFlush; Deliver;
          Tick 0.7%float 1200%float] Scenario.calibrated) =
  Some 0.001%float.
Proof.
  apply (proj2 (proj2 (proj2 noise_floor_moves_only_in_window)) 0%float).
  - reflexivity.
  - repeat constructor.
Defined.

Lemma vad_silence_transition_witness :
  isSpeakingRef
    (tick 0.0001%float 2500%float
       (Spec.run_ticks Scenario.two_quiet_frames
          (tick 0.01%float 900%float Scenario.calibrated))) = false.
Proof.
  apply (proj1 (proj2 (proj2 (proj2 (proj2 vad_silence_transition))))
           0.01%float 900%float 0.0001%float 2500%float
           Scenario.two_quiet_frames Scenario.calibrated).
  - reflexivity.
  - repeat split.
  - reflexivity.
  - reflexivity.
  - exists (0.0001%float, 1000%float), [(0.0001%float, 1700%float)].
    split; reflexivity.
Defined.

(** The silence is timed from the first quiet tick, not from the last
    loud one: with a loud tick at 900 ms and quiet ticks from 916 ms on, the
    tick at 2400 ms comes 1500 ms after the last loud tick and yet leaves
    the state Speaking; the tick at 2416 ms makes the transition.  And
    Speaking is left with no silence at all when a recorder starts: after
    a manual flush, the [start] event of the replacement recorder resets
    the state to Silent. *)
Lemma silence_is_timed_from_first_quiet_tick :
  (isSpeakingRef (tick 0.01%float 900%float Scenario.calibrated) = true /\
   Spec.above_threshold 0.0001%float 916%float
     (tick 0.01%float 900%float Scenario.calibrated) = false /\
   Spec.above_threshold 0.0001%float 2400%float
     (tick 0.0001%float 916%float
        (tick 0.01%float 900%float Scenario.calibrated)) = false /\
   (1500 <=? 2400 - 900)%float = true /\
   isSpeakingRef
     (tick 0.0001%float 2400%float
        (tick 0.0001%float 916%float
           (tick 0.01%float 900%float Scenario.calibrated))) = true /\
   isSpeakingRef
     (tick 0.0001%float 2416%float
        (tick 0.0001%float 916%float
           (tick 0.01%float 900%float Scenario.calibrated))) = false) /\
  (isSpeakingRef
     (run [Deliver; Tick 0.001%float 16%float; Tick 0.01%float 900%float]
        (startRecording 0%float mounted)) = true /\
   isSpeakingRef
     (run [Deliver; Tick 0.001%float 16%float; Tick 0.01%float 900%float;
           ManualFlush; Deliver; Deliver; Deliver]
        (startRecording 0%float mounted)) = false).
Proof. repeat split. Qed.

(** Ten frames of silence at 0.0005 never reach Speaking, whatever the
    level calibration settles on, because the threshold is never below
    0.002. *)
Example silence_never_speaks :
  isSpeakingRef
    (Spec.run_ticks
       (map (fun now => (0.0005%float, now))
          [16; 32; 48; 64; 80; 96; 112; 128; 144; 160]%float)
       (startRecording 0%float mounted)) = false.
Proof. reflexivity. Qed.

(** With the floor calibrated at 0.001, a frame at 0.01 is speech; 1500 ms
    of quiet frames after it stop the recorder, once. *)
Example speech_then_silence_stops_once :
  isSpeakingRef (tick 0.01%float 900%float Scenario.calibrated) = true /\
  stopCalls
    (tick 0.0001%float 2500%float
       (Spec.run_ticks Scenario.two_quiet_frames
          (tick 0.01%float 900%float Scenario.calibrated))) = [0%nat].
Proof. split; reflexivity. Qed.

End VoiceActivity.
(* ===================================================================== *)
(** * The recording session *)
(* ===================================================================== *)

Section RecordingSession.
Import QueueCommands.
Local Open Scope nat_scope.

(** ** Manual flush *)

Lemma stops_pending_app (a b : list Task) :
  Spec.stops_pending (a ++ b) = Spec.stops_pending a + Spec.stops_pending b.
Proof.
  induction a as [|t a IH]; [reflexivity|].
  destruct t; cbn; now rewrite IH.
Qed.

Lemma handleManualFlush_recording (rec : nat) (s : Session) :
  mediaRecorderRef s = Some rec ->
  state_of rec s = Some recording ->
  stopInFlightRef s = false ->
  exists r,
    recorders s !! rec = Some r /\
    handleManualFlush s =
    set_stopCalls (stopCalls s ++ [rec])
      (set_tasks
         (tasks s ++ [FireDataAvailable rec (gathered r); FireStop rec])
         (set_recorders
            (<[rec := {| state := inactive; gathered := [] |}]> (recorders s))
            (set_stopInFlight true s))).
Proof.
  intros Href Hrec Hflight. unfold handleManualFlush.
  rewrite Href, Hflight, bool_decide_eq_true_2 by exact Hrec. cbn [negb].
  destruct (MediaRecorder_stop_recording rec (set_stopInFlight true s))
    as (r & Hr & _ & ->); [exact Hrec|].
  exists r. split; [exact Hr|reflexivity].
Qed.

Lemma handleManualFlush_rejected (s : Session) :
  stopInFlightRef s = true \/ is_recording (mediaRecorderRef s) s = false ->
  handleManualFlush s = s.
Proof.
  unfold handleManualFlush, is_recording.
  destruct (mediaRecorderRef s) as [rec|]; [|reflexivity].
  intros [Hflight|Hstate].
  - destruct (negb _); [reflexivity|]. now rewrite Hflight.
  - now rewrite Hstate.
Qed.

(** C3. A manual flush changes nothing when a stop is in flight or when the
    current recorder is missing or not recording.  Hence a second flush
    right after a first one changes nothing; two flushes on a recording
    recorder with no stop in flight call [stop] on it once, queue one [stop]
    event, and leave the recorder inactive with the guard set.  While the
    guard is set a tick calls no [stop] either. *)
Theorem manual_flush_stops_once :
  (forall s : Session,
      stopInFlightRef s = true \/
      is_recording (mediaRecorderRef s) s = false ->
      handleManualFlush s = s) /\
  (forall s : Session,
      handleManualFlush (handleManualFlush s) = handleManualFlush s) /\
  (forall (s : Session) (rec : nat),
      mediaRecorderRef s = Some rec ->
      state_of rec s = Some recording ->
      stopInFlightRef s = false ->
      stopCalls (handleManualFlush (handleManualFlush s)) =
        stopCalls s ++ [rec] /\
      Spec.stops_pending (tasks (handleManualFlush (handleManualFlush s))) =
        S (Spec.stops_pending (tasks s)) /\
      stopInFlightRef (handleManualFlush (handleManualFlush s)) = true /\
      state_of rec (handleManualFlush (handleManualFlush s)) = Some inactive) /\
  (forall (s : Session) (rms now : float),
      stopInFlightRef s = true ->
      stopCalls (tick rms now s) = stopCalls s).
Proof.
  assert (Hsecond : forall s, handleManualFlush (handleManualFlush s) =
                              handleManualFlush s).
  { intros s.
    destruct (mediaRecorderRef s) as [rec|] eqn:Href.
    2:{ unfold handleManualFlush at 2. rewrite Href.
        unfold handleManualFlush. now rewrite Href. }
    destruct (decide (state_of rec s = Some recording)) as [Hrec|Hrec].
    2:{ rewrite (handleManualFlush_rejected s); [|right].
        - apply handleManualFlush_rejected. right.
          unfold is_recording. rewrite Href. now apply bool_decide_eq_false_2.
        - unfold is_recording. rewrite Href. now apply bool_decide_eq_false_2. }
    destruct (stopInFlightRef s) eqn:Hflight.
    { rewrite (handleManualFlush_rejected s) by now left.
      apply handleManualFlush_rejected. now left. }
    destruct (handleManualFlush_recording rec s Href Hrec Hflight)
      as (r & Hr & ->).
    apply handleManualFlush_rejected. now left. }
  split; [exact handleManualFlush_rejected|]. split; [exact Hsecond|]. split.
  - intros s rec Href Hrec Hflight. rewrite Hsecond.
    destruct (handleManualFlush_recording rec s Href Hrec Hflight)
      as (r & Hr & ->).
    cbn. repeat split.
    + rewrite stops_pending_app. cbn. lia.
    + unfold state_of. cbn.
      rewrite list_lookup_insert_eq; [reflexivity|].
      now apply lookup_lt_Some in Hr.
  - intros s rms now Hflight. rewrite tick_stopCalls, Hflight.
    destruct (mediaRecorderRef s); [|reflexivity].
    now rewrite andb_false_r.
Qed.

(** ** Recorders follow one another *)

Lemma serialized_same (s s' : Session) :
  Spec.same_devices s s' -> Spec.serialized s -> Spec.serialized s'.
Proof.
  intros (Href & _ & Hactive & Hstream & Hrecs & Htasks & _).
  unfold Spec.serialized. now rewrite Href, Hactive, Hstream, Hrecs, Htasks.
Qed.

Lemma audio_held_same (s s' : Session) :
  Spec.same_devices s s' -> Spec.audio_held s' = Spec.audio_held s.
Proof.
  intros (_ & Hchunks & _ & _ & Hrecs & Htasks & Hsent).
  unfold Spec.audio_held. now rewrite Hchunks, Hrecs, Htasks, Hsent.
Qed.

Lemma same_devices_refl (s : Session) : Spec.same_devices s s.
Proof. now repeat split. Qed.

Lemma same_devices_trans (s1 s2 s3 : Session) :
  Spec.same_devices s1 s2 -> Spec.same_devices s2 s3 ->
  Spec.same_devices s1 s3.
Proof.
  unfold Spec.same_devices.
  intros (? & ? & ? & ? & ? & ? & ?) (? & ? & ? & ? & ? & ? & ?).
  repeat split; congruence.
Qed.

Lemma idle_gathered (l : list MediaRecorder) :
  Forall Spec.idle l -> concat (gathered <$> l) = [].
Proof.
  induction 1 as [|r l Hr _ IH]; [reflexivity|].
  cbn. now rewrite Hr, IH.
Qed.

Lemma idle_not_recording (l : list MediaRecorder) (i : nat) (r : MediaRecorder) :
  Forall Spec.idle l -> l !! i = Some r -> state r = inactive.
Proof.
  intros Hall Hr. rewrite Forall_lookup in Hall.
  now rewrite (Hall i r Hr).
Qed.

Lemma idle_nobody_recording (l : list MediaRecorder) :
  Forall Spec.idle l ->
  existsb (fun r => bool_decide (state r = recording)) l = false.
Proof.
  induction 1 as [|r l Hr _ IH]; [reflexivity|].
  cbn. now rewrite Hr, IH.
Qed.

Lemma sole_gathered (l : list MediaRecorder) (rec : nat) (r : MediaRecorder) :
  l !! rec = Some r ->
  Forall Spec.idle (take rec l) ->
  Forall Spec.idle (drop (S rec) l) ->
  concat (gathered <$> l) = gathered r.
Proof.
  intros Hr Hbefore Hafter.
  rewrite <- (take_drop_middle l rec r Hr), fmap_app, concat_app.
  rewrite fmap_cons. cbn [concat].
  now rewrite (idle_gathered _ Hbefore), (idle_gathered _ Hafter), app_nil_r.
Qed.

Lemma sole_recorder (l : list MediaRecorder) (rec rec' : nat)
    (r' : MediaRecorder) :
  Forall Spec.idle (take rec l) ->
  Forall Spec.idle (drop (S rec) l) ->
  l !! rec' = Some r' ->
  state r' = recording ->
  rec' = rec.
Proof.
  intros Hbefore Hafter Hr' Hrec.
  destruct (Nat.lt_trichotomy rec' rec) as [Hlt|[Heq|Hgt]]; [|exact Heq|].
  - assert (take rec l !! rec' = Some r') as Hin
      by now rewrite lookup_take_lt.
    pose proof (idle_not_recording _ _ _ Hbefore Hin). congruence.
  - assert (drop (S rec) l !! (rec' - S rec) = Some r') as Hin.
    { rewrite lookup_drop. now replace (S rec + (rec' - S rec)) with rec' by lia. }
    pose proof (idle_not_recording _ _ _ Hafter Hin). congruence.
Qed.

Lemma stopped_all_idle (l : list MediaRecorder) (rec : nat) (r : MediaRecorder) :
  l !! rec = Some r ->
  Forall Spec.idle (take rec l) ->
  Forall Spec.idle (drop (S rec) l) ->
  Forall Spec.idle (<[rec := {| state := inactive; gathered := [] |}]> l).
Proof.
  intros Hr Hbefore Hafter.
  rewrite insert_take_drop by now apply lookup_lt_Some in Hr.
  apply Forall_app. split; [exact Hbefore|].
  now constructor.
Qed.

(** What [stop] on the current recorder does to a serialized session. *)
Lemma stop_serialized (rec : nat) (s s' : Session) :
  MediaRecorder_stop rec s = Some s' ->
  mediaRecorderRef s = Some rec ->
  Spec.serialized s ->
  Forall Spec.idle (recorders s') /\
  Spec.stops_pending (tasks s') = 1 /\
  Spec.audio_held s' = Spec.audio_held s /\
  mediaRecorderRef s' = mediaRecorderRef s /\
  sessionActiveRef s' = sessionActiveRef s /\
  streamRef s' = streamRef s.
Proof.
  intros Hstop Href (Hone & Hstream & Hrecs).
  unfold MediaRecorder_stop in Hstop.
  destruct (recorders s !! rec) as [r|] eqn:Hr; [|discriminate].
  destruct Hrecs as [Hidle|(rec0 & r0 & Href0 & Hr0 & Hrec0 & Hbefore & Hafter & Hnone)].
  { rewrite (idle_not_recording _ _ _ Hidle Hr) in Hstop. discriminate. }
  assert (rec0 = rec) as -> by congruence.
  assert (r0 = r) as -> by congruence.
  rewrite Hrec0 in Hstop. injection Hstop as <-. cbn.
  split; [now apply (stopped_all_idle _ _ r)|].
  split; [rewrite stops_pending_app, Hnone; reflexivity|].
  split; [|auto].
  unfold Spec.audio_held. cbn.
  unfold Spec.queued_data. rewrite omap_app. cbn. rewrite concat_app. cbn.
  rewrite (idle_gathered _ (stopped_all_idle _ _ r Hr Hbefore Hafter)).
  rewrite (sole_gathered _ _ _ Hr Hbefore Hafter).
  now rewrite !app_nil_r.
Qed.

Lemma stop_keeps_serialized (rec : nat) (s s' : Session) :
  MediaRecorder_stop rec s = Some s' ->
  mediaRecorderRef s = Some rec ->
  Spec.serialized s ->
  Spec.serialized s' /\ Spec.audio_held s' = Spec.audio_held s.
Proof.
  intros Hstop Href Hs.
  pose proof Hs as (_ & Hstream & _).
  destruct (stop_serialized rec s s' Hstop Href Hs)
    as (Hidle & Hone & Haudio & _ & Hactive & Hstream').
  split; [|exact Haudio].
  split; [lia|]. split; [now rewrite Hactive, Hstream'|now left].
Qed.

Lemma stops_or_keeps_serialized (s s' : Session) :
  Spec.stops_or_keeps s s' ->
  Spec.serialized s ->
  Spec.serialized s' /\ Spec.audio_held s' = Spec.audio_held s.
Proof.
  intros [Hsame|(rec & s1 & s2 & Href & H1 & Hstop & H2)] Hs.
  - split; [now apply (serialized_same s)|now apply audio_held_same].
  - destruct (stop_keeps_serialized rec s1 s2 Hstop) as [Hs2 Haudio].
    + destruct H1 as (-> & _). exact Href.
    + now apply (serialized_same s).
    + split; [now apply (serialized_same s2)|].
      now rewrite (audio_held_same s2 s'), Haudio, (audio_held_same s s1).
Qed.

Lemma calibrate_same (startTs rms now : float) (s : Session) :
  Spec.same_devices s (calibrate startTs rms now s).
Proof. unfold calibrate. now destruct (in_calibration _ _). Qed.

Lemma tick_stops_or_keeps (rms now : float) (s : Session) :
  Spec.stops_or_keeps s (tick rms now s).
Proof.
  destruct (meterRafRef s) as [startTs|] eqn:Hloop.
  2:{ left. rewrite tick_idle by exact Hloop. apply same_devices_refl. }
  pose proof (tick_cases rms now startTs s Hloop) as H. cbv zeta in H.
  pose proof (calibrate_same startTs rms now s) as Hcal.
  destruct (Spec.above_threshold rms now s); [left; rewrite H; exact Hcal|].
  destruct (isSpeakingRef s); [|left; rewrite H; exact Hcal].
  destruct (silenceStartRef s); [|left; rewrite H; exact Hcal].
  destruct (_ <=? _)%float; [|left; rewrite H; exact Hcal].
  destruct H as (s' & Hs' & ->). unfold requestStop in Hs'.
  destruct (stopInFlightRef _); cbn [negb] in Hs';
    [injection Hs' as <-; left; exact Hcal|].
  destruct (mediaRecorderRef (calibrate startTs rms now s)) as [rec|] eqn:Href;
    [|injection Hs' as <-; left; exact Hcal].
  case_bool_decide; [|injection Hs' as <-; left; exact Hcal].
  right. exists rec, (set_stopInFlight true (calibrate startTs rms now s)), s'.
  split; [destruct Hcal as (<- & _); exact Href|].
  split; [exact Hcal|]. split; [exact Hs'|exact (same_devices_refl s')].
Qed.

Lemma handleManualFlush_stops_or_keeps (s : Session) :
  Spec.stops_or_keeps s (handleManualFlush s).
Proof.
  unfold handleManualFlush.
  destruct (mediaRecorderRef s) as [rec|] eqn:Href;
    [|left; apply same_devices_refl].
  destruct (negb _); [left; apply same_devices_refl|].
  destruct (stopInFlightRef s); [left; apply same_devices_refl|].
  destruct (MediaRecorder_stop rec (set_stopInFlight true s)) as [s'|] eqn:Hstop.
  - right. exists rec, (set_stopInFlight true s), s'.
    split; [exact Href|]. split; [exact (same_devices_refl s)|].
    split; [exact Hstop|apply same_devices_refl].
  - left. exact (same_devices_refl s).
Qed.

Lemma stopRecording_serialized (s : Session) :
  Spec.serialized s ->
  Spec.serialized (stopRecording s) /\
  Spec.audio_held (stopRecording s) = Spec.audio_held s.
Proof.
  intros Hs.
  set (s1 := set_meterRaf None (set_sessionActive false s)).
  assert (Hs1 : Spec.serialized s1).
  { destruct Hs as (Hone & _ & Hrecs). split; [exact Hone|].
    split; [discriminate|exact Hrecs]. }
  assert (Haudio1 : Spec.audio_held s1 = Spec.audio_held s) by reflexivity.
  set (mid := match mediaRecorderRef s1 with
              | Some rec =>
                  if negb (bool_decide (state_of rec s1 = Some inactive)) then
                    match MediaRecorder_stop rec s1 with
                    | Some s' => s'
                    | None => s1
                    end
                  else s1
              | None => s1
              end).
  assert (Hmid : Forall Spec.idle (recorders mid) /\
                 Spec.stops_pending (tasks mid) <= 1 /\
                 Spec.audio_held mid = Spec.audio_held s1).
  { assert (Hquiet : (forall rec, mediaRecorderRef s1 = Some rec ->
                                  state_of rec s1 <> Some recording) ->
                     Forall Spec.idle (recorders s1) /\
                     Spec.stops_pending (tasks s1) <= 1 /\
                     Spec.audio_held s1 = Spec.audio_held s1).
    { intros Hnot. destruct Hs1 as (Hone & _ & Hrecs).
      split; [|split; [exact Hone|reflexivity]].
      destruct Hrecs as [Hidle|(rec0 & r0 & Href0 & Hr0 & Hrec0 & _)];
        [exact Hidle|].
      destruct (Hnot rec0 Href0). unfold state_of. now rewrite Hr0, <- Hrec0. }
    unfold mid. destruct (mediaRecorderRef s1) as [rec|] eqn:Href.
    2:{ apply Hquiet. discriminate. }
    case_bool_decide as Hinactive; cbn [negb].
    { apply Hquiet. intros rec' [= <-]. congruence. }
    destruct (MediaRecorder_stop rec s1) as [s'|] eqn:Hstop.
    - destruct (stop_serialized rec s1 s' Hstop Href Hs1)
        as (Hidle & Hone & Haudio & _).
      split; [exact Hidle|]. split; [lia|exact Haudio].
    - apply Hquiet. intros rec' [= <-] Hrec.
      destruct (MediaRecorder_stop_recording rec s1 Hrec) as (r & _ & _ & Hsome).
      congruence. }
  destruct Hmid as (Hidle & Hone & Haudio).
  split.
  - split; [exact Hone|]. split; [|left; exact Hidle].
    intros Hactive. exfalso. revert Hactive.
    change (sessionActiveRef (stopRecording s))
      with (sessionActiveRef mid).
    unfold mid. destruct (mediaRecorderRef s1) as [rec|]; [|discriminate].
    destruct (negb _); [|discriminate].
    destruct (MediaRecorder_stop rec s1) as [s'|] eqn:Hstop; [|discriminate].
    apply MediaRecorder_stop_refs in Hstop.
    destruct Hstop as (_ & _ & _ & _ & _ & _ & -> & _). discriminate.
  - rewrite <- Haudio1, <- Haudio. reflexivity.
Qed.

Lemma capture_serialized (bytes : list N) (s : Session) :
  Spec.serialized s ->
  Spec.serialized (capture bytes s) /\
  Spec.audio_held (capture bytes s) =
  Spec.audio_held s ++ Spec.heard (Capture bytes) s.
Proof.
  intros (Hone & Hstream & Hrecs).
  set (f := fun r => match state r with
                     | recording =>
                         {| state := recording; gathered := gathered r ++ bytes |}
                     | _ => r
                     end).
  assert (Hf : forall l, Forall Spec.idle l -> f <$> l = l).
  { induction 1 as [|r l Hr _ IH]; [reflexivity|].
    cbn. rewrite IH. f_equal. now rewrite Hr. }
  unfold Spec.audio_held, Spec.heard, Spec.someone_recording, capture.
  fold f. cbn.
  destruct Hrecs as [Hidle|(rec & r & Href & Hr & Hrec & Hbefore & Hafter & Hnone)].
  - rewrite (Hf _ Hidle), (idle_nobody_recording _ Hidle), app_nil_r.
    split; [|reflexivity]. split; [exact Hone|]. split; [exact Hstream|].
    now left.
  - assert (Hr' : (f <$> recorders s) !! rec =
                  Some {| state := recording; gathered := gathered r ++ bytes |}).
    { rewrite list_lookup_fmap, Hr. cbn. unfold f. now rewrite Hrec. }
    assert (Hbefore' : Forall Spec.idle (take rec (f <$> recorders s)))
      by now rewrite <- fmap_take, (Hf _ Hbefore).
    assert (Hafter' : Forall Spec.idle (drop (S rec) (f <$> recorders s)))
      by now rewrite <- fmap_drop, (Hf _ Hafter).
    split.
    + split; [exact Hone|]. split; [exact Hstream|]. right.
      exists rec, {| state := recording; gathered := gathered r ++ bytes |}.
      now repeat split.
    + rewrite (sole_gathered _ _ _ Hr' Hbefore' Hafter').
      rewrite (sole_gathered _ _ _ Hr Hbefore Hafter). cbn.
      assert (existsb (fun r0 => bool_decide (state r0 = recording))
                (recorders s) = true) as ->.
      { apply existsb_exists. exists r. split.
        - apply list_elem_of_In. now apply list_elem_of_lookup_2 in Hr.
        - now apply bool_decide_eq_true_2. }
      now rewrite <- !app_assoc.
Qed.

Lemma timeslice_serialized (rec : nat) (s : Session) :
  Spec.serialized s ->
  Spec.serialized (timeslice rec s) /\
  Spec.audio_held (timeslice rec s) = Spec.audio_held s.
Proof.
  intros Hs. unfold timeslice.
  destruct (recorders s !! rec) as [r|] eqn:Hr; [|now split].
  destruct (state r) eqn:Hstate; try now split.
  destruct Hs as (Hone & Hstream & Hrecs).
  destruct Hrecs as [Hidle|(rec0 & r0 & Href & Hr0 & Hrec0 & Hbefore & Hafter & Hnone)].
  { pose proof (idle_not_recording _ _ _ Hidle Hr). congruence. }
  assert (rec = rec0) as -> by now apply (sole_recorder (recorders s) rec0 rec r).
  assert (r0 = r) as -> by congruence.
  assert (Hlt : rec0 < length (recorders s)) by now apply lookup_lt_Some in Hr.
  split.
  - split; [cbn; rewrite stops_pending_app; cbn; lia|].
    split; [exact Hstream|]. right.
    exists rec0, {| state := recording; gathered := [] |}. cbn.
    split; [exact Href|].
    split; [now apply list_lookup_insert_eq|].
    split; [reflexivity|].
    split; [now rewrite take_insert_ge by lia|].
    split; [now rewrite drop_insert_lt by lia|].
    rewrite stops_pending_app, Hnone. reflexivity.
  - unfold Spec.audio_held. cbn.
    unfold Spec.queued_data. rewrite omap_app. cbn. rewrite concat_app. cbn.
    rewrite (sole_gathered _ _ _ Hr Hbefore Hafter).
    rewrite (sole_gathered (<[rec0:=_]> (recorders s)) rec0
               {| state := recording; gathered := [] |}).
    + cbn. now rewrite !app_nil_r.
    + now apply list_lookup_insert_eq.
    + now rewrite take_insert_ge by lia.
    + now rewrite drop_insert_lt by lia.
Qed.

(** ** The [stop] callback *)

Lemma onstop_try_run (s : Session) :
  chunks (onstop_try s) = [] /\
  dispatched (onstop_try s) =
    dispatched s ++
    (if bool_decide (chunks s = []) then [] else [concat (chunks s)]) /\
  mediaRecorderRef (onstop_try s) = mediaRecorderRef s /\
  sessionActiveRef (onstop_try s) = sessionActiveRef s /\
  streamRef (onstop_try s) = streamRef s /\
  recorders (onstop_try s) = recorders s /\
  tasks (onstop_try s) = tasks s.
Proof.
  unfold onstop_try, sendAudioForAnalysis.
  destruct (chunks s) as [|c cs] eqn:Hchunks; cbn.
  - rewrite Hchunks, app_nil_r. now repeat split.
  - now repeat split.
Qed.

Lemma onstop_finally_run (accepts : bool) (s : Session) :
  dispatched (onstop_finally accepts s) = dispatched s /\
  sessionActiveRef (onstop_finally accepts s) = sessionActiveRef s /\
  streamRef (onstop_finally accepts s) = streamRef s /\
  if sessionActiveRef s && bool_decide (is_Some (streamRef s)) then
    chunks (onstop_finally accepts s) = [] /\
    if accepts then
      mediaRecorderRef (onstop_finally accepts s) =
        Some (length (recorders s)) /\
      recorders (onstop_finally accepts s) =
        recorders s ++ [{| state := recording; gathered := [] |}] /\
      tasks (onstop_finally accepts s) =
        tasks s ++ [FireStart (length (recorders s))]
    else
      mediaRecorderRef (onstop_finally accepts s) = mediaRecorderRef s /\
      recorders (onstop_finally accepts s) =
        recorders s ++ [{| state := inactive; gathered := [] |}] /\
      tasks (onstop_finally accepts s) = tasks s
  else
    chunks (onstop_finally accepts s) = chunks s /\
    mediaRecorderRef (onstop_finally accepts s) = None /\
    recorders (onstop_finally accepts s) = recorders s /\
    tasks (onstop_finally accepts s) = tasks s.
Proof.
  unfold onstop_finally, createMediaRecorder.
  destruct (sessionActiveRef s && bool_decide (is_Some (streamRef s)));
    [|now repeat split].
  destruct accepts.
  - rewrite (MediaRecorder_start_created _ (recorders s)) by reflexivity.
    now repeat split.
  - now repeat split.
Qed.

Lemma deliver_serialized (accepts : bool) (s : Session) :
  Spec.serialized s ->
  Spec.serialized (deliver accepts s) /\
  Spec.audio_held (deliver accepts s) = Spec.audio_held s.
Proof.
  intros Hs. unfold deliver.
  destruct (tasks s) as [|t rest] eqn:Htasks; [now split|].
  destruct Hs as (Hone & Hstream & Hrecs). rewrite Htasks in Hone, Hrecs.
  destruct t as [rec|rec data|rec].
  - (* start *)
    split; [|unfold Spec.audio_held; cbn; now rewrite Htasks].
    split; [exact Hone|]. split; [exact Hstream|exact Hrecs].
  - (* dataavailable *)
    assert (Hser : forall s', Spec.same_devices (set_tasks rest s) s' \/
                     (mediaRecorderRef s' = mediaRecorderRef s /\
                      sessionActiveRef s' = sessionActiveRef s /\
                      streamRef s' = streamRef s /\
                      recorders s' = recorders s /\
                      tasks s' = rest) ->
                   Spec.serialized s').
    { intros s' [(Href & _ & Hactive & Hstr & Hrec & Htask & _)
                |(Href & Hactive & Hstr & Hrec & Htask)];
        (split; [now rewrite Htask|];
         split; [now rewrite Hactive, Hstr|]; now rewrite Href, Hrec, Htask). }
    unfold ondataavailable. cbn [chunks set_tasks].
    destruct (0 <? length data) eqn:Hsize.
    + split; [apply Hser; right; now repeat split|].
      unfold Spec.audio_held. cbn. rewrite Htasks. cbn.
      rewrite concat_app. cbn. now rewrite app_nil_r, <- !app_assoc.
    + split; [apply Hser; right; now repeat split|].
      unfold Spec.audio_held. cbn. rewrite Htasks. cbn.
      apply Nat.ltb_ge in Hsize. destruct data; [reflexivity|cbn in Hsize; lia].
  - (* stop *)
    cbn [Spec.stops_pending] in Hone, Hrecs.
    assert (Hrest : Spec.stops_pending rest = 0) by lia.
    assert (Hidle : Forall Spec.idle (recorders s)).
    { destruct Hrecs as [Hidle|(? & ? & _ & _ & _ & _ & _ & Hnone)];
        [exact Hidle|discriminate]. }
    unfold onstop.
    pose proof (onstop_try_run (set_tasks rest s))
      as (Hc1 & Hd1 & Href1 & Ha1 & Hs1 & Hr1 & Ht1).
    pose proof (onstop_finally_run accepts (onstop_try (set_tasks rest s)))
      as (Hd2 & Ha2 & Hs2 & Hnew).
    set (s1 := onstop_try (set_tasks rest s)) in *.
    set (s2 := onstop_finally accepts s1) in *.
    cbn in Hd1, Href1, Ha1, Hs1, Hr1, Ht1.
    rewrite Ha1, Hs1, Hc1, Hr1, Ht1 in Hnew.
    assert (Hafter :
              chunks s2 = [] /\
              Spec.stops_pending (tasks s2) = 0 /\
              concat (Spec.queued_data (tasks s2)) =
                concat (Spec.queued_data rest) /\
              concat (gathered <$> recorders s2) =
                concat (gathered <$> recorders s) /\
              (Forall Spec.idle (recorders s2) \/
               exists rec r,
                 mediaRecorderRef s2 = Some rec /\
                 recorders s2 !! rec = Some r /\
                 state r = recording /\
                 Forall Spec.idle (take rec (recorders s2)) /\
                 Forall Spec.idle (drop (S rec) (recorders s2)))).
    { destruct (_ && _); [destruct accepts|].
      - destruct Hnew as (Hchunks & Href & Hrec & Htask).
        rewrite Hchunks, Href, Hrec, Htask.
        split; [reflexivity|].
        split; [rewrite stops_pending_app, Hrest; reflexivity|].
        split; [unfold Spec.queued_data; rewrite omap_app, concat_app; cbn;
                now rewrite app_nil_r|].
        split; [rewrite fmap_app, concat_app; cbn; now rewrite app_nil_r|].
        right.
        exists (length (recorders s)), {| state := recording; gathered := [] |}.
        split; [reflexivity|].
        split; [now rewrite lookup_app_r, Nat.sub_diag by lia|].
        split; [reflexivity|].
        split; [now rewrite take_app_length|].
        rewrite drop_ge; [constructor|rewrite length_app; cbn; lia].
      - destruct Hnew as (Hchunks & _ & Hrec & Htask).
        rewrite Hchunks, Hrec, Htask.
        split; [reflexivity|]. split; [exact Hrest|]. split; [reflexivity|].
        split; [rewrite fmap_app, concat_app; cbn; now rewrite app_nil_r|].
        left. apply Forall_app. split; [exact Hidle|].
        now repeat constructor.
      - destruct Hnew as (Hchunks & _ & Hrec & Htask).
        rewrite Hchunks, Hrec, Htask.
        split; [reflexivity|]. split; [exact Hrest|]. split; [reflexivity|].
        split; [reflexivity|]. now left. }
    destruct Hafter as (Hchunks & Hpending & Hqueued & Hgathered & Hshape).
    split.
    + split; [lia|]. split; [rewrite Ha2, Hs2, Ha1, Hs1; exact Hstream|].
      destruct Hshape as [Hall|(rec0 & r0 & H1 & H2 & H3 & H4 & H5)];
        [now left|].
      right. exists rec0, r0. now repeat split.
    + unfold Spec.audio_held. rewrite Hd2, Hd1, Htasks. cbn [Spec.queued_data omap].
      rewrite Hgathered, Hqueued, Hchunks. cbn [concat app].
      fold (Spec.queued_data rest).
      rewrite concat_app. destruct (chunks s) as [|c cs].
      * rewrite bool_decide_eq_true_2 by reflexivity.
        cbn. now rewrite !app_nil_r.
      * rewrite bool_decide_eq_false_2 by discriminate.
        cbn. now rewrite !app_nil_r, <- app_assoc.
Qed.

Lemma step_serialized (i : Input) (s : Session) :
  Spec.serialized s ->
  Spec.serialized (step i s) /\
  Spec.audio_held (step i s) = Spec.audio_held s ++ Spec.heard i s.
Proof.
  intros Hs. destruct i as [rms now| | |bytes|rec| |]; cbn [step Spec.heard];
    rewrite ?app_nil_r.
  - exact (stops_or_keeps_serialized _ _ (tick_stops_or_keeps rms now s) Hs).
  - exact (stops_or_keeps_serialized _ _
             (handleManualFlush_stops_or_keeps s) Hs).
  - now apply stopRecording_serialized.
  - now apply capture_serialized.
  - now apply timeslice_serialized.
  - now apply deliver_serialized.
  - now apply deliver_serialized.
Qed.

Lemma startRecording_serialized (startTs : float) (s0 : Session) :
  Spec.settled s0 ->
  Spec.serialized (startRecording startTs s0).
Proof.
  intros [Hnone Hidle]. unfold startRecording, createMediaRecorder.
  rewrite (MediaRecorder_start_created _ (recorders s0)) by reflexivity.
  unfold Spec.serialized. cbn. rewrite Hnone. cbn.
  split; [lia|]. split; [reflexivity|]. right.
  exists (length (recorders s0)), {| state := recording; gathered := [] |}.
  split; [reflexivity|].
  split; [now rewrite lookup_app_r, Nat.sub_diag by lia|].
  split; [reflexivity|].
  split; [now rewrite take_app_length|].
  split; [|reflexivity].
  rewrite drop_ge; [constructor|rewrite length_app; cbn; lia].
Qed.

Lemma run_snoc (inputs : list Input) (i : Input) (s : Session) :
  run (inputs ++ [i]) s = step i (run inputs s).
Proof. unfold run. now rewrite fold_left_app. Qed.

Lemma heard_run_snoc (inputs : list Input) (i : Input) (s : Session) :
  Spec.heard_run (inputs ++ [i]) s =
  Spec.heard_run inputs s ++ Spec.heard i (run inputs s).
Proof.
  revert s. induction inputs as [|j inputs IH]; intros s; cbn.
  - now rewrite app_nil_r.
  - now rewrite IH, app_assoc.
Qed.

Lemma run_serialized (inputs : list Input) (s : Session) :
  Spec.serialized s ->
  Spec.serialized (run inputs s) /\
  Spec.audio_held (run inputs s) =
  Spec.audio_held s ++ Spec.heard_run inputs s.
Proof.
  intros Hstart.
  induction inputs as [|i inputs [IHs IHa]] using rev_ind.
  - split; [exact Hstart|]. cbn. now rewrite app_nil_r.
  - rewrite run_snoc, heard_run_snoc.
    destruct (step_serialized i _ IHs) as [Hs Ha].
    split; [exact Hs|]. now rewrite Ha, IHa, app_assoc.
Qed.

(** X27. Take a session started on a component that is between sessions
    (no recorder event queued, every recorder inactive), and any inputs
    since.  In the state they lead to: no two recorders
    record at once, and one that records is the current one.  When the next
    queued event is a recorder's [stop], running the callback first hands
    the accumulated chunks, if any, to the analysis as one blob and empties
    the buffer, with no recorder created or recording yet.  It then
    creates a replacement if the session is active: a browser that accepts
    starts it and it becomes the current recorder; in a browser that
    refuses, the replacement stays inactive and the current recorder is
    left as it was.  In a session that is not active no recorder is
    created and the current one is cleared.  Nothing more is dispatched.
    Every input keeps the audio of the session (dispatched, buffered,
    queued or gathered) as it was, adding at its end what the microphone
    delivers while a recorder records: so at any point that audio is what
    the session started with followed by exactly what was heard since, in
    order, nothing missing and nothing twice. *)
Theorem finalize_then_replace (s0 : Session) (startTs : float)
    (inputs : list Input) :
  Spec.settled s0 ->
  let s := run inputs (startRecording startTs s0) in
  (forall rec1 rec2 : nat,
      state_of rec1 s = Some recording ->
      state_of rec2 s = Some recording ->
      rec1 = rec2 /\ mediaRecorderRef s = Some rec1) /\
  (forall (accepts : bool) (rec : nat) (rest : list Task),
      tasks s = FireStop rec :: rest ->
      let s1 := onstop_try (set_tasks rest s) in
      deliver accepts s = onstop_finally accepts s1 /\
      dispatched s1 =
        dispatched s ++
        (if bool_decide (chunks s = []) then [] else [concat (chunks s)]) /\
      chunks s1 = [] /\
      recorders s1 = recorders s /\
      Spec.someone_recording s1 = false /\
      dispatched (deliver accepts s) = dispatched s1 /\
      chunks (deliver accepts s) = [] /\
      if sessionActiveRef s then
        if accepts then
          mediaRecorderRef (deliver accepts s) = Some (length (recorders s)) /\
          recorders (deliver accepts s) =
            recorders s ++ [{| state := recording; gathered := [] |}] /\
          tasks (deliver accepts s) =
            rest ++ [FireStart (length (recorders s))]
        else
          mediaRecorderRef (deliver accepts s) = mediaRecorderRef s /\
          recorders (deliver accepts s) =
            recorders s ++ [{| state := inactive; gathered := [] |}] /\
          tasks (deliver accepts s) = rest
      else
        mediaRecorderRef (deliver accepts s) = None /\
        recorders (deliver accepts s) = recorders s /\
        tasks (deliver accepts s) = rest) /\
  (forall i : Input,
      Spec.audio_held (step i s) = Spec.audio_held s ++ Spec.heard i s) /\
  Spec.audio_held s =
    Spec.audio_held (startRecording startTs s0) ++
    Spec.heard_run inputs (startRecording startTs s0).
Proof.
  intros Hsettled s.
  destruct (run_serialized inputs (startRecording startTs s0)
              (startRecording_serialized startTs s0 Hsettled))
    as [Hs Haudio].
  fold s in Hs, Haudio.
  split; [|split; [|split; [|exact Haudio]]].
  - intros rec1 rec2 H1 H2. destruct Hs as (_ & _ & Hrecs).
    unfold state_of in H1, H2.
    destruct (recorders s !! rec1) as [r1|] eqn:Hr1; [|discriminate].
    destruct (recorders s !! rec2) as [r2|] eqn:Hr2; [|discriminate].
    injection H1 as H1. injection H2 as H2.
    destruct Hrecs as [Hidle|(rec & r & Href & _ & _ & Hbefore & Hafter & _)].
    { pose proof (idle_not_recording _ _ _ Hidle Hr1). congruence. }
    assert (rec1 = rec) as ->
      by now apply (sole_recorder (recorders s) rec rec1 r1).
    assert (rec2 = rec) as ->
      by now apply (sole_recorder (recorders s) rec rec2 r2).
    now split.
  - intros accepts rec rest Htasks s1.
    destruct Hs as (Hone & Hstream & Hrecs). rewrite Htasks in Hone, Hrecs.
    cbn [Spec.stops_pending] in Hone, Hrecs.
    assert (Hidle : Forall Spec.idle (recorders s)).
    { destruct Hrecs as [Hidle|(? & ? & _ & _ & _ & _ & _ & Hnone)];
        [exact Hidle|discriminate]. }
    pose proof (onstop_try_run (set_tasks rest s))
      as (Hc1 & Hd1 & Href1 & Ha1 & Hs1 & Hr1 & Ht1).
    pose proof (onstop_finally_run accepts (onstop_try (set_tasks rest s)))
      as (Hd2 & Ha2 & Hs2 & Hnew).
    fold s1 in Hc1, Hd1, Href1, Ha1, Hs1, Hr1, Ht1, Hd2, Ha2, Hs2, Hnew.
    cbn in Hd1, Href1, Ha1, Hs1, Hr1, Ht1.
    assert (Hdeliver : deliver accepts s = onstop_finally accepts s1)
      by (unfold deliver; now rewrite Htasks).
    rewrite Hdeliver.
    split; [reflexivity|]. split; [exact Hd1|]. split; [exact Hc1|].
    split; [exact Hr1|].
    split; [unfold Spec.someone_recording; rewrite Hr1;
            now apply idle_nobody_recording|].
    split; [exact Hd2|].
    rewrite Ha1, Hs1, Hc1, Hr1, Ht1, Href1 in Hnew.
    destruct (sessionActiveRef s) eqn:Hactive.
    + rewrite (Hstream eq_refl) in Hnew.
      rewrite bool_decide_eq_true_2 in Hnew by eauto.
      cbn [andb] in Hnew. destruct accepts; tauto.
    + cbn [andb] in Hnew. tauto.
  - intros i. now apply step_serialized.
Qed.

Lemma finalize_then_replace_witness :
  dispatched
    (deliver true
       (run Scenario.before_finalize (startRecording 0%float mounted))) =
    [[1; 2; 3; 4]%N] /\
  mediaRecorderRef
    (deliver true
       (run Scenario.before_finalize (startRecording 0%float mounted))) =
    Some 1.
Proof.
  destruct (proj1 (proj2 (finalize_then_replace mounted 0%float
                            Scenario.before_finalize
                            (conj eq_refl (Forall_nil_2 _))))
              true 0 [] eq_refl)
    as (_ & Hsent & _ & _ & _ & Hsame & _ & Hnew).
  split.
  - rewrite Hsame, Hsent. reflexivity.
  - apply Hnew.
Defined.

(** ** A session started before the previous one has drained *)

(** C1. Recorders do not follow one another in every active session.  When
    a session is stopped and the next one is started before the queued
    events of the stopped recorder have run, the [stop] callback of that recorder runs in
    the new session: it finds the session active, so it creates and starts
    a replacement beside the recorder the new session has started.  Two
    recorders then record the same stream at once, only the later one being
    the current recorder, and both deliver their data to the one chunk
    buffer: a byte the microphone delivers once after that is dispatched
    twice in the next segment. *)
Theorem restart_before_stop_event_doubles_recorder :
  tasks Scenario.restarted =
    [FireDataAvailable 0 [1; 2]%N; FireStop 0; FireStart 1] /\
  sessionActiveRef Scenario.restarted = true /\
  mediaRecorderRef Scenario.restarted = Some 1 /\
  state_of 1 Scenario.restarted = Some recording /\
  Spec.someone_recording
    (onstop_try (set_tasks [FireStart 1]
                   (run [Deliver] Scenario.restarted))) = true /\
  (let s := run [Deliver; Deliver] Scenario.restarted in
   dispatched s = [[1; 2]%N] /\
   mediaRecorderRef s = Some 2 /\
   state_of 1 s = Some recording /\
   state_of 2 s = Some recording /\
   Spec.heard_run Scenario.one_more_byte s = [7%N] /\
   dispatched (run Scenario.one_more_byte s) = [[1; 2]%N; [7; 7]%N]).
Proof. repeat split. Qed.

(** Two flushes in a row at the very start of a session, then the three
    queued events: one stop, one segment, and the replacement recorder is
    the current one. *)
Example two_flushes_one_segment :
  let s := run [Capture [1; 2]%N; ManualFlush; ManualFlush;
                Deliver; Deliver; Deliver]
             (startRecording 0%float mounted) in
  stopCalls s = [0] /\ dispatched s = [[1; 2]%N] /\
  mediaRecorderRef s = Some 1 /\ state_of 1 s = Some recording.
Proof. repeat split. Qed.

Lemma manual_flush_stops_once_witness :
  stopCalls (handleManualFlush (handleManualFlush Scenario.calibrated)) = [0].
Proof.
  apply (proj1 (proj2 (proj2 manual_flush_stops_once))
           Scenario.calibrated 0); reflexivity.
Defined.

End RecordingSession.

(* ===================================================================== *)
(** * Text handling of the backend *)
(* ===================================================================== *)

Section Strings.
Local Open Scope nat_scope.

Lemma startsWith_app (pat rest : list N) : startsWith (pat ++ rest) pat = true.
Proof.
  induction pat as [|p pat IH]; [now destruct rest|].
  cbn. now rewrite N.eqb_refl, IH.
Qed.

Lemma startsWith_inv (s pat : list N) :
  startsWith s pat = true -> s = pat ++ drop (length pat) s.
Proof.
  revert s. induction pat as [|p pat IH]; intros s H; [reflexivity|].
  destruct s as [|c s]; [discriminate|]. cbn in H.
  apply andb_true_iff in H as [Hc Hs]. apply N.eqb_eq in Hc. subst c.
  cbn. f_equal. now apply IH.
Qed.

Lemma startsWith_shorter (s pat more : list N) :
  startsWith s pat = false -> startsWith s (pat ++ more) = false.
Proof.
  revert s. induction pat as [|p pat IH]; intros s H;
    [now destruct s|].
  destruct s as [|c s]; [reflexivity|]. cbn in *.
  apply andb_false_iff in H as [Hc|Hs].
  - now rewrite Hc.
  - rewrite (IH _ Hs). apply andb_false_r.
Qed.

Lemma endsWith_app (rest pat : list N) : endsWith (rest ++ pat) pat = true.
Proof. unfold endsWith. rewrite rev_app_distr. apply startsWith_app. Qed.

Lemma removeSuffix_app (rest pat : list N) :
  removeSuffix pat (rest ++ pat) = rest.
Proof.
  unfold removeSuffix. rewrite endsWith_app, length_app.
  replace (length rest + length pat - length pat) with (length rest) by lia.
  now rewrite take_app_length.
Qed.

Lemma trimStart_white (ws s : list N) :
  Forall (fun c => is_trimmable c = true) ws ->
  trimStart (ws ++ s) = trimStart s.
Proof.
  induction 1 as [|c ws Hc _ IH]; [reflexivity|].
  cbn. now rewrite Hc.
Qed.

Lemma trimStart_stop (a b : list N) (c : N) :
  is_trimmable c = false ->
  trimStart (a ++ c :: b) = trimStart a ++ c :: b.
Proof.
  intros Hc. induction a as [|x a IH]; cbn.
  - now rewrite Hc.
  - now destruct (is_trimmable x).
Qed.

Lemma trimEnd_stop (a b : list N) (c : N) :
  is_trimmable c = false ->
  trimEnd (a ++ c :: b) = a ++ c :: trimEnd b.
Proof.
  intros Hc. unfold trimEnd.
  rewrite rev_app_distr. cbn [rev]. rewrite <- app_assoc. cbn [app].
  rewrite (trimStart_stop _ _ _ Hc), rev_app_distr. cbn [rev].
  rewrite rev_involutive, <- app_assoc. reflexivity.
Qed.

(** What [trimStart] returns is a suffix of its argument, and it does not
    begin with white space. *)
Lemma trimStart_suffix (s : list N) : trimStart s `suffix_of` s.
Proof.
  induction s as [|c s IH]; [reflexivity|].
  cbn. destruct (is_trimmable c); [now apply suffix_cons_r|reflexivity].
Qed.

Lemma trimStart_head (s : list N) (c : N) :
  head (trimStart s) = Some c -> is_trimmable c = false.
Proof.
  induction s as [|x s IH]; [discriminate|].
  cbn. destruct (is_trimmable x) eqn:Hx; [exact IH|].
  cbn. now intros [= <-].
Qed.

Lemma trimEnd_prefix (s : list N) : trimEnd s `prefix_of` s.
Proof.
  unfold trimEnd. destruct (trimStart_suffix (rev s)) as [k Hk].
  exists (rev k). apply (f_equal (@rev N)) in Hk.
  rewrite rev_involutive, rev_app_distr in Hk. exact Hk.
Qed.

Lemma Forall_trimStart (P : N -> Prop) (s : list N) :
  Forall P s -> Forall P (trimStart s).
Proof.
  intros H. destruct (trimStart_suffix s) as [k Hk].
  rewrite Hk in H. now apply Forall_app in H as [_ H].
Qed.

Lemma Forall_trim (P : N -> Prop) (s : list N) :
  Forall P s -> Forall P (trim s).
Proof.
  intros H. unfold trim. destruct (trimEnd_prefix (trimStart s)) as [k Hk].
  apply Forall_trimStart in H. rewrite Hk in H.
  now apply Forall_app in H as [H _].
Qed.

Lemma last_rev_head {A} (l : list A) : last (rev l) = head l.
Proof. destruct l as [|x l]; [reflexivity|]. cbn. apply last_snoc. Qed.

Lemma head_rev_last {A} (l : list A) : head (rev l) = last l.
Proof. now rewrite <- last_rev_head, rev_involutive. Qed.

Lemma trimStart_last (s : list N) :
  trimStart s = [] \/ last (trimStart s) = last s.
Proof.
  destruct (trimStart_suffix s) as [k Hk].
  destruct (trimStart s) as [|x l] eqn:E; [now left|right].
  rewrite Hk. now rewrite last_app_cons.
Qed.

Lemma Forall_kept {A} (P : A -> Prop) (keep : A -> bool) (l : list A) :
  Forall P l -> Forall P (filter keep l).
Proof.
  induction 1 as [|x l Hx _ IH]; [constructor|].
  rewrite filter_cons. destruct (decide (keep x)); [now constructor|exact IH].
Qed.

End Strings.

(* ===================================================================== *)
(** * Cleaning a model reply *)
(* ===================================================================== *)

Section CleanJson.
Import LLMHelper.
Local Open Scope nat_scope.

Lemma white_space_is_no_fence (c : N) :
  is_trimmable c = true -> (c =? 96)%N = false.
Proof.
  intros Hc. destruct (N.eqb_spec c 96) as [->|]; [discriminate Hc|reflexivity].
Qed.

(** X1. [cleanJsonResponse] returns the body of a reply wrapped in a code
    fence, with or without the word json after the opening fence, trimmed;
    a reply that neither starts nor ends with a fence is only trimmed. *)
Theorem cleanJsonResponse_strips_fences :
  (forall body : list N,
      cleanJsonResponse (FENCE ++ lit "json" ++ [LF] ++ body ++ [LF] ++ FENCE) =
      trim body) /\
  (forall body : list N,
      cleanJsonResponse (FENCE ++ [LF] ++ body ++ [LF] ++ FENCE) = trim body) /\
  (forall text : list N,
      startsWith text FENCE = false ->
      endsWith text FENCE = false ->
      cleanJsonResponse text = trim text).
Proof.
  split; [|split].
  - intros body. unfold cleanJsonResponse, removeOpeningFence. cbv zeta.
    replace (FENCE ++ lit "json" ++ [LF] ++ body ++ [LF] ++ FENCE)
      with ((FENCE ++ lit "json" ++ [LF]) ++ (body ++ [LF] ++ FENCE))
      by now rewrite <- !app_assoc.
    rewrite startsWith_app, drop_app_length.
    now rewrite removeSuffix_app.
  - intros body. unfold cleanJsonResponse, removeOpeningFence. cbv zeta.
    change (startsWith (FENCE ++ [LF] ++ body ++ [LF] ++ FENCE)
              (FENCE ++ lit "json" ++ [LF])) with false. cbv iota.
    replace (FENCE ++ [LF] ++ body ++ [LF] ++ FENCE)
      with ((FENCE ++ [LF]) ++ (body ++ [LF] ++ FENCE))
      by now rewrite <- !app_assoc.
    rewrite startsWith_app, drop_app_length.
    now rewrite removeSuffix_app.
  - intros text Hstart Hend.
    unfold cleanJsonResponse, removeOpeningFence. cbv zeta.
    rewrite !(startsWith_shorter _ _ _ Hstart).
    unfold removeSuffix.
    assert (endsWith text ([LF] ++ FENCE) = false) as ->; [|reflexivity].
    unfold endsWith in *. rewrite rev_app_distr.
    now apply startsWith_shorter.
Qed.

(** X2. The opening fence is looked for before the text is trimmed: in a
    fenced reply that begins with white space, only the closing fence is
    removed, and the result still begins with the opening fence. *)
Theorem cleanJsonResponse_keeps_fence_after_white_space (ws body : list N) :
  ws <> [] ->
  Forall (fun c => is_trimmable c = true) ws ->
  cleanJsonResponse
    (ws ++ FENCE ++ lit "json" ++ [LF] ++ body ++ [LF] ++ FENCE) =
  FENCE ++ lit "json" ++ trimEnd ([LF] ++ body).
Proof.
  intros Hne Hws.
  destruct ws as [|c ws]; [congruence|].
  pose proof (Forall_inv Hws) as Hc. cbv beta in Hc.
  unfold cleanJsonResponse, removeOpeningFence. cbv zeta.
  assert (forall rest pat,
             startsWith ((c :: ws) ++ rest) (FENCE ++ pat) = false) as Hnone.
  { intros rest pat. change (FENCE ++ pat) with (96%N :: (lit "``" ++ pat)).
    cbn [app startsWith]. now rewrite (white_space_is_no_fence c Hc). }
  rewrite !Hnone.
  replace ((c :: ws) ++ FENCE ++ lit "json" ++ [LF] ++ body ++ [LF] ++ FENCE)
    with (((c :: ws) ++ FENCE ++ lit "json" ++ [LF] ++ body) ++ ([LF] ++ FENCE))
    by now rewrite <- !app_assoc.
  rewrite removeSuffix_app. unfold trim.
  rewrite (trimStart_white _ _ Hws).
  change (trimStart (FENCE ++ lit "json" ++ [LF] ++ body))
    with (lit "```jso" ++ 110%N :: ([LF] ++ body)).
  now rewrite trimEnd_stop.
Qed.

Lemma cleanJsonResponse_keeps_fence_after_white_space_witness :
  cleanJsonResponse
    ([LF] ++ FENCE ++ lit "json" ++ [LF] ++ lit "{}" ++ [LF] ++ FENCE) =
  FENCE ++ lit "json" ++ [LF] ++ lit "{}".
Proof.
  rewrite (cleanJsonResponse_keeps_fence_after_white_space [LF] (lit "{}")).
  - reflexivity.
  - discriminate.
  - repeat constructor.
Defined.

Lemma cleanJsonResponse_strips_fences_witness :
  cleanJsonResponse (lit " {} ") = lit "{}".
Proof.
  rewrite (proj2 (proj2 cleanJsonResponse_strips_fences) (lit " {} "));
    reflexivity.
Defined.

End CleanJson.

(* ===================================================================== *)
(** * More on prompt escaping and on the engine's output *)
(* ===================================================================== *)

Section EscapedText.
Import LLMHelper.
Local Open Scope nat_scope.

Lemma escapeTranscription_cons (c : N) (t : list N) :
  escapeTranscription (c :: t) = Spec.escape_unit c ++ escapeTranscription t.
Proof.
  change (c :: t) with ([c] ++ t).
  now rewrite escapeTranscription_app, escapeTranscription_unit.
Qed.

(** The escaped form of a unit is the unit itself, when it is not one of
    the five, or a backslash and one more unit. *)
Lemma escape_unit_cases (c : N) :
  (Spec.escape_unit c = [c] /\
   c <> BACKSLASH /\ c <> QUOTE /\ c <> LF /\ c <> CR /\ c <> TAB) \/
  (exists x, Spec.escape_unit c = [BACKSLASH; x] /\
             Spec.unescape_unit x = c /\
             x <> LF /\ x <> CR /\ x <> TAB).
Proof.
  unfold Spec.escape_unit.
  destruct (N.eqb_spec c BACKSLASH) as [->|Hb];
    [right; exists BACKSLASH; now repeat split|].
  destruct (N.eqb_spec c QUOTE) as [->|Hq];
    [right; exists QUOTE; now repeat split|].
  destruct (N.eqb_spec c LF) as [->|Hl];
    [right; exists 110%N; now repeat split|].
  destruct (N.eqb_spec c CR) as [->|Hc];
    [right; exists 114%N; now repeat split|].
  destruct (N.eqb_spec c TAB) as [->|Ht];
    [right; exists 116%N; now repeat split|].
  left. now repeat split.
Qed.

Lemma unescape_escaped (transcription : list N) :
  Spec.unescape (escapeTranscription transcription) = transcription.
Proof.
  induction transcription as [|c t IH]; [reflexivity|].
  rewrite escapeTranscription_cons.
  destruct (escape_unit_cases c)
    as [(-> & Hb & _)|(x & -> & Hx & _)].
  - cbn [app Spec.unescape].
    apply N.eqb_neq in Hb. now rewrite Hb, IH.
  - cbn [app Spec.unescape]. change (BACKSLASH =? BACKSLASH)%N with true.
    cbv iota. now rewrite Hx, IH.
Qed.

(** X3. Escaping loses nothing: reading the escaped transcript back, a
    backslash and the unit after it as one unit, gives the transcript.  So
    two transcripts with the same escaped form are the same transcript. *)
Theorem escapeTranscription_round_trip :
  (forall transcription : list N,
      Spec.unescape (escapeTranscription transcription) = transcription) /\
  (forall a b : list N,
      escapeTranscription a = escapeTranscription b -> a = b).
Proof.
  split; [exact unescape_escaped|].
  intros a b Hsame.
  rewrite <- (unescape_escaped a), <- (unescape_escaped b).
  now rewrite Hsame.
Qed.

(** X4. The escaped transcript holds no line feed, carriage return or tab;
    every double quote in it comes right after a backslash; and it is at
    least as long as the transcript and at most twice as long. *)
Theorem escapeTranscription_output_safe (transcription : list N) :
  Forall (fun c => c <> LF /\ c <> CR /\ c <> TAB)
    (escapeTranscription transcription) /\
  (forall i : nat,
      escapeTranscription transcription !! i = Some QUOTE ->
      exists j, i = S j /\
                escapeTranscription transcription !! j = Some BACKSLASH) /\
  length transcription <= length (escapeTranscription transcription)
    <= 2 * length transcription.
Proof.
  induction transcription as [|c t (IHall & IHquote & IHlen)].
  - split; [constructor|]. split; [intros i Hi; discriminate Hi|cbn; lia].
  - rewrite escapeTranscription_cons.
    destruct (escape_unit_cases c)
      as [(-> & Hb & Hq & Hl & Hc & Ht)|(x & -> & _ & Hl & Hc & Ht)].
    + split; [constructor; [now repeat split|exact IHall]|].
      split; [|cbn; lia].
      intros [|i] Hi; cbn in Hi; [congruence|].
      destruct (IHquote i Hi) as (j & -> & Hj).
      exists (S j). split; [reflexivity|exact Hj].
    + split; [constructor; [now repeat split|
                            constructor; [now repeat split|exact IHall]]|].
      split; [|cbn; lia].
      intros [|[|i]] Hi; cbn in Hi; [discriminate Hi|now exists 0|].
      destruct (IHquote i Hi) as (j & -> & Hj).
      exists (S (S j)). split; [reflexivity|exact Hj].
Qed.

Lemma split_pieces (sep : N) (s : list N) :
  Forall (Forall (fun c => c <> sep)) (split sep s).
Proof.
  induction s as [|c s IH]; [repeat constructor|].
  cbn [split]. destruct (N.eqb_spec c sep) as [->|Hc].
  - constructor; [constructor|exact IH].
  - destruct (split sep s) as [|h t]; [repeat constructor; exact Hc|].
    apply Forall_cons in IH as [Hh Ht].
    constructor; [constructor; [exact Hc|exact Hh]|exact Ht].
Qed.

(** X5. The transcript read off the engine's output is one line: it holds
    no line feed, whatever the engine printed, and neither begins nor ends
    with white space. *)
Theorem parseStdout_single_line (out : list N) :
  Forall (fun c => c <> LF) (parseStdout out) /\
  (forall c : N, head (parseStdout out) = Some c -> is_trimmable c = false) /\
  (forall c : N, last (parseStdout out) = Some c -> is_trimmable c = false).
Proof.
  rewrite parseStdout_spec. unfold Spec.transcript_of_stdout.
  set (kept := filter _ (split LF out)).
  assert (Hkept : Forall (Forall (fun c => c <> LF)) kept).
  { apply Forall_kept. apply split_pieces. }
  split; [|split].
  - apply Forall_trim. clearbody kept.
    induction Hkept as [|line kept Hline _ IH]; [constructor|].
    cbn [map concat]. rewrite <- app_assoc.
    apply Forall_app. split; [exact Hline|].
    constructor; [discriminate|exact IH].
  - intros c Hc. unfold trim, trimEnd in Hc.
    rewrite head_rev_last in Hc.
    set (s := trimStart (concat _)) in Hc.
    destruct (trimStart_last (rev s)) as [Hnil|Hsame].
    + rewrite Hnil in Hc. discriminate Hc.
    + rewrite Hsame, last_rev_head in Hc. now apply (trimStart_head _ _ Hc).
  - intros c Hc. unfold trim, trimEnd in Hc.
    rewrite last_rev_head in Hc. now apply (trimStart_head _ _ Hc).
Qed.

End EscapedText.

Section EscapedTextScenarios.
Import LLMHelper.

Lemma escapeTranscription_round_trip_witness :
  Scenario.he_said_hi = lit "He said " ++ [QUOTE] ++ lit "hi" ++ [QUOTE; LF].
Proof.
  apply (proj2 escapeTranscription_round_trip). reflexivity.
Defined.

Lemma escapeTranscription_output_safe_witness :
  exists j : nat,
    9%nat = S j /\
    escapeTranscription Scenario.he_said_hi !! j = Some BACKSLASH.
Proof.
  apply (proj1 (proj2 (escapeTranscription_output_safe Scenario.he_said_hi))
           9%nat).
  reflexivity.
Defined.

Lemma parseStdout_single_line_witness : is_trimmable 115 = false.
Proof.
  apply (proj1 (proj2 (parseStdout_single_line
                         (lit " spoken aloud " ++ [LF]))) 115).
  reflexivity.
Defined.

End EscapedTextScenarios.

(* ===================================================================== *)
(** * The audio pipeline: conversion in general, failures, files *)
(* ===================================================================== *)

Section PipelineEdges.
Import LLMHelper.

Variable rt : Runtime.

(** ** Conversion never aborts the method *)

Lemma convertPrimary_run (audioPath ext : list N) (w : World) :
  let w1 :=
    Spec.world_after (execAsync rt (Spec.primary_command audioPath ext)) w in
  exists r,
    convertPrimary rt audioPath ext w = (r, w1) /\
    forall p, r = Ok p ->
      (p = audioPath \/ p = boostedWavPath_of audioPath ext) /\
      (is_Some (fs w !! audioPath) -> is_Some (fs w1 !! p)).
Proof.
  intros w1. subst w1. unfold convertPrimary, Spec.primary_command. cbv zeta.
  case_bool_decide as Hwav; cbn [negb]; cbv iota.
  - unfold bind at 1. rewrite execAsync_run.
    destruct (exit_ok _); [|eexists; split; [reflexivity|discriminate]].
    unfold bind at 1. unfold existsSync at 1.
    case_bool_decide as Hpresent; unfold ret;
      (eexists; split; [reflexivity|]); intros p [= <-].
    + split; [now right|now intros _].
    + split; [now left|apply execAsync_keeps].
  - unfold bind at 1. rewrite execAsync_run.
    destruct (exit_ok _); [|eexists; split; [reflexivity|discriminate]].
    unfold bind at 1. unfold existsSync at 1.
    case_bool_decide as Hpresent.
    + unfold bind at 1. unfold stat_size at 1.
      destruct Hpresent as [c Hc]. rewrite Hc. unfold ret.
      eexists; split; [reflexivity|]. intros p [= <-].
      split; [now right|intros _; eauto].
    + unfold throw. eexists; split; [reflexivity|discriminate].
Qed.

Lemma convert_run (audioPath ext : list N) (w : World) :
  is_Some (fs w !! audioPath) ->
  let w1 :=
    Spec.world_after (execAsync rt (Spec.primary_command audioPath ext)) w in
  let w2 :=
    Spec.world_after
      (execAsync rt (simpleCmd audioPath (simpleWavPath_of audioPath ext))) w1 in
  exists processPath w',
    convert rt audioPath ext w = (Ok processPath, w') /\
    (w' = w1 \/ w' = w2) /\
    (processPath = audioPath \/
     processPath = boostedWavPath_of audioPath ext \/
     processPath = simpleWavPath_of audioPath ext) /\
    is_Some (fs w' !! processPath) /\
    is_Some (fs w' !! audioPath).
Proof.
  intros Hsaved w1 w2.
  destruct (convertPrimary_run audioPath ext w) as (r & Hr & Hok).
  fold w1 in Hr, Hok.
  assert (Hsaved1 : is_Some (fs w1 !! audioPath)) by now apply execAsync_keeps.
  assert (Hchosen : exists p w',
             try_catch (convertPrimary rt audioPath ext)
               (fun _ => try_catch (convertSimple rt audioPath ext)
                           (fun _ => ret audioPath)) w = (Ok p, w') /\
             (w' = w1 \/ w' = w2) /\
             (p = audioPath \/ p = boostedWavPath_of audioPath ext \/
              p = simpleWavPath_of audioPath ext) /\
             is_Some (fs w' !! p) /\ is_Some (fs w' !! audioPath)).
  { unfold try_catch at 1. rewrite Hr. destruct r as [p|e].
    - destruct (Hok p eq_refl) as [Hp Hpresent].
      exists p, w1. split; [reflexivity|]. split; [now left|].
      split; [tauto|]. split; [now apply Hpresent|exact Hsaved1].
    - destruct (convertSimple_caught rt audioPath ext w1)
        as (p & Hp & Hpresent & _).
      fold w2 in Hp, Hpresent.
      exists p, w2. split; [exact Hp|]. split; [now right|].
      split; [|split; [now apply Hpresent|now apply execAsync_keeps]].
      revert Hp. unfold try_catch, convertSimple. cbv zeta.
      unfold bind at 1. rewrite execAsync_run.
      destruct (exit_ok _); [|unfold ret; intros [= <-]; now left].
      unfold bind at 1. unfold existsSync at 1.
      case_bool_decide; unfold ret; intros [= <-]; tauto. }
  destruct Hchosen as (p & w' & Hrun & Hw' & Hp & Hpresent & Hsaved').
  exists p, w'. unfold convert. unfold bind at 1. rewrite Hrun.
  unfold bind at 1. unfold existsSync at 1.
  rewrite bool_decide_eq_true_2 by exact Hpresent.
  now repeat split.
Qed.

Lemma prepare_run (data mimeType : list N) (w : World) :
  let audioPath := Spec.audioPath_at rt mimeType w in
  let ext := ext_of mimeType in
  let w0 := Spec.world_after (saveAudio rt data mimeType) w in
  exists processPath w1,
    Spec.prepare rt data mimeType w = (Ok (audioPath, ext, processPath), w1) /\
    convert rt audioPath ext w0 = (Ok processPath, w1) /\
    (processPath = audioPath \/
     processPath = boostedWavPath_of audioPath ext \/
     processPath = simpleWavPath_of audioPath ext) /\
    is_Some (fs w1 !! processPath) /\
    is_Some (fs w1 !! audioPath).
Proof.
  intros audioPath ext w0.
  destruct (convert_run audioPath ext w0 (saved_audio_present rt data mimeType w))
    as (p & w1 & Hrun & _ & Hp & Hpresent & Hsaved).
  exists p, w1. split; [|now repeat split].
  unfold Spec.prepare. unfold bind at 1. rewrite saveAudio_run.
  cbn [fst snd]. fold audioPath ext.
  change (set_fs _ w) with
    (set_fs (<[audioPath := Buffer_from_base64 rt data]> (fs w)) w).
  assert (w0 = set_fs (<[audioPath := Buffer_from_base64 rt data]> (fs w)) w)
    as <-.
  { unfold w0, Spec.world_after. now rewrite saveAudio_run. }
  unfold bind at 1. now rewrite Hrun.
Qed.

(** X6. Once the segment has been saved, conversion never makes the
    method fail: whatever the converter does, the conversion stage returns
    a file to transcribe, and the method gets as far as the transcription
    engine.  The file given to the engine is the saved segment, the boosted
    file or the plainly converted file, and it exists when the engine is
    started, as does the saved segment; the engine is the next command
    run. *)
Theorem conversion_never_aborts (data mimeType : list N) (w w0 : World)
    (audioPath ext : list N) :
  saveAudio rt data mimeType w = (Ok (audioPath, ext), w0) ->
  exists processPath w1,
    convert rt audioPath ext w0 = (Ok processPath, w1) /\
    Spec.prepare rt data mimeType w = (Ok (audioPath, ext, processPath), w1) /\
    (processPath = audioPath \/
     processPath = boostedWavPath_of audioPath ext \/
     processPath = simpleWavPath_of audioPath ext) /\
    is_Some (fs w1 !! processPath) /\
    is_Some (fs w1 !! audioPath) /\
    exists rest,
      executed (Spec.world_after (analyzeAudioFromBase64 rt data mimeType) w) =
      executed w1 ++ whisperCommand processPath :: rest.
Proof.
  intros Hsaved.
  assert (Hpresent0 : is_Some (fs w0 !! audioPath)).
  { revert Hsaved. unfold saveAudio, bind, Date_now, writeFile, stat_size, ret.
    cbn. destruct (_ !! _) as [c|] eqn:Hc; [|discriminate].
    intros [= <- <- <-]. cbn. rewrite Hc. eauto. }
  destruct (convert_run audioPath ext w0 Hpresent0)
    as (p & w1 & Hrun & _ & Hp & Hpresent & Hstill).
  assert (Hprepared : Spec.prepare rt data mimeType w =
                      (Ok (audioPath, ext, p), w1)).
  { unfold Spec.prepare. unfold bind at 1. rewrite Hsaved. cbn [fst snd].
    unfold bind at 1. now rewrite Hrun. }
  exists p, w1. split; [exact Hrun|]. split; [exact Hprepared|].
  split; [exact Hp|]. split; [exact Hpresent|]. split; [exact Hstill|].
  destruct (continue_with_executed rt audioPath ext p w1) as [rest Hrest].
  exists rest. unfold Spec.world_after in *.
  now rewrite analyzeAudioFromBase64_prepared, Hprepared.
Qed.

(** ** A WAV segment whose boost is rejected *)

Lemma replaceFirst_same (pat s : list N) : replaceFirst pat pat s = s.
Proof.
  induction s as [|c s IH]; cbn [replaceFirst].
  - destruct (startsWith [] pat) eqn:E; [|reflexivity].
    symmetry. now apply startsWith_inv.
  - destruct (startsWith (c :: s) pat) eqn:E; [|now rewrite IH].
    symmetry. now apply startsWith_inv.
Qed.

Lemma ext_of_other (mimeType : list N) :
  includes mimeType (lit "webm") = false -> ext_of mimeType = lit "wav".
Proof. unfold ext_of. now intros ->. Qed.

Lemma convertSimple_chosen (audioPath ext : list N) (w : World) :
  exists p,
    try_catch (convertSimple rt audioPath ext) (fun _ => ret audioPath) w =
    (Ok p,
     Spec.world_after
       (execAsync rt (simpleCmd audioPath (simpleWavPath_of audioPath ext))) w)
    /\ (p = audioPath \/ p = simpleWavPath_of audioPath ext).
Proof.
  unfold try_catch, convertSimple. cbv zeta.
  unfold bind at 1. rewrite execAsync_run.
  destruct (exit_ok _); [|unfold ret; eexists; split; [reflexivity|now left]].
  unfold bind at 1. unfold existsSync at 1.
  case_bool_decide; unfold ret; eexists; (split; [reflexivity|tauto]).
Qed.

(** X7. A segment that is not webm is saved as WAV.  When the volume boost
    of such a segment is rejected, the fallback conversion is run with the
    saved file as both its input and its output, because replacing the
    extension of a WAV path by the WAV extension gives the path back; the
    file handed to the engine is then the saved file, whether or not the
    fallback succeeded. *)
Theorem wav_fallback_converts_in_place (data mimeType : list N) (w : World) :
  let audioPath := Spec.audioPath_at rt mimeType w in
  let w0 := Spec.world_after (saveAudio rt data mimeType) w in
  let boost := boostCmd audioPath (boostedWavPath_of audioPath (lit "wav")) in
  includes mimeType (lit "webm") = false ->
  exit_ok (exec rt boost (fs w0)) = false ->
  simpleWavPath_of audioPath (lit "wav") = audioPath /\
  exists w1,
    Spec.prepare rt data mimeType w =
      (Ok (audioPath, lit "wav", audioPath), w1) /\
    executed w1 = executed w ++ [boost; simpleCmd audioPath audioPath].
Proof.
  intros audioPath w0 boost Hwav Hrejected.
  assert (Hsame : simpleWavPath_of audioPath (lit "wav") = audioPath)
    by apply replaceFirst_same.
  split; [exact Hsame|].
  set (w1 := Spec.world_after (execAsync rt boost) w0).
  set (w2 := Spec.world_after
               (execAsync rt (simpleCmd audioPath audioPath)) w1).
  exists w2. split.
  - unfold Spec.prepare. unfold bind at 1. rewrite saveAudio_run.
    cbn [fst snd]. rewrite (ext_of_other _ Hwav). fold audioPath.
    assert (w0 = set_fs (<[audioPath := Buffer_from_base64 rt data]> (fs w)) w)
      as <-.
    { unfold w0, Spec.world_after. now rewrite saveAudio_run. }
    assert (Hprimary : convertPrimary rt audioPath (lit "wav") w0 =
                       (Throw (ExecError boost), w1)).
    { unfold convertPrimary. cbv zeta.
      rewrite bool_decide_eq_true_2 by reflexivity. cbn [negb]. cbv iota.
      unfold bind at 1. rewrite execAsync_run. fold boost.
      now rewrite Hrejected. }
    destruct (convertSimple_chosen audioPath (lit "wav") w1) as (p & Hp & Hwhich).
    rewrite Hsame in Hp, Hwhich. fold w2 in Hp.
    assert (p = audioPath) as -> by tauto.
    unfold bind at 1. unfold convert. unfold bind at 1.
    unfold try_catch at 1. rewrite Hprimary, Hp.
    unfold bind at 1. unfold existsSync at 1.
    rewrite bool_decide_eq_true_2; [reflexivity|].
    unfold w2, w1. do 2 apply execAsync_keeps.
    apply saved_audio_present.
  - unfold w2, w1, w0.
    rewrite !execAsync_executed, saved_audio_executed.
    now rewrite <- app_assoc.
Qed.

(** ** Derived file names *)

(** X8. The names of the boosted file, of the plainly converted file and of
    the text file are derived from the saved path by replacing the first
    place where a dot and the extension occur, wherever that is: in a path
    with no dot before that place, that place is what is replaced and all
    that follows it is kept, a later occurrence of the extension
    included. *)
Theorem derived_paths_replace_first_occurrence
    (before ext suffix after : list N) :
  Forall (fun c => c <> 46%N) before ->
  with_suffix (before ++ lit "." ++ ext ++ after) ext suffix =
  before ++ suffix ++ after.
Proof.
  intros Hbefore. unfold with_suffix.
  induction Hbefore as [|c before Hc _ IH].
  - cbn [app]. destruct (lit "." ++ ext ++ after) as [|x rest] eqn:E;
      [discriminate E|].
    cbn [replaceFirst]. rewrite <- E.
    replace (lit "." ++ ext ++ after) with ((lit "." ++ ext) ++ after)
      by now rewrite <- app_assoc.
    now rewrite startsWith_app, drop_app_length.
  - cbn [app replaceFirst]. rewrite IH.
    change (lit "." ++ ext) with (46%N :: ext). cbn [startsWith].
    apply N.eqb_neq in Hc. now rewrite Hc.
Qed.

(** ** Failures after conversion *)

(** X9. When the transcription engine is rejected, the method fails with
    the engine's error right away: the engine is the last command run, no
    request is written, and the saved segment and the file given to the
    engine are still there afterwards. *)
Theorem engine_failure_aborts (data mimeType : list N) (w : World)
    (audioPath ext processPath : list N) (w1 : World) :
  let final := Spec.world_after (analyzeAudioFromBase64 rt data mimeType) w in
  Spec.prepare rt data mimeType w = (Ok (audioPath, ext, processPath), w1) ->
  exit_ok (exec rt (whisperCommand processPath) (fs w1)) = false ->
  (analyzeAudioFromBase64 rt data mimeType w).1 =
    Throw (ExecError (whisperCommand processPath)) /\
  executed final = executed w1 ++ [whisperCommand processPath] /\
  is_Some (fs final !! audioPath) /\
  is_Some (fs final !! processPath).
Proof.
  intros final Hprepared Hrejected.
  destruct (prepare_run data mimeType w)
    as (p & w1' & Hrun & _ & _ & Hpresent & Hsaved).
  rewrite Hprepared in Hrun. injection Hrun as Ha He Hp Hw.
  subst audioPath ext p w1'.
  assert (Hfinal : analyzeAudioFromBase64 rt data mimeType w =
            (Throw (ExecError (whisperCommand processPath)),
             Spec.world_after (execAsync rt (whisperCommand processPath)) w1)).
  { rewrite analyzeAudioFromBase64_prepared, Hprepared.
    unfold Spec.continue_with, transcribe. unfold bind at 1 2.
    now rewrite execAsync_run, Hrejected. }
  unfold final, Spec.world_after at 1 2 3. rewrite Hfinal. cbn [fst snd].
  split; [reflexivity|]. split; [apply execAsync_executed|].
  split; now apply execAsync_keeps.
Qed.

Lemma infer_run (audioPath transcription : list N) (w : World) :
  let payloadPath := Spec.payloadPath_at rt w in
  let request := JSON_stringify rt (ollamaPayload transcription) in
  let w1 := Spec.world_after (writeFile payloadPath request) w in
  let server := exec rt (ollamaCommand payloadPath) (fs w1) in
  let w2 := Spec.world_after (execAsync rt (ollamaCommand payloadPath)) w1 in
  infer rt audioPath transcription w =
  (if exit_ok server then
     match JSON_parse rt (stdout server) with
     | None => throw SyntaxError
     | Some ollamaResponse =>
         await_ unlink_quiet payloadPath;
         await_ unlink_quiet audioPath;
         await txt <- response_of ollamaResponse;
         await stamp <- Date_now;
         ret {| text := txt; timestamp := stamp |}
     end
   else throw (ExecError (ollamaCommand payloadPath))) w2.
Proof.
  intros payloadPath request w1 server w2.
  unfold infer. unfold bind at 1, Date_now at 1.
  fold (Spec.payloadPath_at rt w). fold payloadPath. fold request.
  unfold bind at 1. unfold writeFile at 1.
  change (set_fs (<[payloadPath:=request]> (fs w)) w) with w1.
  unfold bind at 1. rewrite execAsync_run. fold server w2.
  now destruct (exit_ok server).
Qed.

(** X10. When the HTTP client is rejected, or its output is not JSON, the
    inference stage fails with that error before any cleanup: the request
    file it wrote and the saved segment are both still there. *)
Theorem inference_failure_leaves_files
    (audioPath transcription : list N) (w : World) :
  let payloadPath := Spec.payloadPath_at rt w in
  let request := JSON_stringify rt (ollamaPayload transcription) in
  let w1 := Spec.world_after (writeFile payloadPath request) w in
  let server := exec rt (ollamaCommand payloadPath) (fs w1) in
  let final := Spec.world_after (infer rt audioPath transcription) w in
  is_Some (fs w !! audioPath) ->
  exit_ok server = false \/
  (exit_ok server = true /\ JSON_parse rt (stdout server) = None) ->
  (infer rt audioPath transcription w).1 =
    Throw (if exit_ok server then SyntaxError
           else ExecError (ollamaCommand payloadPath)) /\
  is_Some (fs final !! payloadPath) /\
  is_Some (fs final !! audioPath).
Proof.
  intros payloadPath request w1 server final Hsaved Hfail.
  assert (Hpayload1 : is_Some (fs w1 !! payloadPath)).
  { unfold w1, Spec.world_after. cbn. rewrite lookup_insert_eq. eauto. }
  assert (Hsaved1 : is_Some (fs w1 !! audioPath)).
  { unfold w1, Spec.world_after. cbn.
    destruct (decide (payloadPath = audioPath)) as [->|Hne].
    - rewrite lookup_insert_eq. eauto.
    - now rewrite lookup_insert_ne. }
  unfold final, Spec.world_after at 1 2.
  rewrite (infer_run audioPath transcription w).
  fold payloadPath request w1 server.
  destruct Hfail as [Hrejected|[Hok Hparse]].
  - rewrite Hrejected. unfold throw. cbn [fst snd].
    split; [reflexivity|]. split; now apply execAsync_keeps.
  - rewrite Hok, Hparse. unfold throw. cbn [fst snd].
    split; [reflexivity|]. split; now apply execAsync_keeps.
Qed.

Lemma unlink_quiet_run (p : list N) (w : World) :
  unlink_quiet p w =
  (Ok tt,
   if bool_decide (is_Some (fs w !! p) /\ p ∉ locked w)
   then set_fs (delete p (fs w)) w else w).
Proof.
  unfold unlink_quiet, try_catch, unlink.
  destruct (fs w !! p) as [c|] eqn:Hp.
  - destruct (decide (p ∈ locked w)) as [Hlocked|Hfree].
    + rewrite bool_decide_eq_false_2 by tauto. reflexivity.
    + rewrite bool_decide_eq_true_2 by eauto. reflexivity.
  - rewrite bool_decide_eq_false_2; [reflexivity|].
    intros [[c Hc] _]. discriminate Hc.
Qed.

Lemma unlink_quiet_gone (p : list N) (w : World) :
  p ∉ locked w -> fs (unlink_quiet p w).2 !! p = None.
Proof.
  intros Hfree. rewrite unlink_quiet_run. cbn [snd].
  case_bool_decide as Hcan; cbn.
  - apply lookup_delete_eq.
  - destruct (fs w !! p) eqn:Hp; [|reflexivity].
    destruct Hcan. eauto.
Qed.

Lemma unlink_quiet_stays_gone (p q : list N) (w : World) :
  fs w !! p = None -> fs (unlink_quiet q w).2 !! p = None.
Proof.
  intros Hgone. rewrite unlink_quiet_run. cbn [snd].
  case_bool_decide; [|exact Hgone]. cbn.
  destruct (decide (q = p)) as [->|Hne].
  - apply lookup_delete_eq.
  - now rewrite lookup_delete_ne.
Qed.

Lemma unlink_quiet_locked (p : list N) (w : World) :
  locked (unlink_quiet p w).2 = locked w /\
  clock (unlink_quiet p w).2 = clock w.
Proof. rewrite unlink_quiet_run. cbn [snd]. now case_bool_decide. Qed.

(** X11. Once the HTTP client has succeeded and its output has been
    parsed, the outcome of the inference stage is decided by the parsed
    value alone.  The value null makes the stage fail with a type error,
    although the call succeeded; any other value makes it return that
    value's response member, which is undefined when the value is not an
    object or has no such member, stamped with the time at which the stage
    ends.  The client is the only command the stage runs. *)
Theorem parsed_output_decides_result
    (audioPath transcription : list N) (w : World) (v : json) :
  let payloadPath := Spec.payloadPath_at rt w in
  let request := JSON_stringify rt (ollamaPayload transcription) in
  let w1 := Spec.world_after (writeFile payloadPath request) w in
  let server := exec rt (ollamaCommand payloadPath) (fs w1) in
  let final := Spec.world_after (infer rt audioPath transcription) w in
  exit_ok server = true ->
  JSON_parse rt (stdout server) = Some v ->
  (infer rt audioPath transcription w).1 =
    match v with
    | JNull => Throw TypeError
    | JObject members =>
        Ok {| text := get_member (lit "response") members;
              timestamp := clock final |}
    | _ => Ok {| text := None; timestamp := clock final |}
    end /\
  executed final = executed w ++ [ollamaCommand payloadPath].
Proof.
  intros payloadPath request w1 server final Hok Hparse.
  set (w2 := Spec.world_after (execAsync rt (ollamaCommand payloadPath)) w1).
  set (w3 := (unlink_quiet payloadPath w2).2).
  set (w4 := (unlink_quiet audioPath w3).2).
  assert (Hrun : infer rt audioPath transcription w =
            (match v with
             | JNull => Throw TypeError
             | JObject members =>
                 Ok {| text := get_member (lit "response") members;
                       timestamp := clock w4 |}
             | _ => Ok {| text := None; timestamp := clock w4 |}
             end, w4)).
  { rewrite (infer_run audioPath transcription w).
    fold payloadPath request w1 server w2. rewrite Hok, Hparse.
    unfold bind at 1.
    rewrite (surjective_pairing (unlink_quiet payloadPath w2)).
    rewrite unlink_quiet_ok. fold w3.
    unfold bind at 1.
    rewrite (surjective_pairing (unlink_quiet audioPath w3)).
    rewrite unlink_quiet_ok. fold w4.
    now destruct v. }
  unfold final, Spec.world_after. rewrite Hrun. cbn [fst snd].
  split; [reflexivity|].
  unfold w4, w3. rewrite !unlink_quiet_run. cbn [snd].
  assert (Hlog : executed w2 = executed w ++ [ollamaCommand payloadPath])
    by (unfold w2; now rewrite execAsync_executed).
  repeat case_bool_decide; cbn; exact Hlog.
Qed.

(** ** Which files the method removes *)

Lemma keeps_ret {A} p (a : A) : Spec.keeps p (ret a).
Proof. now intros w Hp. Qed.

Lemma keeps_throw {A} p e : Spec.keeps p (@throw A e).
Proof. now intros w Hp. Qed.

Lemma keeps_bind {A B} p (m : M A) (k : A -> M B) :
  Spec.keeps p m -> (forall a, Spec.keeps p (k a)) -> Spec.keeps p (bind m k).
Proof.
  intros Hm Hk w Hp. unfold bind. specialize (Hm w Hp).
  destruct (m w) as [[a|e] w1]; cbn in *; [now apply Hk|exact Hm].
Qed.

Lemma keeps_try_catch {A} p (m : M A) (h : Error -> M A) :
  Spec.keeps p m -> (forall e, Spec.keeps p (h e)) ->
  Spec.keeps p (try_catch m h).
Proof.
  intros Hm Hh w Hp. unfold try_catch. specialize (Hm w Hp).
  destruct (m w) as [[a|e] w1]; cbn in *; [exact Hm|now apply Hh].
Qed.

Lemma keeps_execAsync p cmd : Spec.keeps p (execAsync rt cmd).
Proof. intros w Hp. now apply execAsync_keeps. Qed.

Lemma keeps_Date_now p : Spec.keeps p Date_now.
Proof. now intros w Hp. Qed.

Lemma keeps_existsSync p q : Spec.keeps p (existsSync q).
Proof. now intros w Hp. Qed.

Lemma keeps_writeFile p q c : Spec.keeps p (writeFile q c).
Proof.
  intros w Hp. cbn. destruct (decide (q = p)) as [->|Hne].
  - rewrite lookup_insert_eq. eauto.
  - now rewrite lookup_insert_ne.
Qed.

Lemma keeps_readFile p q : Spec.keeps p (readFile q).
Proof. intros w Hp. unfold readFile. now destruct (fs w !! q). Qed.

Lemma keeps_stat_size p q : Spec.keeps p (stat_size q).
Proof. intros w Hp. unfold stat_size. now destruct (fs w !! q). Qed.

Lemma keeps_unlink_quiet p q : q <> p -> Spec.keeps p (unlink_quiet q).
Proof.
  intros Hne w Hp. rewrite unlink_quiet_run. cbn [snd].
  case_bool_decide; [|exact Hp]. cbn. now rewrite lookup_delete_ne.
Qed.

Lemma keeps_response_of p v : Spec.keeps p (response_of v).
Proof. destruct v; first [apply keeps_ret | apply keeps_throw]. Qed.

Create HintDb keeps.
#[local] Hint Resolve keeps_ret keeps_throw keeps_execAsync keeps_Date_now
  keeps_existsSync keeps_writeFile keeps_readFile keeps_stat_size
  keeps_unlink_quiet keeps_response_of : keeps.

Ltac keeps_step :=
  first [ solve [auto with keeps]
        | progress cbv zeta
        | match goal with
          | |- Spec.keeps _ (if ?b then _ else _) => destruct b
          | |- Spec.keeps _ (match ?x with Some _ => _ | None => _ end) =>
              destruct x
          end
        | apply keeps_bind; [|intros ?]
        | apply keeps_try_catch; [|intros ?] ].

Lemma keeps_convert p audioPath ext : Spec.keeps p (convert rt audioPath ext).
Proof.
  unfold convert, convertPrimary, convertSimple. repeat keeps_step.
Qed.

Lemma keeps_transcribe p audioPath ext processPath :
  transcriptionFile_of audioPath ext <> p ->
  Spec.keeps p (transcribe rt audioPath ext processPath).
Proof.
  intros Hne. unfold transcribe, readSidecar. repeat keeps_step.
Qed.

Lemma keeps_infer p audioPath transcription :
  audioPath <> p ->
  (forall now, Spec.payloadPath_written rt now <> p) ->
  Spec.keeps p (infer rt audioPath transcription).
Proof.
  intros Hne Hpayload. unfold infer.
  apply keeps_bind; [auto with keeps|]. intros now.
  specialize (Hpayload now). unfold Spec.payloadPath_written in Hpayload.
  repeat keeps_step.
Qed.

(** X12. The method removes no file other than the saved segment, the text
    file named after it and the request file: any other file that exists
    when the method is called still exists when it ends, however it ends
    and whatever the external programs write. *)
Theorem only_own_files_are_removed (data mimeType : list N) (w : World)
    (p : list N) :
  let audioPath := Spec.audioPath_at rt mimeType w in
  is_Some (fs w !! p) ->
  p <> audioPath ->
  p <> transcriptionFile_of audioPath (ext_of mimeType) ->
  (forall now : N, p <> Spec.payloadPath_written rt now) ->
  is_Some
    (fs (Spec.world_after (analyzeAudioFromBase64 rt data mimeType) w) !! p).
Proof.
  intros audioPath Hp Hsaved Hsidecar Hpayload.
  unfold Spec.world_after at 1. rewrite analyzeAudioFromBase64_run.
  fold audioPath.
  assert (Hrest : Spec.keeps p
            (await processPath <- convert rt audioPath (ext_of mimeType);
             Spec.continue_with rt audioPath (ext_of mimeType) processPath)).
  { apply keeps_bind; [apply keeps_convert|]. intros processPath.
    unfold Spec.continue_with.
    apply keeps_bind; [apply keeps_transcribe; congruence|].
    intros transcription. apply keeps_infer; [congruence|].
    intros now E. now apply (Hpayload now). }
  apply Hrest. unfold Spec.world_after. rewrite saveAudio_run. cbn.
  fold audioPath. now rewrite lookup_insert_ne by congruence.
Qed.

End PipelineEdges.

Section PipelineEdgeScenarios.
Import LLMHelper.

Lemma wav_fallback_converts_in_place_witness :
  exists w1,
    Spec.prepare Scenario.without_ffmpeg Scenario.segment Scenario.wav
      Scenario.fresh =
      (Ok (lit "/app/temp/audio_0.wav", lit "wav", lit "/app/temp/audio_0.wav"),
       w1) /\
    executed w1 =
      [boostCmd (lit "/app/temp/audio_0.wav")
         (lit "/app/temp/audio_0_boosted.wav");
       simpleCmd (lit "/app/temp/audio_0.wav") (lit "/app/temp/audio_0.wav")].
Proof.
  apply (wav_fallback_converts_in_place Scenario.without_ffmpeg
           Scenario.segment Scenario.wav Scenario.fresh); reflexivity.
Defined.

(** In a working directory whose own name holds the extension, the text
    file is looked for in another directory. *)
Lemma derived_paths_replace_first_occurrence_witness :
  transcriptionFile_of (lit "/srv/my.webm/temp/audio_0.webm") (lit "webm") =
  lit "/srv/my.txt/temp/audio_0.webm".
Proof.
  apply (derived_paths_replace_first_occurrence (lit "/srv/my") (lit "webm")
           (lit ".txt") (lit "/temp/audio_0.webm")).
  repeat (constructor; [discriminate|]). constructor.
Defined.

Lemma engine_failure_aborts_witness :
  (analyzeAudioFromBase64 Scenario.without_engine Scenario.segment
     Scenario.webm Scenario.fresh).1 =
  Throw (ExecError (whisperCommand Scenario.converted_audio)).
Proof.
  apply (engine_failure_aborts Scenario.without_engine Scenario.segment
           Scenario.webm Scenario.fresh Scenario.saved_audio (lit "webm")
           Scenario.converted_audio
           (Spec.world_after
              (Spec.prepare Scenario.without_engine Scenario.segment
                 Scenario.webm) Scenario.fresh)).
  - vm_compute. reflexivity.
  - reflexivity.
Defined.

Lemma inference_failure_leaves_files_witness :
  is_Some
    (fs (Spec.world_after
           (infer Scenario.server_down Scenario.saved_audio (lit "hello"))
           (Spec.world_after
              (saveAudio Scenario.server_down Scenario.segment Scenario.webm)
              Scenario.fresh))
       !! lit "/app/temp/ollama_payload_0.json").
Proof.
  apply (inference_failure_leaves_files Scenario.server_down
           Scenario.saved_audio (lit "hello")
           (Spec.world_after
              (saveAudio Scenario.server_down Scenario.segment Scenario.webm)
              Scenario.fresh)).
  - vm_compute. eauto.
  - left. reflexivity.
Defined.

Lemma parsed_output_decides_result_witness :
  (infer Scenario.null_server Scenario.saved_audio (lit "hello")
     (Spec.world_after
        (saveAudio Scenario.null_server Scenario.segment Scenario.webm)
        Scenario.fresh)).1 = Throw TypeError.
Proof.
  apply (parsed_output_decides_result Scenario.null_server
           Scenario.saved_audio (lit "hello")
           (Spec.world_after
              (saveAudio Scenario.null_server Scenario.segment Scenario.webm)
              Scenario.fresh) JNull); reflexivity.
Defined.

Lemma conversion_never_aborts_witness :
  exists processPath w1,
    convert Scenario.without_ffmpeg Scenario.saved_audio (lit "webm")
      (Spec.world_after
         (saveAudio Scenario.without_ffmpeg Scenario.segment Scenario.webm)
         Scenario.fresh) = (Ok processPath, w1) /\
    processPath = Scenario.saved_audio.
Proof.
  destruct (conversion_never_aborts Scenario.without_ffmpeg Scenario.segment
              Scenario.webm Scenario.fresh
              (Spec.world_after
                 (saveAudio Scenario.without_ffmpeg Scenario.segment
                    Scenario.webm) Scenario.fresh)
              Scenario.saved_audio (lit "webm"))
    as (p & w1 & Hrun & _).
  - vm_compute. reflexivity.
  - exists p, w1. split; [exact Hrun|].
    revert Hrun. vm_compute. now intros [= <- _].
Defined.

Lemma only_own_files_are_removed_witness :
  is_Some
    (fs (Spec.world_after
           (analyzeAudioFromBase64 Scenario.healthy Scenario.segment
              Scenario.webm) Scenario.with_notes)
       !! lit "/app/notes.txt").
Proof.
  apply (only_own_files_are_removed Scenario.healthy Scenario.segment
           Scenario.webm Scenario.with_notes (lit "/app/notes.txt")).
  - vm_compute. eauto.
  - discriminate.
  - discriminate.
  - intros now. discriminate.
Defined.

End PipelineEdgeScenarios.

(* ===================================================================== *)
(** * The reveal from start to end *)
(* ===================================================================== *)

Section RevealProgress.
Import QueueCommands.
Local Open Scope nat_scope.

Lemma adjustedIndex_upper (text : list N) (cur : nat) :
  adjustedIndex_of text cur <= cur + 12.
Proof.
  unfold adjustedIndex_of.
  pose proof (charsToAdd_pos (length text - cur)) as Hn.
  set (n := charsToAdd_of _) in *.
  set (nextIndex := Nat.min (cur + n) (length text)).
  assert (nextIndex <= cur + 3) by lia.
  destruct (text !! nextIndex) as [c|]; [|lia].
  destruct (_ && _); [|lia].
  destruct (indexOf SPACE text nextIndex) as [k|] eqn:E; [|lia].
  destruct (Nat.ltb_spec (k - nextIndex) 10); lia.
Qed.

(** Each cut lies past the one before it (past the start, for the first),
    by twelve units at most, and not past the end of the text. *)
Lemma cuts_steps (n : nat) (text : list N) (cur i k : nat) :
  Spec.cuts n text cur !! i = Some k ->
  let before :=
    match i with
    | O => cur
    | S j => default cur (Spec.cuts n text cur !! j)
    end in
  before < k <= before + 12 /\ k <= length text.
Proof.
  revert cur i. induction n as [|n IH]; intros cur i Hk; [discriminate Hk|].
  cbn [Spec.cuts] in *.
  destruct (Nat.leb_spec (length text) cur) as [|Hcur]; [discriminate Hk|].
  pose proof (adjustedIndex_bounds text cur Hcur) as Hb.
  pose proof (adjustedIndex_upper text cur) as Hu.
  destruct i as [|i]; cbn in Hk |- *.
  - injection Hk as <-. lia.
  - specialize (IH _ _ Hk). cbv zeta in IH.
    destruct i as [|j]; cbn; [exact IH|].
    destruct (Spec.cuts n text (adjustedIndex_of text cur) !! j) eqn:Hj;
      [exact IH|].
    apply lookup_ge_None in Hj. apply lookup_lt_Some in Hk. lia.
Qed.

Lemma cuts_length (n : nat) (text : list N) (cur : nat) :
  length (Spec.cuts n text cur) <= length text - cur.
Proof.
  revert cur. induction n as [|n IH]; intros cur; cbn [Spec.cuts]; [cbn; lia|].
  destruct (Nat.leb_spec (length text) cur) as [|Hcur]; [cbn; lia|].
  pose proof (adjustedIndex_bounds text cur Hcur) as Hb.
  specialize (IH (adjustedIndex_of text cur)). cbn [length]. lia.
Qed.

Lemma shown_length (text : list N) (id : N) (i : nat) (frame : list N) :
  simulateLiveTranscription text id !! i = Some frame ->
  exists k, Spec.cuts (S (length text)) text 0 !! i = Some k /\
            frame = take k text /\ length frame = k.
Proof.
  rewrite simulateLiveTranscription_cuts, list_lookup_fmap.
  destruct (Spec.cuts (S (length text)) text 0 !! i) as [k|] eqn:Hk;
    [|discriminate].
  intros [= <-]. exists k. split; [reflexivity|]. split; [reflexivity|].
  apply cuts_steps in Hk as [_ Hle]. rewrite length_take. lia.
Qed.

(** X13. The reveal of a response that is not empty shows longer and longer
    texts and ends with the whole response, in at most as many steps as the
    response has code units; the reveal of an empty response shows
    nothing. *)
Theorem reveal_grows_to_full_text (text : list N) (id : N) :
  let shown := simulateLiveTranscription text id in
  (text = [] -> shown = []) /\
  (text <> [] -> last shown = Some text) /\
  (forall (i : nat) (a b : list N),
      shown !! i = Some a -> shown !! S i = Some b -> length a < length b) /\
  (forall a : list N, head shown = Some a -> 0 < length a) /\
  length shown <= length text.
Proof.
  intros shown. split.
  { intros Hempty. unfold shown.
    now rewrite simulateLiveTranscription_cuts, Hempty. }
  split; [now apply simulateLiveTranscription_completes|].
  split; [|split].
  - intros i a b Ha Hb.
    apply shown_length in Ha as (ka & Hka & _ & ->).
    apply shown_length in Hb as (kb & Hkb & _ & ->).
    apply cuts_steps in Hkb. cbv zeta in Hkb. rewrite Hka in Hkb. cbn in Hkb.
    lia.
  - intros a Ha. rewrite head_lookup in Ha.
    apply shown_length in Ha as (k & Hk & _ & ->).
    apply cuts_steps in Hk. cbv zeta in Hk. lia.
  - unfold shown. rewrite simulateLiveTranscription_cuts, length_fmap.
    pose proof (cuts_length (S (length text)) text 0). lia.
Qed.

(** X14. One step of the reveal shows at most twelve more code units than
    the step before it: up to three by speed, and up to nine more to reach
    the end of the word. *)
Theorem reveal_step_at_most_twelve (text : list N) (id : N) :
  let shown := simulateLiveTranscription text id in
  (forall cur : nat, adjustedIndex_of text cur <= cur + 12) /\
  (forall a : list N, head shown = Some a -> length a <= 12) /\
  (forall (i : nat) (a b : list N),
      shown !! i = Some a -> shown !! S i = Some b ->
      length b <= length a + 12).
Proof.
  intros shown. split; [apply adjustedIndex_upper|]. split.
  - intros a Ha. rewrite head_lookup in Ha.
    apply shown_length in Ha as (k & Hk & _ & ->).
    apply cuts_steps in Hk. cbv zeta in Hk. lia.
  - intros i a b Ha Hb.
    apply shown_length in Ha as (ka & Hka & _ & ->).
    apply shown_length in Hb as (kb & Hkb & _ & ->).
    apply cuts_steps in Hkb. cbv zeta in Hkb. rewrite Hka in Hkb. cbn in Hkb.
    lia.
Qed.

(** ** Completion *)

Lemma animateText_idle (n : nat) (id : N) (entries : list TranscriptEntry) :
  animateText n id None entries = (None, entries).
Proof. induction n as [|n IH]; [reflexivity|]. cbn. exact IH. Qed.

Lemma animateText_run (n : nat) (id : N) (state : LiveTranscriptionState)
    (entries : list TranscriptEntry) :
  messageId state = id ->
  (exists state',
      animateText n id (Some state) entries = (Some state', entries) /\
      messageId state' = id /\ fullText state' = fullText state /\
      n < S (length (fullText state) - currentIndex state)) \/
  animateText n id (Some state) entries =
    (None, entries ++ [{| type := answer; text := fullText state |}]).
Proof.
  revert state. induction n as [|n IH]; intros state Hid.
  - left. exists state. repeat split; [exact Hid|lia].
  - cbn [animateText animateText_update]. rewrite Hid, N.eqb_refl. cbn [negb].
    destruct (Nat.leb_spec (length (fullText state)) (currentIndex state))
      as [Hdone|Hmore].
    + right. apply animateText_idle.
    + pose proof (adjustedIndex_bounds _ _ Hmore) as Hb.
      cbv beta iota zeta.
      set (state1 :=
             {| fullText := fullText state;
                displayedText :=
                  substring0 (fullText state)
                    (adjustedIndex_of (fullText state) (currentIndex state));
                currentIndex :=
                  adjustedIndex_of (fullText state) (currentIndex state);
                messageId := id |}).
      destruct (IH state1 eq_refl) as [(state' & Hrun & Hid' & Htext & Hn)|Hrun].
      * left. exists state'. unfold state1 in Htext, Hn.
        cbn [fullText currentIndex] in Htext, Hn.
        split; [exact Hrun|]. split; [exact Hid'|]. split; [exact Htext|lia].
      * right. exact Hrun.
Qed.

(** X15. However long the animation callback keeps running, a reveal that
    is not superseded appends its response to the transcript once, as an
    answer: after more runs than the response has code units the live
    state is cleared and the transcript has grown by exactly that entry;
    before that, and ever after, the transcript is either as it was or has
    that one more entry. *)
Theorem reveal_appends_answer_once (response : list N) (id : N)
    (entries : list TranscriptEntry) :
  (forall n : nat,
      length response < n ->
      animateText n id (Some (liveState_of response id)) entries =
      (None, entries ++ [{| type := answer; text := response |}])) /\
  (forall n : nat,
      (animateText n id (Some (liveState_of response id)) entries).2 = entries \/
      (animateText n id (Some (liveState_of response id)) entries).2 =
        entries ++ [{| type := answer; text := response |}]).
Proof.
  split.
  - intros n Hn.
    destruct (animateText_run n id (liveState_of response id) entries eq_refl)
      as [(state' & _ & _ & _ & Hshort)|Hrun]; [cbn in Hshort; lia|exact Hrun].
  - intros n.
    destruct (animateText_run n id (liveState_of response id) entries eq_refl)
      as [(state' & -> & _)| ->]; [now left|now right].
Qed.

(** ** A reveal that is interrupted *)

Lemma animateText_stale (n : nat) (id : N) (state : LiveTranscriptionState)
    (entries : list TranscriptEntry) :
  messageId state <> id ->
  animateText n id (Some state) entries = (Some state, entries).
Proof.
  intros Hother. induction n as [|n IH]; [reflexivity|].
  cbn [animateText animateText_update].
  apply N.eqb_neq in Hother. rewrite Hother. cbn [negb]. exact IH.
Qed.

(** X16. A response that is still being revealed when the live state is
    cleared, or when the reveal of another response starts, never reaches
    the transcript: the runs of its animation that are still to come
    change neither the live state nor the transcript, so the transcript
    ends up with the later response only. *)
Theorem interrupted_reveal_is_dropped (first second : list N) (id1 id2 : N)
    (entries : list TranscriptEntry) (k : nat) :
  id1 <> id2 ->
  is_Some (animateText k id1 (Some (liveState_of first id1)) entries).1 ->
  (animateText k id1 (Some (liveState_of first id1)) entries).2 = entries /\
  (forall n : nat, animateText n id1 None entries = (None, entries)) /\
  (forall n : nat,
      animateText n id1 (Some (liveState_of second id2)) entries =
      (Some (liveState_of second id2), entries)) /\
  (forall n m : nat,
      length second < m ->
      animateText m id2
        (animateText n id1 (Some (liveState_of second id2)) entries).1
        (animateText n id1 (Some (liveState_of second id2)) entries).2 =
      (None, entries ++ [{| type := answer; text := second |}])).
Proof.
  intros Hids Hrunning.
  assert (Hstale : forall n,
             animateText n id1 (Some (liveState_of second id2)) entries =
             (Some (liveState_of second id2), entries)).
  { intros n. apply animateText_stale. cbn. congruence. }
  split; [|split; [|split]].
  - destruct (animateText_run k id1 (liveState_of first id1) entries eq_refl)
      as [(state' & -> & _)|Hdone]; [reflexivity|].
    rewrite Hdone in Hrunning. destruct Hrunning as [? [=]].
  - intros n. apply animateText_idle.
  - exact Hstale.
  - intros n m Hm. rewrite Hstale. cbn [fst snd].
    destruct (animateText_run m id2 (liveState_of second id2) entries eq_refl)
      as [(state' & _ & _ & _ & Hshort)|Hrun]; [cbn in Hshort; lia|exact Hrun].
Qed.

(** ** Sending a typed message *)

(** X17. A message that is empty or all white space is ignored.  Any other
    message is appended to the transcript as a question, exactly as typed,
    the input box is cleared and one reply is scheduled; once that reply
    has been revealed the transcript ends with the question followed by
    the reply as an answer. *)
Theorem handleSendMessage_appends_question (c : Chat) :
  (trim (messageInput c) = [] -> handleSendMessage c = c) /\
  (trim (messageInput c) <> [] ->
   messageInput (handleSendMessage c) = [] /\
   transcript (handleSendMessage c) =
     transcript c ++ [{| type := question; text := messageInput c |}] /\
   exists reply,
     timeouts (handleSendMessage c) = timeouts c ++ [reply] /\
     forall (id : N) (n : nat),
       length reply < n ->
       animateText n id (Some (liveState_of reply id))
         (transcript (handleSendMessage c)) =
       (None,
        transcript c ++
        [{| type := question; text := messageInput c |};
         {| type := answer; text := reply |}])).
Proof.
  unfold handleSendMessage.
  set (reply := lit "I understand your message. Let me help you with that.").
  split.
  - intros Hblank. now rewrite bool_decide_eq_true_2.
  - intros Hsome. rewrite bool_decide_eq_false_2 by exact Hsome.
    cbn [negb messageInput transcript timeouts].
    split; [reflexivity|]. split; [reflexivity|].
    exists reply. split; [reflexivity|].
    intros id n Hn.
    destruct (animateText_run n id (liveState_of reply id)
                (transcript c ++ [{| type := question; text := messageInput c |}])
                eq_refl)
      as [(state' & _ & _ & _ & Hshort)|Hrun].
    + cbn [fullText currentIndex liveState_of] in Hshort. lia.
    + rewrite Hrun. cbn [fullText liveState_of].
      now rewrite <- app_assoc.
Qed.

End RevealProgress.

Section RevealScenarios.
Import QueueCommands.

Lemma reveal_grows_to_full_text_witness :
  last (simulateLiveTranscription Scenario.hello_world_testing 7) =
  Some Scenario.hello_world_testing.
Proof.
  apply (proj1 (proj2 (reveal_grows_to_full_text
                         Scenario.hello_world_testing 7))).
  discriminate.
Defined.

Lemma reveal_step_at_most_twelve_witness :
  (length (lit "hello") <= 12)%nat.
Proof.
  apply (proj1 (proj2 (reveal_step_at_most_twelve
                         Scenario.hello_world_testing 7)) (lit "hello")).
  reflexivity.
Defined.

Lemma reveal_appends_answer_once_witness :
  animateText 20%nat 7 (Some (liveState_of Scenario.hello_world_testing 7))
    [{| type := question; text := lit "hi" |}] =
  (None, [{| type := question; text := lit "hi" |};
          {| type := answer; text := Scenario.hello_world_testing |}]).
Proof.
  apply (proj1 (reveal_appends_answer_once Scenario.hello_world_testing 7
                  [{| type := question; text := lit "hi" |}]) 20%nat).
  vm_compute. lia.
Defined.

(** The reveal of a first response is three steps old when a second one
    arrives: the transcript ends up with the second alone. *)
Lemma interrupted_reveal_is_dropped_witness :
  animateText 5%nat 8
    (animateText 9%nat 7 (Some (liveState_of (lit "ok") 8)) []).1
    (animateText 9%nat 7 (Some (liveState_of (lit "ok") 8)) []).2 =
  (None, [{| type := answer; text := lit "ok" |}]).
Proof.
  apply (proj2 (proj2 (proj2
           (interrupted_reveal_is_dropped Scenario.hello_world_testing
              (lit "ok") 7 8 [] 3%nat ltac:(discriminate)
              ltac:(vm_compute; eauto)))) 9%nat 5%nat).
  vm_compute. lia.
Defined.

Lemma handleSendMessage_appends_question_witness :
  transcript
    (handleSendMessage
       {| messageInput := lit " hello "; transcript := []; timeouts := [] |}) =
  [{| type := question; text := lit " hello " |}].
Proof.
  apply (proj2 (handleSendMessage_appends_question
                  {| messageInput := lit " hello "; transcript := [];
                     timeouts := [] |})).
  vm_compute. discriminate.
Defined.

End RevealScenarios.

(* ===================================================================== *)
(** * A whole session: teardown, the guard, and what gets dispatched *)
(* ===================================================================== *)

Section WholeSession.
Import QueueCommands.
Local Open Scope nat_scope.

(** ** What a stop of the current recorder amounts to *)

Lemma MediaRecorder_stop_run (rec : nat) (s s' : Session) :
  MediaRecorder_stop rec s = Some s' ->
  exists r,
    recorders s !! rec = Some r /\ state r <> inactive /\
    s' = set_stopCalls (stopCalls s ++ [rec])
           (set_tasks
              (tasks s ++ [FireDataAvailable rec (gathered r); FireStop rec])
              (set_recorders
                 (<[rec := {| state := inactive; gathered := [] |}]>
                    (recorders s)) s)).
Proof.
  unfold MediaRecorder_stop. intros H.
  destruct (recorders s !! rec) as [r|]; [|discriminate].
  exists r. split; [reflexivity|].
  destruct (state r); [discriminate| |]; injection H as <-;
    (split; [discriminate|reflexivity]).
Qed.

Lemma calibrate_refs (startTs rms now : float) (s : Session) :
  mediaRecorderRef (calibrate startTs rms now s) = mediaRecorderRef s /\
  chunks (calibrate startTs rms now s) = chunks s /\
  silenceStartRef (calibrate startTs rms now s) = silenceStartRef s /\
  isSpeakingRef (calibrate startTs rms now s) = isSpeakingRef s /\
  stopInFlightRef (calibrate startTs rms now s) = stopInFlightRef s /\
  sessionActiveRef (calibrate startTs rms now s) = sessionActiveRef s /\
  streamRef (calibrate startTs rms now s) = streamRef s /\
  meterRafRef (calibrate startTs rms now s) = meterRafRef s /\
  recorders (calibrate startTs rms now s) = recorders s /\
  tasks (calibrate startTs rms now s) = tasks s /\
  stopCalls (calibrate startTs rms now s) = stopCalls s /\
  dispatched (calibrate startTs rms now s) = dispatched s.
Proof. unfold calibrate. now destruct (in_calibration _ _). Qed.

(** A tick leaves the session's devices alone, or it stops the current
    recorder, which it does only with the loop scheduled and no stop in
    flight, and which sets the guard. *)
Lemma tick_effect (rms now : float) (s : Session) :
  mediaRecorderRef (tick rms now s) = mediaRecorderRef s /\
  sessionActiveRef (tick rms now s) = sessionActiveRef s /\
  streamRef (tick rms now s) = streamRef s /\
  meterRafRef (tick rms now s) = meterRafRef s /\
  chunks (tick rms now s) = chunks s /\
  dispatched (tick rms now s) = dispatched s /\
  ((Spec.recorders_untouched s (tick rms now s) /\
    stopInFlightRef (tick rms now s) = stopInFlightRef s) \/
   (Spec.recorder_stopped s (tick rms now s) /\
    is_Some (meterRafRef s) /\
    stopInFlightRef (tick rms now s) = true)).
Proof.
  destruct (meterRafRef s) as [startTs|] eqn:Hloop.
  2:{ rewrite tick_idle by exact Hloop. rewrite Hloop.
      repeat split; left; now repeat split. }
  pose proof (tick_cases rms now startTs s Hloop) as H. cbv zeta in H.
  pose proof (calibrate_refs startTs rms now s)
    as (Href & Hchunks & _ & _ & Hflight & Hactive & Hstream & Hraf & Hrecs &
        Htasks & _ & Hsent).
  rewrite Hloop in Hraf.
  assert (Hquiet : forall s',
             mediaRecorderRef s' = mediaRecorderRef (calibrate startTs rms now s) ->
             sessionActiveRef s' = sessionActiveRef (calibrate startTs rms now s) ->
             streamRef s' = streamRef (calibrate startTs rms now s) ->
             meterRafRef s' = meterRafRef (calibrate startTs rms now s) ->
             chunks s' = chunks (calibrate startTs rms now s) ->
             dispatched s' = dispatched (calibrate startTs rms now s) ->
             recorders s' = recorders (calibrate startTs rms now s) ->
             tasks s' = tasks (calibrate startTs rms now s) ->
             stopInFlightRef s' = stopInFlightRef (calibrate startTs rms now s) ->
             mediaRecorderRef s' = mediaRecorderRef s /\
             sessionActiveRef s' = sessionActiveRef s /\
             streamRef s' = streamRef s /\
             meterRafRef s' = Some startTs /\
             chunks s' = chunks s /\
             dispatched s' = dispatched s /\
             ((Spec.recorders_untouched s s' /\
               stopInFlightRef s' = stopInFlightRef s) \/
              (Spec.recorder_stopped s s' /\
               is_Some (Some startTs) /\
               stopInFlightRef s' = true))).
  { intros s' -> -> -> -> -> -> H1 H2 ->.
    repeat split; try assumption.
    left. unfold Spec.recorders_untouched. now rewrite H1, H2. }
  destruct (Spec.above_threshold rms now s); [rewrite H; now apply Hquiet|].
  destruct (isSpeakingRef s); [|rewrite H; now apply Hquiet].
  destruct (silenceStartRef s); [|rewrite H; now apply Hquiet].
  destruct (_ <=? _)%float; [|rewrite H; now apply Hquiet].
  destruct H as (s' & Hs' & ->). unfold requestStop in Hs'.
  destruct (stopInFlightRef (calibrate startTs rms now s)) eqn:Hguard;
    cbn [negb] in Hs'; [injection Hs' as <-; now apply Hquiet|].
  destruct (mediaRecorderRef (calibrate startTs rms now s)) as [rec|] eqn:Hcur;
    [|injection Hs' as <-; now apply Hquiet].
  case_bool_decide as Hrec; [|injection Hs' as <-; now apply Hquiet].
  apply MediaRecorder_stop_run in Hs' as (r & Hr & Hstate & ->).
  cbn in Hr |- *. rewrite Hrecs in Hr.
  rewrite ?Hrecs, ?Htasks, ?Hchunks, ?Hsent, ?Hactive, ?Hstream.
  repeat split; try congruence.
  right. split; [|split; [eauto|reflexivity]].
  exists rec, r. cbn. rewrite ?Hrecs, ?Htasks. repeat split; congruence.
Qed.

Lemma handleManualFlush_effect (s : Session) :
  mediaRecorderRef (handleManualFlush s) = mediaRecorderRef s /\
  sessionActiveRef (handleManualFlush s) = sessionActiveRef s /\
  streamRef (handleManualFlush s) = streamRef s /\
  meterRafRef (handleManualFlush s) = meterRafRef s /\
  chunks (handleManualFlush s) = chunks s /\
  dispatched (handleManualFlush s) = dispatched s /\
  silenceStartRef (handleManualFlush s) = silenceStartRef s /\
  isSpeakingRef (handleManualFlush s) = isSpeakingRef s /\
  ((Spec.recorders_untouched s (handleManualFlush s) /\
    stopInFlightRef (handleManualFlush s) = stopInFlightRef s) \/
   (Spec.recorder_stopped s (handleManualFlush s) /\
    stopInFlightRef (handleManualFlush s) = true)).
Proof.
  unfold handleManualFlush.
  destruct (mediaRecorderRef s) as [rec|] eqn:Hcur;
    [|rewrite ?Hcur; repeat split; left; now repeat split].
  destruct (negb _); [rewrite ?Hcur; repeat split; left; now repeat split|].
  destruct (stopInFlightRef s) eqn:Hguard;
    [rewrite ?Hcur, ?Hguard; repeat split; left; now repeat split|].
  destruct (MediaRecorder_stop rec (set_stopInFlight true s)) as [s'|] eqn:Hstop.
  - apply MediaRecorder_stop_run in Hstop as (r & Hr & Hstate & ->).
    cbn in Hr |- *. repeat split; try assumption.
    right. split; [|reflexivity]. exists rec, r. now repeat split.
  - cbn. repeat split; try assumption. left. now repeat split.
Qed.

Lemma stopRecording_effect (s : Session) :
  sessionActiveRef (stopRecording s) = false /\
  meterRafRef (stopRecording s) = None /\
  streamRef (stopRecording s) = None /\
  mediaRecorderRef (stopRecording s) = None /\
  stopInFlightRef (stopRecording s) = false /\
  isSpeakingRef (stopRecording s) = false /\
  silenceStartRef (stopRecording s) = None /\
  chunks (stopRecording s) = chunks s /\
  dispatched (stopRecording s) = dispatched s /\
  noiseFloorRef (stopRecording s) = noiseFloorRef s /\
  ((Spec.recorders_untouched s (stopRecording s) /\
    stopCalls (stopRecording s) = stopCalls s /\
    forall rec r, mediaRecorderRef s = Some rec ->
                  recorders s !! rec = Some r -> state r = inactive) \/
   (Spec.recorder_stopped s (stopRecording s) /\
    exists rec, mediaRecorderRef s = Some rec /\
                stopCalls (stopRecording s) = stopCalls s ++ [rec])).
Proof.
  unfold stopRecording. cbv zeta.
  cbn [mediaRecorderRef set_meterRaf set_sessionActive].
  destruct (mediaRecorderRef s) as [rec|] eqn:Hcur.
  2:{ cbn. repeat split. left. repeat split. intros ? ? [=]. }
  case_bool_decide as Hinactive; cbn [negb].
  { cbn. repeat split. left. repeat split. intros rec' r [= <-] Hr.
    unfold state_of in Hinactive. cbn in Hinactive. rewrite Hr in Hinactive.
    now injection Hinactive. }
  destruct (MediaRecorder_stop rec _) as [s'|] eqn:Hstop.
  - apply MediaRecorder_stop_run in Hstop as (r & Hr & Hstate & ->).
    cbn in Hr |- *. repeat split.
    right. split; [exists rec, r; now repeat split|eauto].
  - cbn. repeat split. left. repeat split. intros rec' r [= <-] Hr.
    unfold MediaRecorder_stop in Hstop. cbn in Hstop. rewrite Hr in Hstop.
    now destruct (state r).
Qed.

(** ** Teardown *)

(** X18. [stopRecording] can be called any number of times: a second call
    changes nothing.  After it the session is not active, the loop is not
    scheduled, no recorder is current, the stream is released and the
    guard and the voice-activity flags are reset; it calls [stop] on the
    current recorder when that recorder is not inactive, and on nothing
    else; and a tick or a manual flush that still arrives afterwards
    changes nothing. *)
Theorem stopRecording_is_final (s : Session) :
  let s' := stopRecording s in
  stopRecording s' = s' /\
  (forall rms now : float, tick rms now s' = s') /\
  handleManualFlush s' = s' /\
  (sessionActiveRef s' = false /\ meterRafRef s' = None /\
   mediaRecorderRef s' = None /\ streamRef s' = None /\
   stopInFlightRef s' = false /\ isSpeakingRef s' = false /\
   silenceStartRef s' = None) /\
  stopCalls s' =
    match mediaRecorderRef s with
    | Some rec =>
        if bool_decide (state_of rec s = Some inactive \/ state_of rec s = None)
        then stopCalls s else stopCalls s ++ [rec]
    | None => stopCalls s
    end.
Proof.
  intros s'.
  pose proof (stopRecording_effect s)
    as (Hactive & Hloop & Hstream & Hcur & Hguard & Hspeak & Hsince & _ & _ &
        _ & Hstop).
  fold s' in Hactive, Hloop, Hstream, Hcur, Hguard, Hspeak, Hsince, Hstop.
  split; [|split; [|split; [|split; [now repeat split|]]]].
  - clearbody s'. destruct s'. cbn in *. subst. reflexivity.
  - intros rms now. now apply tick_idle.
  - unfold handleManualFlush. now rewrite Hcur.
  - destruct Hstop as [(_ & Hsame & Hidle)|
                       ((rec & r & Href & Hr & Hstate & _) & rec' & Href' & Hcalls)].
    + rewrite Hsame. destruct (mediaRecorderRef s) as [rec|] eqn:Href;
        [|reflexivity].
      rewrite bool_decide_eq_true_2; [reflexivity|].
      unfold state_of. destruct (recorders s !! rec) as [r|] eqn:Hr;
        [left|now right].
      cbn. now rewrite (Hidle rec r eq_refl Hr).
    + rewrite Href in Href'. injection Href' as <-. rewrite Href, Hcalls.
      rewrite bool_decide_eq_false_2; [reflexivity|].
      unfold state_of. rewrite Hr. cbn. intros [[= E]|[=]]. congruence.
Qed.

(** ** The callbacks, field by field *)

Lemma onstop_run (accepts : bool) (s : Session) :
  chunks (onstop accepts s) = [] /\
  dispatched (onstop accepts s) =
    dispatched s ++
    (if bool_decide (chunks s = []) then [] else [concat (chunks s)]) /\
  sessionActiveRef (onstop accepts s) = sessionActiveRef s /\
  streamRef (onstop accepts s) = streamRef s /\
  stopInFlightRef (onstop accepts s) = stopInFlightRef s /\
  meterRafRef (onstop accepts s) = meterRafRef s /\
  isSpeakingRef (onstop accepts s) = isSpeakingRef s /\
  silenceStartRef (onstop accepts s) = silenceStartRef s /\
  if sessionActiveRef s && bool_decide (is_Some (streamRef s)) then
    if accepts then
      mediaRecorderRef (onstop accepts s) = Some (length (recorders s)) /\
      recorders (onstop accepts s) =
        recorders s ++ [{| state := recording; gathered := [] |}] /\
      tasks (onstop accepts s) = tasks s ++ [FireStart (length (recorders s))]
    else
      mediaRecorderRef (onstop accepts s) = mediaRecorderRef s /\
      recorders (onstop accepts s) =
        recorders s ++ [{| state := inactive; gathered := [] |}] /\
      tasks (onstop accepts s) = tasks s
  else
    mediaRecorderRef (onstop accepts s) = None /\
    recorders (onstop accepts s) = recorders s /\
    tasks (onstop accepts s) = tasks s.
Proof.
  unfold onstop, onstop_finally, createMediaRecorder. cbv beta iota zeta.
  destruct accepts;
    [rewrite (MediaRecorder_start_created _ (recorders (onstop_try s)))
       by reflexivity
    |unfold MediaRecorder_start];
    unfold onstop_try, sendAudioForAnalysis;
    destruct (chunks s) as [|c cs] eqn:Hchunks; cbn;
    rewrite ?Hchunks, ?app_nil_r;
    destruct (sessionActiveRef s && bool_decide (is_Some (streamRef s)));
    cbn; rewrite ?Hchunks; now repeat split.
Qed.


Lemma onstart_run (s : Session) :
  stopInFlightRef (onstart s) = false /\
  isSpeakingRef (onstart s) = false /\
  silenceStartRef (onstart s) = None /\
  mediaRecorderRef (onstart s) = mediaRecorderRef s /\
  chunks (onstart s) = chunks s /\
  sessionActiveRef (onstart s) = sessionActiveRef s /\
  streamRef (onstart s) = streamRef s /\
  meterRafRef (onstart s) = meterRafRef s /\
  recorders (onstart s) = recorders s /\
  tasks (onstart s) = tasks s /\
  dispatched (onstart s) = dispatched s.
Proof. now repeat split. Qed.

Lemma ondataavailable_run (data : list N) (s : Session) :
  chunks (ondataavailable data s) =
    chunks s ++ (if bool_decide (data = []) then [] else [data]) /\
  stopInFlightRef (ondataavailable data s) = stopInFlightRef s /\
  isSpeakingRef (ondataavailable data s) = isSpeakingRef s /\
  silenceStartRef (ondataavailable data s) = silenceStartRef s /\
  mediaRecorderRef (ondataavailable data s) = mediaRecorderRef s /\
  sessionActiveRef (ondataavailable data s) = sessionActiveRef s /\
  streamRef (ondataavailable data s) = streamRef s /\
  meterRafRef (ondataavailable data s) = meterRafRef s /\
  recorders (ondataavailable data s) = recorders s /\
  tasks (ondataavailable data s) = tasks s /\
  dispatched (ondataavailable data s) = dispatched s.
Proof.
  unfold ondataavailable. destruct data as [|b data]; cbn.
  - rewrite app_nil_r. now repeat split.
  - now repeat split.
Qed.

Lemma timeslice_run (rec : nat) (s : Session) :
  stopInFlightRef (timeslice rec s) = stopInFlightRef s /\
  isSpeakingRef (timeslice rec s) = isSpeakingRef s /\
  silenceStartRef (timeslice rec s) = silenceStartRef s /\
  mediaRecorderRef (timeslice rec s) = mediaRecorderRef s /\
  sessionActiveRef (timeslice rec s) = sessionActiveRef s /\
  streamRef (timeslice rec s) = streamRef s /\
  meterRafRef (timeslice rec s) = meterRafRef s /\
  chunks (timeslice rec s) = chunks s /\
  dispatched (timeslice rec s) = dispatched s /\
  ((recorders (timeslice rec s) = recorders s /\
    tasks (timeslice rec s) = tasks s) \/
   exists r,
     recorders s !! rec = Some r /\ state r = recording /\
     recorders (timeslice rec s) =
       <[rec := {| state := recording; gathered := [] |}]> (recorders s) /\
     tasks (timeslice rec s) =
       tasks s ++ [FireDataAvailable rec (gathered r)]).
Proof.
  unfold timeslice. destruct (recorders s !! rec) as [r|] eqn:Hr;
    [|repeat split; now left].
  destruct (state r) eqn:Hstate; try (repeat split; now left).
  cbn. repeat split. right. exists r. now repeat split.
Qed.

Lemma capture_run (bytes : list N) (s : Session) :
  stopInFlightRef (capture bytes s) = stopInFlightRef s /\
  isSpeakingRef (capture bytes s) = isSpeakingRef s /\
  silenceStartRef (capture bytes s) = silenceStartRef s /\
  mediaRecorderRef (capture bytes s) = mediaRecorderRef s /\
  sessionActiveRef (capture bytes s) = sessionActiveRef s /\
  streamRef (capture bytes s) = streamRef s /\
  meterRafRef (capture bytes s) = meterRafRef s /\
  chunks (capture bytes s) = chunks s /\
  dispatched (capture bytes s) = dispatched s /\
  tasks (capture bytes s) = tasks s /\
  Spec.someone_recording (capture bytes s) = Spec.someone_recording s.
Proof.
  repeat split. unfold Spec.someone_recording, capture. cbn.
  induction (recorders s) as [|r l IH]; [reflexivity|].
  cbn. rewrite IH. f_equal.
  destruct (state r) eqn:E; cbn; rewrite ?E; reflexivity.
Qed.

(** ** The silence timer *)

Lemma step_timer (i : Input) (s : Session) :
  Spec.timer_only_while_speaking s ->
  Spec.timer_only_while_speaking (step i s).
Proof.
  unfold Spec.timer_only_while_speaking. intros Hs.
  assert (Hdeliver : forall accepts,
             is_Some (silenceStartRef (deliver accepts s)) ->
             isSpeakingRef (deliver accepts s) = true).
  { intros accepts. unfold deliver.
    destruct (tasks s) as [|t rest]; [exact Hs|].
    destruct t as [rec|rec data|rec].
    + pose proof (onstart_run (set_tasks rest s)) as (_ & -> & -> & _).
      intros [? [=]].
    + pose proof (ondataavailable_run data (set_tasks rest s))
        as (_ & _ & -> & -> & _). exact Hs.
    + pose proof (onstop_run accepts (set_tasks rest s))
        as (_ & _ & _ & _ & _ & _ & -> & -> & _). exact Hs. }
  destruct i as [rms now| | |bytes|rec| |]; cbn [step];
    try apply Hdeliver.
  - destruct (meterRafRef s) as [startTs|] eqn:Hloop;
      [|now rewrite tick_idle].
    pose proof (tick_vad rms now startTs s Hloop) as H.
    destruct (Spec.above_threshold rms now s);
      [injection H as -> ->; now intros _|].
    destruct (isSpeakingRef s) eqn:Hspeak.
    + destruct (silenceStartRef s) as [since|];
        [destruct (_ <=? _)%float|]; injection H as -> ->;
        first [now intros _ | intros [? [=]]].
    + injection H as -> ->. exact Hs.
  - pose proof (handleManualFlush_effect s)
      as (_ & _ & _ & _ & _ & _ & -> & -> & _). exact Hs.
  - pose proof (stopRecording_effect s)
      as (_ & _ & _ & _ & _ & -> & -> & _). intros [? [=]].
  - pose proof (capture_run bytes s) as (_ & -> & -> & _). exact Hs.
  - pose proof (timeslice_run rec s) as (_ & -> & -> & _). exact Hs.
Qed.

Lemma startRecording_run (now : float) (s : Session) :
  startRecording now s =
  set_sessionActive true
    (set_meterRaf (Some now)
       (set_noiseFloor None
          (set_mediaRecorder (Some (length (recorders s)))
             (set_tasks (tasks s ++ [FireStart (length (recorders s))])
                (set_recorders
                   (recorders s ++ [{| state := recording; gathered := [] |}])
                   (set_chunks []
                      (set_stopInFlight false
                         (set_stream (Some Microphone) s)))))))).
Proof.
  unfold startRecording, createMediaRecorder.
  rewrite (MediaRecorder_start_created _ (recorders s)) by reflexivity.
  reflexivity.
Qed.

(** X19. The silence timer is set only while speech is in progress: this
    holds of a freshly mounted component and after [stopRecording], and
    starting a session and any inputs to it keep it. *)
Theorem silence_timer_only_while_speaking :
  Spec.timer_only_while_speaking mounted /\
  (forall s : Session, Spec.timer_only_while_speaking (stopRecording s)) /\
  (forall (s0 : Session) (now : float) (inputs : list Input),
      Spec.timer_only_while_speaking s0 ->
      Spec.timer_only_while_speaking (run inputs (startRecording now s0))).
Proof.
  split; [intros [? [=]]|]. split.
  - intros s. unfold Spec.timer_only_while_speaking.
    pose proof (stopRecording_effect s) as (_ & _ & _ & _ & _ & -> & -> & _).
    intros [? [=]].
  - intros s0 now inputs Hs0.
    induction inputs as [|i inputs IH] using rev_ind.
    + unfold Spec.timer_only_while_speaking.
      rewrite startRecording_run. exact Hs0.
    + rewrite run_snoc. now apply step_timer.
Qed.

(** ** The stop in flight *)

Lemma step_guard (i : Input) (s : Session) :
  i <> DeliverRefused ->
  Spec.serialized s -> Spec.guard_covered s -> Spec.guard_covered (step i s).
Proof.
  intros Haccepted (_ & Hstreamed & _) (Hloop & Hcur & Hguard).
  unfold Spec.guard_covered.
  destruct i as [rms now| | |bytes|rec| |]; cbn [step]; [| | | | | |congruence].
  - pose proof (tick_effect rms now s)
      as (-> & -> & _ & -> & _ & _ & Hcase).
    split; [exact Hloop|]. split; [exact Hcur|].
    destruct Hcase as [([_ ->] & ->)|((rec & r & _ & _ & _ & _ & ->) & Hon & _)];
      [exact Hguard|].
    intros _. split; [now apply Hloop|].
    rewrite existsb_app. cbn. apply orb_true_r.
  - pose proof (handleManualFlush_effect s)
      as (-> & -> & _ & -> & _ & _ & _ & _ & Hcase).
    split; [exact Hloop|]. split; [exact Hcur|].
    destruct Hcase as [([_ ->] & ->)|((rec & r & Href & _ & _ & _ & ->) & _)];
      [exact Hguard|].
    intros _. split; [apply Hcur; rewrite Href; eauto|].
    rewrite existsb_app. cbn. apply orb_true_r.
  - pose proof (stopRecording_effect s)
      as (-> & -> & _ & -> & -> & _).
    split; [intros [? [=]]|]. split; [intros [? [=]]|discriminate].
  - pose proof (capture_run bytes s)
      as (-> & _ & _ & -> & -> & _ & -> & _ & _ & -> & _).
    split; [exact Hloop|]. split; [exact Hcur|exact Hguard].
  - pose proof (timeslice_run rec s)
      as (-> & _ & _ & -> & -> & _ & -> & _ & _ & Hcase).
    split; [exact Hloop|]. split; [exact Hcur|].
    destruct Hcase as [[_ ->]|(r & _ & _ & _ & ->)]; [exact Hguard|].
    intros Hon. destruct (Hguard Hon) as [Hactive Hqueued].
    split; [exact Hactive|]. rewrite existsb_app, Hqueued. reflexivity.
  - unfold deliver. destruct (tasks s) as [|t rest] eqn:Htasks;
      [split; [exact Hloop|]; split; [exact Hcur|];
       rewrite ?Htasks; exact Hguard|].
    destruct t as [rec|rec data|rec].
    + pose proof (onstart_run (set_tasks rest s))
        as (-> & _ & _ & -> & _ & -> & _ & -> & _).
      cbn. split; [exact Hloop|]. split; [exact Hcur|discriminate].
    + pose proof (ondataavailable_run data (set_tasks rest s))
        as (_ & -> & _ & _ & -> & -> & _ & -> & _ & -> & _).
      cbn. split; [exact Hloop|]. split; [exact Hcur|exact Hguard].
    + pose proof (onstop_run true (set_tasks rest s))
        as (_ & _ & -> & _ & -> & -> & _ & _ & Hnew).
      cbn in Hnew |- *.
      split; [exact Hloop|].
      destruct (sessionActiveRef s) eqn:Hactive.
      * rewrite (Hstreamed eq_refl) in Hnew.
        rewrite bool_decide_eq_true_2 in Hnew by eauto.
        cbn [andb] in Hnew. destruct Hnew as (_ & _ & ->).
        split; [reflexivity|]. intros _. split; [reflexivity|].
        rewrite existsb_app. cbn. apply orb_true_r.
      * cbn [andb] in Hnew. destruct Hnew as (-> & _ & _).
        split; [intros [? [=]]|].
        intros Hon. destruct (Hguard Hon) as [[=] _].
Qed.

Lemma startRecording_guard (now : float) (s : Session) :
  Spec.guard_covered (startRecording now s).
Proof.
  rewrite startRecording_run. unfold Spec.guard_covered. cbn.
  now repeat split.
Qed.

Lemma run_guard (inputs : list Input) (s : Session) :
  Forall (fun i => i <> DeliverRefused) inputs ->
  Spec.serialized s -> Spec.guard_covered s ->
  Spec.guard_covered (run inputs s).
Proof.
  intros Haccepted Hs Hguard.
  induction inputs as [|i inputs IH] using rev_ind; [exact Hguard|].
  apply Forall_app in Haccepted as [Haccepted Hi]. apply Forall_inv in Hi.
  rewrite run_snoc. apply step_guard; [exact Hi| |now apply IH].
  now apply run_serialized.
Qed.

(** Every delivery brings the queue closer to empty, and a queue with
    nothing left to deliver is empty. *)
Lemma deliver_left (accepts : bool) (s : Session) :
  Spec.deliveries_left (deliver accepts s) <= pred (Spec.deliveries_left s).
Proof.
  unfold Spec.deliveries_left, deliver.
  destruct (tasks s) as [|t rest] eqn:Htasks; [rewrite Htasks; cbn; lia|].
  destruct t as [rec|rec data|rec].
  - pose proof (onstart_run (set_tasks rest s))
      as (_ & _ & _ & _ & _ & _ & _ & _ & _ & -> & _). cbn. lia.
  - pose proof (ondataavailable_run data (set_tasks rest s))
      as (_ & _ & _ & _ & _ & _ & _ & _ & _ & -> & _). cbn. lia.
  - pose proof (onstop_run accepts (set_tasks rest s))
      as (_ & _ & _ & _ & _ & _ & _ & _ & Hnew).
    destruct (_ && _); [destruct accepts|]; destruct Hnew as (_ & _ & ->); cbn;
      rewrite ?length_app, ?stops_pending_app; cbn; lia.
Qed.

Lemma run_deliveries (n : nat) (s : Session) :
  run (repeat Deliver n) s = Nat.iter n (deliver true) s.
Proof.
  induction n as [|n IH]; [reflexivity|].
  cbn [repeat Nat.iter]. rewrite repeat_cons, run_snoc, IH. reflexivity.
Qed.

Lemma deliveries_drain (n : nat) (s : Session) :
  Spec.deliveries_left s <= n ->
  tasks (run (repeat Deliver n) s) = [].
Proof.
  rewrite run_deliveries.
  assert (Hleft : forall k,
             Spec.deliveries_left (Nat.iter k (deliver true) s) <=
             Spec.deliveries_left s - k).
  { induction k as [|k IH]; [cbn; lia|].
    change (Nat.iter (S k) (deliver true) s)
      with (deliver true (Nat.iter k (deliver true) s)).
    pose proof (deliver_left true (Nat.iter k (deliver true) s)). lia. }
  intros Hn. specialize (Hleft n). unfold Spec.deliveries_left in Hleft at 1.
  destruct (tasks (Nat.iter n (deliver true) s));
    [reflexivity|cbn in Hleft; lia].
Qed.

(** ** Nothing waits for ever, nothing is sent empty *)

Lemma recording_none_pending (s : Session) (rec : nat) (r : MediaRecorder) :
  Spec.serialized s ->
  recorders s !! rec = Some r -> state r <> inactive ->
  Spec.stops_pending (tasks s) = 0 /\ Spec.someone_recording s = true.
Proof.
  intros (_ & _ & [Hidle|(rec0 & r0 & _ & Hr0 & Hrec0 & _ & _ & Hnone)]) Hr Hstate.
  - destruct Hstate. exact (idle_not_recording _ _ _ Hidle Hr).
  - split; [exact Hnone|]. apply existsb_exists. exists r0. split.
    + apply list_elem_of_In. now apply list_elem_of_lookup_2 in Hr0.
    + now apply bool_decide_eq_true_2.
Qed.

Lemma nobody_recording_idle (s : Session) :
  Spec.serialized s -> Spec.someone_recording s = false ->
  Forall Spec.idle (recorders s).
Proof.
  intros Hs Hnone.
  pose proof Hs as (_ & _ & [Hidle|(rec & r & _ & Hr & Hrec & _)]);
    [exact Hidle|].
  destruct (recording_none_pending s rec r Hs Hr) as [_ Hsome];
    [rewrite Hrec; discriminate|congruence].
Qed.

Lemma someone_recording_same (s s' : Session) :
  recorders s' = recorders s ->
  Spec.someone_recording s' = Spec.someone_recording s.
Proof. unfold Spec.someone_recording. now intros ->. Qed.

Lemma stopped_drains (s s' : Session) :
  Spec.serialized s -> Spec.recorder_stopped s s' ->
  Spec.stop_is_last s' /\ 0 < Spec.stops_pending (tasks s').
Proof.
  intros Hs (rec & r & _ & Hr & Hstate & _ & Htasks).
  destruct (recording_none_pending s rec r Hs Hr Hstate) as [Hnone _].
  split.
  - right. exists (tasks s ++ [FireDataAvailable rec (gathered r)]), rec.
    split; [now rewrite Htasks, <- app_assoc|].
    rewrite stops_pending_app, Hnone. reflexivity.
  - rewrite Htasks, stops_pending_app. cbn. lia.
Qed.

Lemma control_drains (s s' : Session) :
  Spec.serialized s ->
  chunks s' = chunks s ->
  Spec.recorders_untouched s s' \/ Spec.recorder_stopped s s' ->
  Spec.stop_is_last s -> Spec.audio_awaits_stop s ->
  Spec.stop_is_last s' /\ Spec.audio_awaits_stop s'.
Proof.
  intros Hs Hchunks [[Hrecs Htasks]|Hstopped] Hlast Hawaits.
  - unfold Spec.stop_is_last, Spec.audio_awaits_stop.
    rewrite (someone_recording_same s s' Hrecs), Htasks, Hchunks. now split.
  - destruct (stopped_drains s s' Hs Hstopped) as [Hlast' Hpending].
    split; [exact Hlast'|]. intros _. now right.
Qed.

Lemma step_drains (i : Input) (s : Session) :
  Spec.serialized s ->
  Spec.stop_is_last s -> Spec.audio_awaits_stop s ->
  Spec.stop_is_last (step i s) /\ Spec.audio_awaits_stop (step i s).
Proof.
  intros Hs Hlast Hawaits.
  assert (Hdeliver : forall accepts,
             Spec.stop_is_last (deliver accepts s) /\
             Spec.audio_awaits_stop (deliver accepts s));
    [|destruct i as [rms now| | |bytes|rec| |]; cbn [step];
      try apply Hdeliver].
  { intros accepts.
    unfold deliver. destruct (tasks s) as [|t rest] eqn:Htasks; [now split|].
    unfold Spec.stop_is_last, Spec.audio_awaits_stop in Hlast, Hawaits |- *.
    rewrite Htasks in Hlast, Hawaits.
    assert (Hrest : Spec.clears_guard t = false \/
                    (exists rec0, t = FireStart rec0) ->
                    Spec.stops_pending rest = Spec.stops_pending (t :: rest) /\
                    (Spec.stops_pending rest = 0 \/
                     exists before rec0,
                       rest = before ++ [FireStop rec0] /\
                       Spec.stops_pending before = 0)).
    { intros Ht.
      assert (Hsame : Spec.stops_pending rest = Spec.stops_pending (t :: rest))
        by (destruct Ht as [Ht|[rec0 ->]]; [now destruct t|reflexivity]).
      split; [exact Hsame|].
      destruct Hlast as [Hnone|(before & rec0 & Hshape & Hbefore)];
        [left; congruence|].
      right. destruct before as [|t' before].
      - injection Hshape as -> ->. destruct Ht as [[=]|[? [=]]].
      - injection Hshape as <- ->. exists before, rec0.
        split; [reflexivity|].
        destruct t; cbn in Hbefore;
          first [exact Hbefore | discriminate Hbefore]. }
    destruct t as [rec|rec data|rec].
    + pose proof (onstart_run (set_tasks rest s))
        as (_ & _ & _ & _ & -> & _ & _ & _ & Hrecs & -> & _).
      change (recorders (set_tasks rest s)) with (recorders s) in Hrecs.
      rewrite (someone_recording_same _ _ Hrecs).
      cbn [tasks chunks set_tasks].
      destruct Hrest as [Hsame Hlast']; [right; eauto|].
      split; [exact Hlast'|]. rewrite Hsame. exact Hawaits.
    + pose proof (ondataavailable_run data (set_tasks rest s))
        as (_ & _ & _ & _ & _ & _ & _ & _ & Hrecs & -> & _).
      change (recorders (set_tasks rest s)) with (recorders s) in Hrecs.
      rewrite (someone_recording_same _ _ Hrecs).
      cbn [tasks set_tasks].
      destruct Hrest as [Hsame Hlast']; [now left|].
      split; [exact Hlast'|]. intros _. rewrite Hsame.
      apply Hawaits. right. discriminate.
    + pose proof (onstop_run accepts (set_tasks rest s))
        as (Hchunks & _ & _ & _ & _ & _ & _ & _ & Hnew).
      cbn in Hnew. rewrite Hchunks.
      assert (Hempty : rest = []).
      { destruct Hs as (Hone & _). rewrite Htasks in Hone. cbn in Hone.
        destruct Hlast as [[=]|(before & rec0 & Hshape & Hbefore)].
        destruct before as [|t' before]; [now injection Hshape|].
        injection Hshape as <- ->. discriminate Hbefore. }
      subst rest.
      destruct (_ && _); [destruct accepts|];
        destruct Hnew as (_ & _ & ->); cbn;
        (split; [now left|]); intros [[]|[]]; reflexivity. }
  - pose proof (tick_effect rms now s) as (_ & _ & _ & _ & Hchunks & _ & Hcase).
    apply (control_drains s); try assumption. tauto.
  - pose proof (handleManualFlush_effect s)
      as (_ & _ & _ & _ & Hchunks & _ & _ & _ & Hcase).
    apply (control_drains s); try assumption. tauto.
  - pose proof (stopRecording_effect s)
      as (_ & _ & _ & _ & _ & _ & _ & Hchunks & _ & _ & Hcase).
    apply (control_drains s); try assumption. tauto.
  - pose proof (capture_run bytes s)
      as (_ & _ & _ & _ & _ & _ & _ & Hchunks & _ & Htasks & Hsome).
    unfold Spec.stop_is_last, Spec.audio_awaits_stop.
    rewrite Hsome, Htasks, Hchunks. now split.
  - pose proof (timeslice_run rec s)
      as (_ & _ & _ & _ & _ & _ & _ & Hchunks & _ & Hcase).
    destruct Hcase as [[Hrecs Htasks]|(r & Hr & Hrec & Hrecs & Htasks)].
    + apply (control_drains s); try assumption. left. now split.
    + destruct (recording_none_pending s rec r Hs Hr) as [Hnone _];
        [rewrite Hrec; discriminate|].
      split.
      * left. rewrite Htasks, stops_pending_app, Hnone. reflexivity.
      * intros _. left. unfold Spec.someone_recording. rewrite Hrecs.
        apply existsb_exists.
        exists {| state := recording; gathered := [] |}. split; [|reflexivity].
        apply list_elem_of_In, list_elem_of_lookup. exists rec.
        apply list_lookup_insert_eq. now apply lookup_lt_Some in Hr.
Qed.

Lemma startRecording_drains (now : float) (s0 : Session) :
  Spec.settled s0 ->
  Spec.stop_is_last (startRecording now s0) /\
  Spec.audio_awaits_stop (startRecording now s0) /\
  Spec.audio_held (startRecording now s0) = concat (dispatched s0).
Proof.
  intros [Hnone Hidle]. rewrite startRecording_run.
  unfold Spec.stop_is_last, Spec.audio_awaits_stop, Spec.audio_held. cbn.
  rewrite Hnone. cbn.
  split; [now left|]. split; [intros [[]|[]]; reflexivity|].
  rewrite fmap_app, concat_app, (idle_gathered _ Hidle). cbn.
  now rewrite !app_nil_r.
Qed.

Lemma run_drains (inputs : list Input) (s : Session) :
  Spec.serialized s ->
  Spec.stop_is_last s -> Spec.audio_awaits_stop s ->
  Spec.stop_is_last (run inputs s) /\ Spec.audio_awaits_stop (run inputs s).
Proof.
  intros Hs Hlast Hawaits.
  induction inputs as [|i inputs [IHlast IHawaits]] using rev_ind;
    [now split|].
  rewrite run_snoc. apply step_drains; try assumption.
  now apply run_serialized.
Qed.

(** With the queue empty and nobody recording, nothing is buffered and no
    recorder holds audio. *)
Lemma drained_buffers (s0 : Session) (startTs : float)
    (inputs : list Input) :
  Spec.settled s0 ->
  let start := startRecording startTs s0 in
  let s := run inputs start in
  tasks s = [] ->
  Spec.someone_recording s = false ->
  chunks s = [] /\
  Forall Spec.idle (recorders s) /\
  Spec.audio_held s = concat (dispatched s0) ++ Spec.heard_run inputs start.
Proof.
  intros Hsettled start s Hempty Hquiet.
  pose proof (startRecording_serialized startTs s0 Hsettled) as Hstart.
  destruct (startRecording_drains startTs s0 Hsettled)
    as (Hlast0 & Hawaits0 & Hheld0).
  destruct (run_serialized inputs start Hstart) as [Hs Hheld].
  destruct (run_drains inputs start Hstart Hlast0 Hawaits0) as [_ Hawaits].
  fold s in Hs, Hheld, Hawaits.
  split; [|split].
  - destruct (chunks s) as [|c cs] eqn:E; [reflexivity|].
    destruct Hawaits as [Hsome|Hpending].
    + left. rewrite E. discriminate.
    + congruence.
    + rewrite Hempty in Hpending. cbn in Hpending. lia.
  - now apply nobody_recording_idle.
  - fold start in Hheld0. now rewrite Hheld0 in Hheld.
Qed.

(** ** The guard: cleared by every restart, stuck after a refused one *)

Lemma capture_idle (bytes : list N) (s : Session) :
  Forall Spec.idle (recorders s) -> recorders (capture bytes s) = recorders s.
Proof.
  unfold capture. cbn. induction 1 as [|r l Hr _ IH]; [reflexivity|].
  cbn. rewrite IH. f_equal. now rewrite Hr.
Qed.

Lemma step_stuck (i : Input) (s : Session) :
  i <> StopClick -> Spec.guard_stuck s ->
  Spec.guard_stuck (step i s) /\
  stopCalls (step i s) = stopCalls s /\
  dispatched (step i s) = dispatched s.
Proof.
  intros Hi (Hguard & Hempty & Hidle).
  assert (Hdeliver : forall accepts, deliver accepts s = s)
    by (intros accepts; unfold deliver; now rewrite Hempty).
  assert (Hstopped : forall s', ~ Spec.recorder_stopped s s').
  { intros s' (rec & r & _ & Hr & Hstate & _).
    now rewrite (idle_not_recording _ _ _ Hidle Hr) in Hstate. }
  unfold Spec.guard_stuck.
  destruct i as [rms now| | |bytes|rec| |]; cbn [step];
    rewrite ?Hdeliver; try easy.
  - pose proof (tick_effect rms now s)
      as (_ & _ & _ & _ & _ & Hsent & [([Hrecs Htasks] & Hsame)|[Hstop _]]);
      [|now destruct (Hstopped _ Hstop)].
    rewrite Hsame, Hrecs, Htasks, Hsent.
    rewrite tick_stopCalls, Hguard.
    repeat split; try assumption.
    destruct (mediaRecorderRef s); [|reflexivity].
    now rewrite andb_false_r.
  - rewrite handleManualFlush_rejected by now left. now repeat split.
  - pose proof (capture_run bytes s)
      as (-> & _ & _ & _ & _ & _ & _ & _ & -> & -> & _).
    rewrite (capture_idle bytes s Hidle). now repeat split.
  - pose proof (timeslice_run rec s)
      as (-> & _ & _ & _ & _ & _ & _ & _ & -> & Hcase).
    destruct Hcase as [[-> ->]|(r & Hr & Hrec & _)].
    + repeat split; try assumption. unfold timeslice.
      destruct (recorders s !! rec) as [r|] eqn:Hr; [|reflexivity].
      now rewrite (idle_not_recording _ _ _ Hidle Hr).
    + rewrite (idle_not_recording _ _ _ Hidle Hr) in Hrec. discriminate.
Qed.

Lemma run_stuck (inputs : list Input) (s : Session) :
  Forall (fun i => i <> StopClick) inputs -> Spec.guard_stuck s ->
  Spec.guard_stuck (run inputs s) /\
  stopCalls (run inputs s) = stopCalls s /\
  dispatched (run inputs s) = dispatched s.
Proof.
  intros Hinputs Hstuck.
  induction inputs as [|i inputs IH] using rev_ind;
    [split; [exact Hstuck|now split]|].
  apply Forall_app in Hinputs as [Hinputs Hi]. apply Forall_inv in Hi.
  destruct (IH Hinputs) as (Hs & Hcalls & Hsent).
  rewrite run_snoc.
  destruct (step_stuck i _ Hi Hs) as (Hs' & Hcalls' & Hsent').
  split; [exact Hs'|]. split; congruence.
Qed.

(** X20. Take a session started on a component between sessions, in a
    browser that has started every replacement recorder so far.  The
    guard against double stops is then not left set for good: while it is
    set, the session is active and a [start] or a [stop] event of a
    recorder is queued; and once the queued events have been delivered, the
    replacements being started, the queue is empty and the guard is clear,
    so that a manual flush is accepted again.  The guard is left set for
    good when the browser refuses the replacement: if the [stop] event
    runs while the guard is set and the start of the replacement throws,
    the exception is caught and logged, no event is queued and no
    recorder is active, and from then on, whatever comes short of
    [stopRecording], the guard stays set, [stop] is never called again and
    nothing more is dispatched. *)
Theorem stop_in_flight_always_clears (s0 : Session) (startTs : float)
    (inputs : list Input) :
  Spec.settled s0 ->
  Forall (fun i => i <> DeliverRefused) inputs ->
  let s := run inputs (startRecording startTs s0) in
  (stopInFlightRef s = true ->
   sessionActiveRef s = true /\
   existsb Spec.clears_guard (tasks s) = true) /\
  (forall n : nat,
      Spec.deliveries_left s <= n ->
      tasks (run (repeat Deliver n) s) = [] /\
      stopInFlightRef (run (repeat Deliver n) s) = false) /\
  (forall (rec : nat) (rest : list Task) (later : list Input),
      tasks s = FireStop rec :: rest ->
      stopInFlightRef s = true ->
      Forall (fun i => i <> StopClick) later ->
      let s' := step DeliverRefused s in
      sessionActiveRef s' = true /\
      tasks s' = [] /\
      Spec.someone_recording s' = false /\
      stopInFlightRef (run later s') = true /\
      stopCalls (run later s') = stopCalls s' /\
      dispatched (run later s') = dispatched s').
Proof.
  intros Hsettled Haccepted s.
  pose proof (startRecording_serialized startTs s0 Hsettled) as Hstart.
  pose proof (startRecording_guard startTs s0) as Hguard0.
  pose proof (run_guard inputs _ Haccepted Hstart Hguard0) as Hcovered.
  fold s in Hcovered.
  split; [apply Hcovered|]. split.
  - intros n Hn.
    pose proof (deliveries_drain n s Hn) as Hempty.
    split; [exact Hempty|].
    assert (Hafter : Spec.guard_covered (run (repeat Deliver n) s)).
    { apply run_guard; [| |exact Hcovered].
      - clear. induction n as [|n IH]; constructor; [discriminate|exact IH].
      - now apply run_serialized. }
    destruct Hafter as (_ & _ & Hguard).
    destruct (stopInFlightRef _); [|reflexivity].
    destruct (Hguard eq_refl) as [_ Hqueued].
    rewrite Hempty in Hqueued. discriminate Hqueued.
  - intros rec rest later Htasks Hguard Hlater s'.
    destruct (run_serialized inputs _ Hstart) as [Hs _]. fold s in Hs.
    destruct (startRecording_drains startTs s0 Hsettled)
      as (Hlast0 & Hawaits0 & _).
    destruct (run_drains inputs _ Hstart Hlast0 Hawaits0) as [Hlast _].
    fold s in Hlast.
    assert (Hrest : rest = []).
    { destruct Hs as (Hone & _). rewrite Htasks in Hone. cbn in Hone.
      unfold Spec.stop_is_last in Hlast. rewrite Htasks in Hlast.
      destruct Hlast as [[=]|(before & rec0 & Hshape & Hbefore)].
      destruct before as [|t' before]; [now injection Hshape|].
      injection Hshape as <- ->. discriminate Hbefore. }
    subst rest.
    assert (Hidle : Forall Spec.idle (recorders s)).
    { destruct Hs as (_ & _ & [Hidle|(? & ? & _ & _ & _ & _ & _ & Hnone)]);
        [exact Hidle|]. rewrite Htasks in Hnone. discriminate Hnone. }
    destruct Hcovered as (_ & _ & Hcover).
    destruct (Hcover Hguard) as [Hactive _].
    assert (Hs' : s' = onstop false (set_tasks [] s))
      by (unfold s'; cbn [step]; unfold deliver; now rewrite Htasks).
    pose proof (onstop_run false (set_tasks [] s))
      as (_ & _ & Hactive' & _ & Hguard' & _ & _ & _ & Hnew).
    rewrite <- Hs' in Hactive', Hguard', Hnew.
    cbn [sessionActiveRef streamRef stopInFlightRef recorders tasks
         mediaRecorderRef set_tasks] in Hactive', Hguard', Hnew.
    destruct Hs as (_ & Hstream & _).
    rewrite Hactive, (Hstream Hactive) in Hnew.
    rewrite bool_decide_eq_true_2 in Hnew by eauto. cbn [andb] in Hnew.
    destruct Hnew as (_ & Hrecs & Hqueue).
    assert (Hidle' : Forall Spec.idle (recorders s')).
    { rewrite Hrecs. apply Forall_app. split; [exact Hidle|].
      now repeat constructor. }
    assert (Hstuck : Spec.guard_stuck s').
    { split; [congruence|]. now split. }
    destruct (run_stuck later s' Hlater Hstuck) as ((Hset & _) & Hcalls & Hsent).
    split; [congruence|]. split; [exact Hqueue|].
    split; [now apply idle_nobody_recording|].
    now repeat split.
Qed.

(** X21. In a session started on a component between sessions: whenever
    the event queue is empty and no recorder records, the chunk buffer is
    empty too, and the blobs dispatched for analysis, one after the other,
    are exactly the audio the component had dispatched before followed by
    what the microphone delivered, while a recorder recorded, since the
    session started.  Nothing that was heard is still waiting, and nothing
    was dropped. *)
Theorem drained_session_has_dispatched_all (s0 : Session) (startTs : float)
    (inputs : list Input) :
  Spec.settled s0 ->
  let start := startRecording startTs s0 in
  let s := run inputs start in
  tasks s = [] ->
  Spec.someone_recording s = false ->
  chunks s = [] /\
  concat (dispatched s) = concat (dispatched s0) ++ Spec.heard_run inputs start.
Proof.
  intros Hsettled start s Hempty Hquiet.
  destruct (drained_buffers s0 startTs inputs Hsettled Hempty Hquiet)
    as (Hchunks & Hidle & Hheld).
  fold start s in Hchunks, Hidle, Hheld.
  split; [exact Hchunks|].
  rewrite <- Hheld. unfold Spec.audio_held.
  rewrite Hchunks, Hempty, (idle_gathered _ Hidle). cbn.
  now rewrite app_nil_r.
Qed.

Lemma deliver_inactive (accepts : bool) (s : Session) :
  sessionActiveRef s = false -> mediaRecorderRef s = None ->
  sessionActiveRef (deliver accepts s) = false /\
  mediaRecorderRef (deliver accepts s) = None.
Proof.
  intros Hactive Hcur. unfold deliver.
  destruct (tasks s) as [|t rest]; [now split|].
  destruct t as [rec|rec data|rec].
  - pose proof (onstart_run (set_tasks rest s))
      as (_ & _ & _ & -> & _ & -> & _). now split.
  - pose proof (ondataavailable_run data (set_tasks rest s))
      as (_ & _ & _ & _ & -> & -> & _). now split.
  - pose proof (onstop_run accepts (set_tasks rest s))
      as (_ & _ & -> & _ & _ & _ & _ & _ & Hnew).
    cbn in Hnew |- *. rewrite Hactive in Hnew. cbn [andb] in Hnew.
    split; [exact Hactive|apply Hnew].
Qed.

Lemma deliveries_inactive (n : nat) (s : Session) :
  sessionActiveRef s = false -> mediaRecorderRef s = None ->
  sessionActiveRef (Nat.iter n (deliver true) s) = false /\
  mediaRecorderRef (Nat.iter n (deliver true) s) = None.
Proof.
  intros Hactive Hcur. induction n as [|n [IHactive IHcur]]; [now split|].
  change (Nat.iter (S n) (deliver true) s)
    with (deliver true (Nat.iter n (deliver true) s)).
  now apply deliver_inactive.
Qed.

Lemma heard_run_app (a b : list Input) (s : Session) :
  Spec.heard_run (a ++ b) s = Spec.heard_run a s ++ Spec.heard_run b (run a s).
Proof.
  revert s. induction a as [|i a IH]; intros s; [reflexivity|].
  cbn [app Spec.heard_run]. rewrite IH, <- app_assoc. reflexivity.
Qed.

Lemma heard_run_deliveries (n : nat) (s : Session) :
  Spec.heard_run (repeat Deliver n) s = [].
Proof.
  revert s. induction n as [|n IH]; intros s; [reflexivity|].
  cbn. apply IH.
Qed.

Lemma run_app (a b : list Input) (s : Session) :
  run (a ++ b) s = run b (run a s).
Proof. unfold run. apply fold_left_app. Qed.

(** X22. A session always comes to an end: after [stopRecording] and the
    delivery of the queued events (three more than were queued are
    enough), the component is between sessions again (the queue is empty,
    every recorder is inactive, none is current, the session is not
    active), and the blobs dispatched for analysis are exactly what the
    component had dispatched before followed by everything heard during
    the session. *)
Theorem stop_then_drain_settles (s0 : Session) (startTs : float)
    (inputs : list Input) (n : nat) :
  Spec.settled s0 ->
  let start := startRecording startTs s0 in
  let s := run inputs start in
  length (tasks s) + 3 <= n ->
  let s' := run (StopClick :: repeat Deliver n) s in
  Spec.settled s' /\
  sessionActiveRef s' = false /\
  mediaRecorderRef s' = None /\
  concat (dispatched s') = concat (dispatched s0) ++ Spec.heard_run inputs start.
Proof.
  intros Hsettled start s Hn s'.
  pose proof (startRecording_serialized startTs s0 Hsettled) as Hstart.
  destruct (run_serialized inputs start Hstart) as [Hs _]. fold s in Hs.
  destruct (stopRecording_serialized s Hs) as [Hstopped _].
  assert (Hs' : s' = run (repeat Deliver n) (stopRecording s)) by reflexivity.
  assert (Hempty : tasks s' = []).
  { rewrite Hs'. apply deliveries_drain. unfold Spec.deliveries_left.
    destruct Hstopped as (Hone & _).
    pose proof (stopRecording_effect s)
      as (_ & _ & _ & _ & _ & _ & _ & _ & _ & _ &
          [([_ Htasks] & _)|((rec & r & _ & _ & _ & _ & Htasks) & _)]);
      rewrite Htasks in Hone |- *; rewrite ?length_app; cbn [length]; lia. }
  assert (Hoff : sessionActiveRef s' = false /\ mediaRecorderRef s' = None).
  { rewrite Hs', run_deliveries.
    pose proof (stopRecording_effect s) as (Hactive & _ & _ & Hcur & _).
    now apply deliveries_inactive. }
  assert (Hser : Spec.serialized s').
  { rewrite Hs'. now apply run_serialized. }
  assert (Hidle : Forall Spec.idle (recorders s')).
  { destruct Hser as (_ & _ & [Hidle|(rec & r & Href & _)]); [exact Hidle|].
    destruct Hoff as [_ Hcur]. congruence. }
  split; [now split|]. split; [apply Hoff|]. split; [apply Hoff|].
  assert (Hwhole : s' = run (inputs ++ StopClick :: repeat Deliver n) start)
    by (unfold s', s; now rewrite run_app).
  destruct (drained_buffers s0 startTs
              (inputs ++ StopClick :: repeat Deliver n) Hsettled)
    as (Hchunks & _ & Hheld).
  - fold start. now rewrite <- Hwhole.
  - fold start. rewrite <- Hwhole. unfold Spec.someone_recording.
    now apply idle_nobody_recording.
  - fold start in Hchunks, Hheld. rewrite <- Hwhole in Hchunks, Hheld.
    rewrite heard_run_app in Hheld.
    cbn [Spec.heard_run Spec.heard app] in Hheld.
    rewrite heard_run_deliveries, app_nil_r in Hheld.
    rewrite <- Hheld. unfold Spec.audio_held.
    rewrite Hchunks, Hempty, (idle_gathered _ Hidle). cbn.
    now rewrite app_nil_r.
Qed.

Lemma step_blobs (i : Input) (s : Session) :
  Forall (fun blob => blob <> []) (chunks s) ->
  Forall (fun blob => blob <> []) (chunks (step i s)) /\
  exists new,
    dispatched (step i s) = dispatched s ++ new /\
    Forall (fun blob : list N => blob <> []) new.
Proof.
  intros Hchunks.
  assert (Hsame : forall s',
             chunks s' = chunks s -> dispatched s' = dispatched s ->
             Forall (fun blob => blob <> []) (chunks s') /\
             exists new,
               dispatched s' = dispatched s ++ new /\
               Forall (fun blob : list N => blob <> []) new).
  { intros s' -> ->. split; [exact Hchunks|].
    exists []. now rewrite app_nil_r. }
  assert (Hdeliver : forall accepts,
             Forall (fun blob => blob <> []) (chunks (deliver accepts s)) /\
             exists new,
               dispatched (deliver accepts s) = dispatched s ++ new /\
               Forall (fun blob : list N => blob <> []) new).
  { intros accepts.
    unfold deliver. destruct (tasks s) as [|t rest]; [now apply Hsame|].
    destruct t as [rec|rec data|rec].
    + pose proof (onstart_run (set_tasks rest s))
        as (_ & _ & _ & _ & H1 & _ & _ & _ & _ & _ & H2).
      now apply Hsame.
    + pose proof (ondataavailable_run data (set_tasks rest s))
        as (-> & _ & _ & _ & _ & _ & _ & _ & _ & _ & ->).
      cbn [chunks dispatched set_tasks]. split.
      * apply Forall_app. split; [exact Hchunks|].
        case_bool_decide; [constructor|now repeat constructor].
      * exists []. now rewrite app_nil_r.
    + pose proof (onstop_run accepts (set_tasks rest s)) as (-> & -> & _).
      cbn [chunks dispatched set_tasks]. split; [constructor|].
      eexists. split; [reflexivity|].
      case_bool_decide as Hempty; [constructor|].
      repeat constructor.
      destruct Hchunks as [|blob more Hblob _]; [congruence|].
      cbn. destruct blob; [congruence|discriminate]. }
  destruct i as [rms now| | |bytes|rec| |]; cbn [step]; try apply Hdeliver.
  - pose proof (tick_effect rms now s) as (_ & _ & _ & _ & H1 & H2 & _).
    now apply Hsame.
  - pose proof (handleManualFlush_effect s) as (_ & _ & _ & _ & H1 & H2 & _).
    now apply Hsame.
  - pose proof (stopRecording_effect s)
      as (_ & _ & _ & _ & _ & _ & _ & H1 & H2 & _).
    now apply Hsame.
  - pose proof (capture_run bytes s)
      as (_ & _ & _ & _ & _ & _ & _ & H1 & H2 & _).
    now apply Hsame.
  - pose proof (timeslice_run rec s)
      as (_ & _ & _ & _ & _ & _ & _ & H1 & H2 & _).
    now apply Hsame.
Qed.

(** X23. No empty blob is ever dispatched for analysis: every blob a
    session adds to those dispatched holds at least one byte, whatever the
    inputs, because empty data events are not buffered and an empty buffer
    is not sent. *)
Theorem dispatched_blobs_are_not_empty (s0 : Session) (startTs : float)
    (inputs : list Input) :
  exists new,
    dispatched (run inputs (startRecording startTs s0)) =
      dispatched s0 ++ new /\
    Forall (fun blob : list N => blob <> []) new.
Proof.
  assert (Hrun : Forall (fun blob => blob <> [])
                   (chunks (run inputs (startRecording startTs s0))) /\
                 exists new,
                   dispatched (run inputs (startRecording startTs s0)) =
                     dispatched s0 ++ new /\
                   Forall (fun blob : list N => blob <> []) new);
    [|tauto].
  induction inputs as [|i inputs (IHchunks & new & IHsent & IHnew)]
    using rev_ind.
  - rewrite startRecording_run. cbn. split; [constructor|].
    exists []. now rewrite app_nil_r.
  - rewrite run_snoc.
    destruct (step_blobs i _ IHchunks) as (Hchunks & more & Hsent & Hmore).
    split; [exact Hchunks|]. exists (new ++ more).
    split; [now rewrite Hsent, IHsent, app_assoc|].
    apply Forall_app. now split.
Qed.

Lemma step_session (i : Input) (s : Session) :
  i <> StopClick ->
  meterRafRef (step i s) = meterRafRef s /\
  sessionActiveRef (step i s) = sessionActiveRef s /\
  streamRef (step i s) = streamRef s.
Proof.
  intros Hi.
  assert (Hdeliver : forall accepts,
             meterRafRef (deliver accepts s) = meterRafRef s /\
             sessionActiveRef (deliver accepts s) = sessionActiveRef s /\
             streamRef (deliver accepts s) = streamRef s).
  { intros accepts. unfold deliver. destruct (tasks s) as [|t rest]; [tauto|].
    destruct t as [rec|rec data|rec].
    + pose proof (onstart_run (set_tasks rest s))
        as (_ & _ & _ & _ & _ & H1 & H2 & H3 & _). tauto.
    + pose proof (ondataavailable_run data (set_tasks rest s))
        as (_ & _ & _ & _ & _ & H1 & H2 & H3 & _). tauto.
    + pose proof (onstop_run accepts (set_tasks rest s))
        as (_ & _ & H1 & H2 & _ & H3 & _). tauto. }
  destruct i as [rms now| | |bytes|rec| |]; cbn [step]; try apply Hdeliver.
  - pose proof (tick_effect rms now s) as (_ & H1 & H2 & H3 & _). tauto.
  - pose proof (handleManualFlush_effect s) as (_ & H1 & H2 & H3 & _). tauto.
  - congruence.
  - pose proof (capture_run bytes s) as (_ & _ & _ & _ & H1 & H2 & H3 & _).
    tauto.
  - pose proof (timeslice_run rec s) as (_ & _ & _ & _ & H1 & H2 & H3 & _).
    tauto.
Qed.

(** ** Segments and stops *)




(** X25. Nothing but [stopRecording] ends a session: over any inputs that
    hold no click on stop, the meter loop stays scheduled as it was (a
    tick never dies of an exception, since it calls [stop] only on a
    recorder it has just seen recording), the session stays active and the
    microphone stream is kept. *)
Theorem only_stopRecording_ends_session (inputs : list Input) (s : Session) :
  Forall (fun i => i <> StopClick) inputs ->
  meterRafRef (run inputs s) = meterRafRef s /\
  sessionActiveRef (run inputs s) = sessionActiveRef s /\
  streamRef (run inputs s) = streamRef s.
Proof.
  intros Hinputs.
  induction inputs as [|i inputs IH] using rev_ind; [now repeat split|].
  apply Forall_app in Hinputs as [Hinputs Hi].
  apply Forall_inv in Hi.
  destruct (IH Hinputs) as (<- & <- & <-).
  rewrite run_snoc. now apply step_session.
Qed.

End WholeSession.

Section WholeSessionScenarios.
Import QueueCommands.

Lemma silence_timer_only_while_speaking_witness :
  Spec.timer_only_while_speaking
    (run [Tick 0.01%float 900%float; Tick 0.0001%float 1000%float]
       (startRecording 0%float mounted)).
Proof.
  apply (proj2 (proj2 silence_timer_only_while_speaking) mounted).
  apply (proj1 silence_timer_only_while_speaking).
Defined.

Lemma stop_in_flight_always_clears_witness :
  stopInFlightRef
    (run (repeat Deliver 4)
       (run [Capture [1; 2]%N; ManualFlush] (startRecording 0%float mounted))) =
  false.
Proof.
  apply (proj1 (proj2 (stop_in_flight_always_clears mounted 0%float
                         [Capture [1; 2]%N; ManualFlush]
                         (conj eq_refl (Forall_nil_2 _))
                         ltac:(repeat constructor; discriminate))) 4%nat).
  vm_compute. lia.
Defined.

(** The same session when the browser refuses the replacement: the flush
    that follows is rejected, and so is every later one. *)
Example refused_restart_blocks_flush :
  let s := run [Deliver; Capture [1; 2]%N; ManualFlush; Deliver;
                DeliverRefused; Capture [3]%N; ManualFlush]
             (startRecording 0%float mounted) in
  stopInFlightRef s = true /\ stopCalls s = [0%nat] /\
  dispatched s = [[1; 2]%N] /\ Spec.audio_held s = [1; 2]%N.
Proof. repeat split. Qed.

Lemma drained_session_has_dispatched_all_witness :
  concat
    (dispatched
       (run [Capture [1; 2]%N; ManualFlush; Deliver; Deliver; Deliver;
             Capture [3]%N; StopClick; Deliver; Deliver; Deliver]
          (startRecording 0%float mounted))) =
  [1; 2; 3]%N.
Proof.
  apply (drained_session_has_dispatched_all mounted 0%float
           [Capture [1; 2]%N; ManualFlush; Deliver; Deliver; Deliver;
            Capture [3]%N; StopClick; Deliver; Deliver; Deliver]
           (conj eq_refl (Forall_nil_2 _))); reflexivity.
Defined.

Lemma stop_then_drain_settles_witness :
  Spec.settled
    (run (StopClick :: repeat Deliver 4)
       (run [Capture [1; 2]%N] (startRecording 0%float mounted))).
Proof.
  apply (stop_then_drain_settles mounted 0%float [Capture [1; 2]%N] 4%nat
           (conj eq_refl (Forall_nil_2 _))).
  vm_compute. lia.
Defined.


Lemma only_stopRecording_ends_session_witness :
  meterRafRef
    (run [Tick 0.01%float 900%float; ManualFlush; Deliver; Deliver; Deliver]
       (startRecording 0%float mounted)) = Some 0%float.
Proof.
  apply (only_stopRecording_ends_session
           [Tick 0.01%float 900%float; ManualFlush; Deliver; Deliver; Deliver]
           (startRecording 0%float mounted)).
  repeat (constructor; [discriminate|]). constructor.
Defined.

End WholeSessionScenarios.

(* ===================================================================== *)
(** * The floor of the speech threshold *)
(* ===================================================================== *)

Section ThresholdFloor.
Import QueueCommands.

(** [<] on binary64 values is transitive; the order is read off the
    standard library's specification of the primitive comparison. *)
Lemma SFltb_trans (a b c : spec_float) :
  SFltb a b = true -> SFltb b c = true -> SFltb a c = true.
Proof.
  unfold SFltb, SFcompare.
  destruct a as [sa|sa| |sa ma ea], b as [sb|sb| |sb mb eb],
    c as [sc|sc| |sc mc ec];
    try discriminate; try reflexivity;
    repeat match goal with s : bool |- _ => destruct s end;
    try discriminate; try reflexivity.
  all: rewrite ?Pos.compare_cont_spec; cbn [Pos.switch_Eq].
  all: fold (Pos.compare ma mb) (Pos.compare mb mc) (Pos.compare ma mc).
  all: destruct (Z.compare_spec ea eb), (Z.compare_spec eb ec),
         (Z.compare_spec ea ec);
    try discriminate; try reflexivity; try lia.
  all: subst.
  all: destruct (Pos.compare_spec ma mb), (Pos.compare_spec mb mc),
         (Pos.compare_spec ma mc);
    cbn; try discriminate; try reflexivity; try lia.
Qed.

Lemma ltb_trans (a b c : float) :
  (a <? b)%float = true -> (b <? c)%float = true -> (a <? c)%float = true.
Proof. rewrite !ltb_spec. apply SFltb_trans. Qed.

Lemma nan_ltb (x : float) : (nan <? x)%float = false.
Proof. rewrite ltb_spec. reflexivity. Qed.

(** The threshold is the floor, or above it, or not a number; so a reading
    that is not above the floor is not above the threshold either. *)
Lemma Math_max_floor (x r : float) :
  (MIN_THRESHOLD_RMS <? r)%float = false ->
  (Math_max MIN_THRESHOLD_RMS x <? r)%float = false.
Proof.
  intros Hquiet. unfold Math_max.
  destruct (PrimFloat.is_nan MIN_THRESHOLD_RMS || PrimFloat.is_nan x);
    [apply nan_ltb|].
  destruct (MIN_THRESHOLD_RMS <? x)%float eqn:Habove.
  - destruct (x <? r)%float eqn:Hx; [|reflexivity].
    now rewrite (ltb_trans _ _ _ Habove Hx) in Hquiet.
  - destruct (x <? MIN_THRESHOLD_RMS)%float; [exact Hquiet|].
    change (1 / MIN_THRESHOLD_RMS <? 0)%float with false. exact Hquiet.
Qed.

Lemma quiet_not_above (rms now : float) (s : Session) :
  (MIN_THRESHOLD_RMS <? rms)%float = false ->
  Spec.above_threshold rms now s = false.
Proof.
  intros Hquiet. unfold Spec.above_threshold.
  destruct (meterRafRef s); [|reflexivity].
  unfold threshold_of. now apply Math_max_floor.
Qed.

Lemma tick_quiet (rms now : float) (s : Session) :
  Spec.above_threshold rms now s = false ->
  isSpeakingRef s = false ->
  isSpeakingRef (tick rms now s) = false.
Proof.
  intros Hquiet Hsilent.
  destruct (meterRafRef s) as [startTs|] eqn:Hloop;
    [|now rewrite tick_idle].
  pose proof (tick_vad rms now startTs s Hloop) as H.
  rewrite Hquiet, Hsilent in H. now injection H.
Qed.

(** X26. The speech threshold has a floor that no calibration can lower:
    it is never below 0.002, whatever the noise floor is (it is not a
    number when the noise floor is not).  So a reading that is not above
    0.002 never counts as speech: a session that is silent stays silent
    over any number of such ticks, at any times, and none of them calls
    [stop]. *)
Theorem quiet_readings_never_start_speech :
  (forall s : Session,
      (threshold_of s <? MIN_THRESHOLD_RMS)%float = false) /\
  (forall (rms now : float) (s : Session),
      (MIN_THRESHOLD_RMS <? rms)%float = false ->
      Spec.above_threshold rms now s = false) /\
  (forall (ticks : list (float * float)) (s : Session),
      Forall (fun t => (MIN_THRESHOLD_RMS <? t.1)%float = false) ticks ->
      isSpeakingRef s = false ->
      isSpeakingRef (Spec.run_ticks ticks s) = false /\
      stopCalls (Spec.run_ticks ticks s) = stopCalls s).
Proof.
  split; [|split].
  - intros s. unfold threshold_of. now apply Math_max_floor.
  - exact quiet_not_above.
  - intros ticks s Hticks. revert s.
    induction Hticks as [|[rms now] ticks Hquiet _ IH]; intros s Hsilent;
      [now split|].
    cbn [Spec.run_ticks fold_left fst snd] in *.
    pose proof (tick_quiet rms now s (quiet_not_above rms now s Hquiet) Hsilent)
      as Hstill.
    destruct (IH _ Hstill) as [Hend Hcalls].
    split; [exact Hend|]. unfold Spec.run_ticks in Hcalls. rewrite Hcalls.
    rewrite tick_stopCalls, Hsilent.
    now destruct (mediaRecorderRef s).
Qed.

End ThresholdFloor.

Section ThresholdScenarios.
Import QueueCommands.

Lemma quiet_readings_never_start_speech_witness :
  isSpeakingRef
    (Spec.run_ticks [(0.0005%float, 16%float); (0.002%float, 900%float)]
       (startRecording 0%float mounted)) = false.
Proof.
  apply (proj2 (proj2 quiet_readings_never_start_speech)
           [(0.0005%float, 16%float); (0.002%float, 900%float)]
           (startRecording 0%float mounted)).
  - repeat (constructor; [reflexivity|]). constructor.
  - reflexivity.
Defined.

End ThresholdScenarios.
